(** * caddy-docker-proxy: the directive generator and the loader

    A shallow embedding of the two Go files of package [plugin], the
    loader and the Caddyfile generator: the directive tree, label argument splitting, the merge of directive
    trees, the Caddyfile serializer, the swarm availability probe and the
    loader's [update] cycle, with the properties the specification states
    about them.

    Conventions.
    - A Go [string] and a Go [[]byte] are finite byte sequences.  Strings
      are [String.string] (a list of 8-bit [ascii]); the Caddyfile bytes
      held by the loader are [list Byte.byte], where the nil slice and the
      empty slice are the same value, as [bytes.Equal] and [len] see them.
    - A Go [map[string]*directiveData] is an association list with pairwise
      distinct keys.  The order of the list stands for the order in which
      the runtime happens to iterate over the map, which Go leaves
      unspecified: nothing proved below about the output may depend on it.
    - External collaborators (docker, the template engine, caddy's
      validation, the entropy sources) are parameters, and every effect
      (log lines, calls out) is recorded in an explicit trace.
    - The loop of [monitorEvents] and the function of the timer run on
      goroutines of their own and share the loader.  A run of the loader
      is the sequence of their steps, a message received or a call of
      [update], in the order in which they write [skipEvents]. *)

From Stdlib Require Import String Ascii List ZArith Lia Bool Arith.
From Stdlib Require Import Permutation Sorted Orders Mergesort.
From Stdlib.Strings Require Byte.
Import ListNotations.

Set Warnings "-register-all".

Local Open Scope list_scope.
Local Open Scope string_scope.

(** ** Go strings *)

Module GoString.

(** The line feed, written ["\n"] in the source. *)
Definition nl : string := String "010"%char EmptyString.

(** [strings.Repeat(s, count)] for a non-negative count. *)
Fixpoint Repeat (s : string) (count : nat) : string :=
  match count with
  | O => ""
  | S n => s ++ Repeat s n
  end.

(** [s != ""]. *)
Definition nonEmpty (s : string) : bool :=
  match s with
  | EmptyString => false
  | String _ _ => true
  end.

Definition byteOfZ (z : Z) : ascii := ascii_of_N (Z.to_N z).

(** [utf8.RuneError], U+FFFD, is encoded as EF BF BD. *)
Definition runeError : Z := 65533.

(** A valid Unicode code point: at most U+10FFFF and not a surrogate. *)
Definition validRune (r : Z) : bool :=
  ((0 <=? r) && (r <? 55296) || (57343 <? r) && (r <=? 1114111))%Z.

(** UTF-8 encoding of a valid code point ([utf8.EncodeRune]). *)
Definition encodeRune (r : Z) : string :=
  if (r <? 128)%Z then
    String (byteOfZ r) ""
  else if (r <? 2048)%Z then
    String (byteOfZ (Z.lor 192 (Z.shiftr r 6)))
      (String (byteOfZ (Z.lor 128 (Z.land r 63))) "")
  else if (r <? 65536)%Z then
    String (byteOfZ (Z.lor 224 (Z.shiftr r 12)))
      (String (byteOfZ (Z.lor 128 (Z.land (Z.shiftr r 6) 63)))
        (String (byteOfZ (Z.lor 128 (Z.land r 63))) ""))
  else
    String (byteOfZ (Z.lor 240 (Z.shiftr r 18)))
      (String (byteOfZ (Z.lor 128 (Z.land (Z.shiftr r 12) 63)))
        (String (byteOfZ (Z.lor 128 (Z.land (Z.shiftr r 6) 63)))
          (String (byteOfZ (Z.lor 128 (Z.land r 63))) ""))).

(** The conversion [string(v)] of a [uint64]: the UTF-8 encoding of the
    code point [v], and of U+FFFD when [v] is not a valid code point.
    It is not the decimal representation of [v]. *)
Definition stringOfUint64 (v : Z) : string :=
  if validRune v then encodeRune v else encodeRune runeError.

(** [\d] of Go's regexp syntax: an ASCII decimal digit. *)
Definition isDigit (c : ascii) : bool :=
  let n := N_of_ascii c in ((48 <=? n) && (n <=? 57))%N.

(** [\s] of Go's regexp syntax: the class [\t\n\f\r ]. *)
Definition isSpace (c : ascii) : bool :=
  let n := N_of_ascii c in
  ((n =? 9) || (n =? 10) || (n =? 12) || (n =? 13) || (n =? 32))%N.

(** A string of decimal digits only, and a non-empty one, which is what
    [\d+] matches whole. *)
Fixpoint allDigits (s : string) : bool :=
  match s with
  | EmptyString => true
  | String c s' => isDigit c && allDigits s'
  end.

Definition isDecimal (s : string) : bool := nonEmpty s && allDigits s.

(** [strings.Join(elems, sep)]. *)
Definition Join (elems : list string) (sep : string) : string :=
  String.concat sep elems.

(** [strings.Split(s, sep)] for a separator of one byte: the pieces
    between the separators, one more than there are separators. *)
Fixpoint Split (s : string) (sep : ascii) : list string :=
  match s with
  | EmptyString => [""]
  | String c s' =>
      if Ascii.eqb c sep then "" :: Split s' sep
      else
        match Split s' sep with
        | piece :: pieces => String c piece :: pieces
        | [] => [String c ""]
        end
  end.

End GoString.

Import GoString.

(** ** The order of [sort.Strings] *)

(** Go compares strings byte by byte; so does [String.leb]. *)
Module StringOrder <: TotalLeBool.
Definition t := string.
Definition leb := String.leb.
Definition leb_total :
  forall a1 a2, leb a1 a2 = true \/ leb a2 a1 = true := String.leb_total.
End StringOrder.

Module StringSort := Sort StringOrder.

Definition string_le (a b : string) : Prop := String.leb a b = true.

(** ** The directive tree and the generator *)

Module Generator.

(** [type directiveData struct]. *)
Inductive directiveData : Type :=
| Directive (name : string) (args : list string)
            (children : list (string * directiveData)).

Abbreviation directiveMap := (list (string * directiveData)).

Definition name (d : directiveData) : string :=
  match d with Directive n _ _ => n end.
Definition args (d : directiveData) : list string :=
  match d with Directive _ a _ => a end.
Definition children (d : directiveData) : directiveMap :=
  match d with Directive _ _ c => c end.

(** *** Map operations *)

Section Maps.
Context {V : Type}.

(** [m[k]] with its presence flag. *)
Fixpoint mapGet (k : string) (m : list (string * V)) : option V :=
  match m with
  | [] => None
  | (k', v) :: m' => if String.eqb k k' then Some v else mapGet k m'
  end.

(** [m[k] = v]: the binding of an existing key is replaced, a new key
    is added. *)
Fixpoint mapSet (k : string) (v : V) (m : list (string * V))
  : list (string * V) :=
  match m with
  | [] => [(k, v)]
  | (k', v') :: m' =>
      if String.eqb k k' then (k, v) :: m' else (k', v') :: mapSet k v m'
  end.

(** [delete(m, k)]. *)
Fixpoint mapDelete (k : string) (m : list (string * V))
  : list (string * V) :=
  match m with
  | [] => []
  | (k', v') :: m' =>
      if String.eqb k k' then mapDelete k m' else (k', v') :: mapDelete k m'
  end.

(** [getKeys]: the keys in iteration order. *)
Definition getKeys (m : list (string * V)) : list string := map fst m.

(** [getSortedKeys]: [getKeys] followed by [sort.Strings]. *)
Definition getSortedKeys (m : list (string * V)) : list string :=
  StringSort.sort (getKeys m).
End Maps.

(** *** Serializer *)

(** The body of the loop of [writeDirectives], given what each child
    renders to: the texts are emitted in the order of the sorted keys. *)
Definition emitSorted (rendered : list (string * string)) : string :=
  String.concat ""
    (map (fun name =>
            match mapGet name rendered with
            | Some text => text
            | None => ""
            end)
         (getSortedKeys rendered)).

(** The loop over [directive.args] in [writeDirective]. *)
Fixpoint writeArgs (index : nat) (l : list string) : string :=
  match l with
  | [] => ""
  | arg :: rest =>
      (if (0 <? index)%nat then " " else "") ++ arg ++ writeArgs (S index) rest
  end.

(** [writeDirective].  The recursive call through [writeDirectives] is
    made on every child while the children are traversed, and
    [emitSorted] then puts the rendered children in sorted key order;
    [writeDirectives_eq] below gives the loop as the source has it. *)
Fixpoint writeDirective (directive : directiveData) (level : nat) : string :=
  match directive with
  | Directive dname dargs dchildren =>
      Repeat " " (level * 2)
      ++ (if nonEmpty dname then dname else "")
      ++ (if nonEmpty dname && (0 <? List.length dargs)%nat then " " else "")
      ++ (if (0 <? List.length dargs)%nat then writeArgs 0 dargs else "")
      ++ (if (0 <? List.length dchildren)%nat then
            " {" ++ nl
            ++ emitSorted
                 (map (fun kc => (fst kc, writeDirective (snd kc) (level + 1)))
                      dchildren)
            ++ (Repeat " " (level * 2) ++ "}")
          else "")
      ++ nl
  end.

(** [writeDirectives]. *)
Definition writeDirectives (directives : directiveMap) (level : nat) : string :=
  emitSorted (map (fun kc => (fst kc, writeDirective (snd kc) level)) directives).

(** *** Merge *)

(** [suffixRegex], [_\d+$], in [removeSuffix]: a trailing underscore
    followed by one or more digits up to the end of the name is removed.
    The name is scanned from its end. *)
Fixpoint spanDigits (l : list ascii) : list ascii * list ascii :=
  match l with
  | [] => ([], [])
  | c :: l' =>
      if isDigit c then
        let (ds, rest) := spanDigits l' in (c :: ds, rest)
      else ([], l)
  end.

Definition removeSuffix (s : string) : string :=
  let (digits, rest) := spanDigits (rev (list_ascii_of_string s)) in
  match digits, rest with
  | _ :: _, c :: rest' =>
      if Ascii.eqb c "_"%char then string_of_list_ascii (rev rest') else s
  | _, _ => s
  end.

(** One call of [createUniqueSuffix] reads the entropy sources once:
    either [crypto/rand] answers with a value below [math.MaxInt64], or
    it fails and [math/rand] gives a [uint64]. *)
Inductive draw : Type :=
| CryptoInt (val : Z)
| FallbackUint64 (val : Z).

(** [createUniqueSuffix]: both branches end in the conversion
    [string(<uint64>)]. *)
Definition createUniqueSuffix (d : draw) : string :=
  match d with
  | CryptoInt val => stringOfUint64 val
  | FallbackUint64 val => stringOfUint64 val
  end.

(** The method [addArgs] of [directiveData]. *)
Definition addArgs (directive : directiveData) (more : list string)
  : directiveData :=
  Directive (name directive) (args directive ++ more) (children directive).

(** The loop of [directivesAreSimilar] over two lists of one length. *)
Fixpoint sameArgs (a b : list string) : bool :=
  match a, b with
  | x :: a', y :: b' => if String.eqb x y then sameArgs a' b' else false
  | _, _ => true
  end.

(** [directivesAreSimilar]. *)
Definition directivesAreSimilar (directiveA directiveB : directiveData)
  : bool :=
  if negb (List.length (args directiveA) =? List.length (args directiveB))%nat
  then false
  else sameArgs (args directiveA) (args directiveB).

(** The first test in the loop of [mergeDirectives]: two [proxy]
    directives with arguments and the same first argument. *)
Definition sameProxy (subDirectiveA subDirectiveB : directiveData) : bool :=
  String.eqb (name subDirectiveA) "proxy"
  && String.eqb (name subDirectiveB) "proxy"
  && (0 <? List.length (args subDirectiveA))%nat
  && (0 <? List.length (args subDirectiveB))%nat
  && String.eqb (hd "" (args subDirectiveA)) (hd "" (args subDirectiveB)).

(** The key a conflicting child of B is stored under. *)
Definition renamedKey (keyB : string) (d : draw) : string :=
  removeSuffix keyB ++ "_" ++ createUniqueSuffix d.

Section Merge.
(** [entropy i] is what the [i]-th call of [createUniqueSuffix] of the
    process reads. *)
Variable entropy : nat -> draw.

(** The body of the loop of [mergeDirectives] for one child of B: the
    children of A so far and the number of suffixes created so far go
    in and come out.  The write through the pointer [subDirectiveA] is
    a write to A's binding of [keyB]. *)
Definition mergeChild (acc : directiveMap * nat)
           (entryB : string * directiveData) : directiveMap * nat :=
  let (childrenA, calls) := acc in
  let (keyB, subDirectiveB) := entryB in
  match mapGet keyB childrenA with
  | Some subDirectiveA =>
      if sameProxy subDirectiveA subDirectiveB then
        (mapSet keyB (addArgs subDirectiveA (tl (args subDirectiveB)))
                childrenA, calls)
      else if directivesAreSimilar subDirectiveA subDirectiveB then
        (childrenA, calls)
      else
        (mapSet (renamedKey keyB (entropy calls)) subDirectiveB childrenA,
         S calls)
  | None => (mapSet keyB subDirectiveB childrenA, calls)
  end.

Definition mergeLoop (childrenB : directiveMap) (acc : directiveMap * nat)
  : directiveMap * nat :=
  fold_left mergeChild childrenB acc.

(** [mergeDirectives]; [None] is the nil pointer. *)
Definition mergeDirectives (directiveA directiveB : option directiveData)
           (calls : nat) : option directiveData * nat :=
  match directiveA, directiveB with
  | None, _ => (directiveB, calls)
  | Some _, None => (directiveA, calls)
  | Some a, Some b =>
      let (childrenA, calls') := mergeLoop (children b) (children a, calls) in
      (Some (Directive (name a) (args a) childrenA), calls')
  end.
End Merge.

(** *** Label values *)

(** [reg.FindAllStringIndex(text, -1)] for the expression [\s+], the only
    one [regSplit] is called with: the successive maximal runs of
    whitespace bytes, each as the pair of its start and end offsets.
    [pos] is the offset of the next byte and [start] the offset at which
    the run being read began, if one is being read. *)
Fixpoint findAllSpaces (text : string) (pos : nat) (start : option nat)
  : list (nat * nat) :=
  match text with
  | EmptyString =>
      match start with
      | Some b => [(b, pos)]
      | None => []
      end
  | String c rest =>
      if isSpace c then
        findAllSpaces rest (S pos)
          (Some (match start with Some b => b | None => pos end))
      else
        match start with
        | Some b => (b, pos) :: findAllSpaces rest (S pos) None
        | None => findAllSpaces rest (S pos) None
        end
  end.

(** The compiled expression [\s+]. *)
Definition spaces (text : string) : list (nat * nat) :=
  findAllSpaces text 0 None.

(** The loop of [regSplit] and the statement after it; [text[a:b]] is
    [substring a (b - a) text]. *)
Fixpoint regSplitLoop (text : string) (laststart : nat)
         (indexes : list (nat * nat)) : list string :=
  match indexes with
  | [] => [substring laststart (String.length text - laststart) text]
  | element :: rest =>
      substring laststart (fst element - laststart) text
      :: regSplitLoop text (snd element) rest
  end.

(** [regSplit]; the delimiter is given compiled. *)
Definition regSplit (text : string) (reg : string -> list (nat * nat))
  : list string :=
  regSplitLoop text 0 (reg text).

(** [parseArgs]. *)
Definition parseArgs (text : string) : list string :=
  let args := regSplit text spaces in
  match args with
  | [a] => if String.eqb a "" then [] else args
  | _ => args
  end.

Section Templates.
(** The template engine of [html/template] and the data the labels are
    expanded with. *)
Variable template : Type.
Variable data : Type.
(** [template.New("").Parse(content)]: a template or an error. *)
Variable templateParse : string -> template + string.
(** What [t.Execute(&writer, data)] leaves in the writer; the error it
    returns is dropped by the caller. *)
Variable templateExecute : template -> data -> string.

(** [processVariables]: the text returned and the lines logged. *)
Definition processVariables (d : data) (content : string)
  : string * list string :=
  match templateParse content with
  | inr err => (content, [err])
  | inl t => (templateExecute t d, [])
  end.

End Templates.

(** *** Swarm availability *)

(** The answer of [dockerClient.Info]: whether the local node state is
    active, or an error. *)
Inductive infoResult : Type :=
| InfoOk (localNodeStateActive : bool)
| InfoErr (err : string).

(** The two fields of [CaddyfileGenerator] the probe uses.  A time is a
    number of nanoseconds; [None] is the zero [time.Time], which no clock
    reading equals. *)
Record swarmCache : Type := mkSwarmCache {
  swarmIsAvailable : bool;
  swarmIsAvailableTime : option Z
}.

Inductive probeLog : Type :=
| LogSwarmIsAvailable (available : bool)
| LogSwarmCheckFailed (err : string).

(** [checkSwarmAvailability]. *)
Definition checkSwarmAvailability (g : swarmCache) (info : infoResult)
           (isFirstCheck : bool) : swarmCache * list probeLog :=
  match info with
  | InfoOk newSwarmIsAvailable =>
      (mkSwarmCache newSwarmIsAvailable (swarmIsAvailableTime g),
       if isFirstCheck || negb (Bool.eqb newSwarmIsAvailable (swarmIsAvailable g))
       then [LogSwarmIsAvailable newSwarmIsAvailable]
       else [])
  | InfoErr err =>
      (mkSwarmCache false (swarmIsAvailableTime g), [LogSwarmCheckFailed err])
  end.

(** [swarmAvailabilityCacheInterval], one minute. *)
Definition swarmAvailabilityCacheInterval : Z := 60 * 1000000000.

(** [time.Since(g.swarmIsAvailableTime) > swarmAvailabilityCacheInterval];
    the time since the zero [time.Time] is the largest duration. *)
Definition cacheIsStale (g : swarmCache) (now : Z) : bool :=
  match swarmIsAvailableTime g with
  | None => true
  | Some t => (swarmAvailabilityCacheInterval <? now - t)%Z
  end.

(** The probe as [GenerateCaddyFile] runs it once the cache is stale:
    [checkSwarmAvailability] with the first-check flag, then the time of
    the probe is stored. *)
Definition probe (g : swarmCache) (info : infoResult) (now : Z)
  : swarmCache * list probeLog :=
  let isFirstCheck :=
    match swarmIsAvailableTime g with None => true | Some _ => false end in
  let (g', logged) := checkSwarmAvailability g info isFirstCheck in
  (mkSwarmCache (swarmIsAvailable g') (Some now), logged).

(** The availability step of [GenerateCaddyFile]. *)
Definition probeIfStale (g : swarmCache) (info : infoResult) (now : Z)
  : swarmCache * list probeLog :=
  if cacheIsStale g now then probe g info now else (g, []).

(** A generator as [CreateGenerator] returns it. *)
Definition newSwarmCache : swarmCache := mkSwarmCache false None.

(** The cache after a sequence of probes, each with the answer of docker
    and the time it ran at. *)
Definition afterProbes (g : swarmCache) (history : list (infoResult * Z))
  : swarmCache :=
  fold_left (fun g0 p => fst (probe g0 (fst p) (snd p))) history g.

(** *** Labels *)

(** A pointer to a directive inside a map of directives is the path of
    keys that leads to it.  [directiveAt] reads through such a pointer and
    [updateAt] writes through it. *)
Fixpoint directiveAt (ptr : list string) (m : directiveMap)
  : option directiveData :=
  match ptr with
  | [] => None
  | p :: rest =>
      match mapGet p m with
      | None => None
      | Some d =>
          match rest with
          | [] => Some d
          | _ :: _ => directiveAt rest (children d)
          end
      end
  end.

Fixpoint updateAt (ptr : list string) (f : directiveData -> directiveData)
         (m : directiveMap) : directiveMap :=
  match ptr with
  | [] => m
  | p :: rest =>
      match mapGet p m with
      | None => m
      | Some d =>
          match rest with
          | [] => mapSet p (f d) m
          | _ :: _ =>
              mapSet p (Directive (name d) (args d)
                                  (updateAt rest f (children d))) m
          end
      end
  end.

(** The loop of [getOrCreateDirective] from the segment of index [i] on:
    the map after the missing directives of the path have been created. *)
Fixpoint getOrCreatePath (segments : list string) (i : nat)
         (skipFirstDirectiveName : bool) (currentMap : directiveMap)
  : directiveMap :=
  match segments with
  | [] => currentMap
  | p :: rest =>
      match mapGet p currentMap with
      | Some d =>
          mapSet p
            (Directive (name d) (args d)
               (getOrCreatePath rest (S i) skipFirstDirectiveName (children d)))
            currentMap
      | None =>
          mapSet p
            (Directive
               (if negb skipFirstDirectiveName || (0 <? i)%nat
                then removeSuffix p else "")
               []
               (getOrCreatePath rest (S i) skipFirstDirectiveName []))
            currentMap
      end
  end.

(** [getOrCreateDirective]: the map afterwards and the pointer to the
    directive returned. *)
Definition getOrCreateDirective (m : directiveMap) (path : string)
           (skipFirstDirectiveName : bool) : directiveMap * list string :=
  (getOrCreatePath (Split path "."%char) 0 skipFirstDirectiveName m,
   Split path "."%char).

(** [directive.args = newArgs]. *)
Definition setArgs (newArgs : list string) (directive : directiveData)
  : directiveData :=
  Directive (name directive) newArgs (children directive).

Section Labels.
Variable template : Type.
Variable data : Type.
Variable templateParse : string -> template + string.
Variable templateExecute : template -> data -> string.
(** [g.labelRegex.MatchString]. *)
Variable labelRegex : string -> bool.

(** The body of the loop of [convertLabelsToDirectives] for one label:
    the map and the lines logged so far go in and come out. *)
Definition convertLabel (templateData : data)
           (acc : directiveMap * list string) (entry : string * string)
  : directiveMap * list string :=
  let (m, logged) := acc in
  let (label, value) := entry in
  if negb (labelRegex label) then acc
  else
    let (m1, directive) := getOrCreateDirective m label true in
    let (argsText, lines) :=
      processVariables template data templateParse templateExecute
                       templateData value in
    (updateAt directive (setArgs (parseArgs argsText)) m1,
     (logged ++ lines)%list).

(** [convertLabelsToDirectives]; the labels come in the order the map of
    labels is iterated in. *)
Definition convertLabelsToDirectives (labels : list (string * string))
           (templateData : data) : directiveMap * list string :=
  fold_left (convertLabel templateData) labels ([], []).

(** [x.args[0]] under the test [x != nil && len(x.args) > 0]. *)
Definition firstArg (x : option directiveData) : option string :=
  match x with
  | Some d =>
      match args d with
      | a :: _ => Some a
      | [] => None
      end
  | None => None
  end.

(** The argument [parseDirectives] adds to the proxy directive for one
    target. *)
Definition proxyTargetArg (targetProtocol targetPort targetPath
                           : option directiveData) (target : string)
  : string :=
  (match firstArg targetProtocol with
   | Some protocol => protocol ++ "://"
   | None => ""
   end)
  ++ target
  ++ (match firstArg targetPort with
      | Some port => ":" ++ port
      | None => ""
      end)
  ++ (match firstArg targetPath with
      | Some path => path
      | None => ""
      end).

(** The first half of the body of the loop of [parseDirectives]: what
    the [address] label makes of the directive.  [getProxyTargets] is the
    answer of the function of that name, which is called once at most. *)
Definition synthesizeProxy (getProxyTargets : list string + string)
           (directive : directiveData) : directiveData + string :=
  match mapGet "address" (children directive) with
  | None => inl directive
  | Some address =>
      if negb (0 <? List.length (args address))%nat then inl directive
      else
        let sourcePath := mapGet "sourcepath" (children directive) in
        let targetPort := mapGet "targetport" (children directive) in
        let targetPath := mapGet "targetpath" (children directive) in
        let targetProtocol := mapGet "targetprotocol" (children directive) in
        let (children1, proxyDirective) :=
          getOrCreateDirective (children directive) "proxy" false in
        match directiveAt proxyDirective children1 with
        | None => inl (Directive (name directive) (args address) children1)
        | Some proxy =>
            if negb (List.length (args proxy) =? 0)%nat then
              inl (Directive (name directive) (args address) children1)
            else
              match getProxyTargets with
              | inr err => inr err
              | inl proxyTargets =>
                  let first :=
                    match firstArg sourcePath with
                    | Some p => p
                    | None => "/"
                    end in
                  let addTarget (d : directiveData) (target : string) :=
                    addArgs d [proxyTargetArg targetProtocol targetPort
                                              targetPath target] in
                  inl (Directive (name directive) (args address)
                         (updateAt proxyDirective
                            (fun d =>
                               fold_left addTarget proxyTargets
                                         (addArgs d [first]))
                            children1))
              end
        end
  end.

(** The second half: the five labels are deleted and the arguments
    become the name. *)
Definition moveToMain (directive : directiveData) : directiveData :=
  let c1 := mapDelete "address" (children directive) in
  let c2 := mapDelete "sourcepath" c1 in
  let c3 := mapDelete "targetport" c2 in
  let c4 := mapDelete "targetpath" c3 in
  let c5 := mapDelete "targetprotocol" c4 in
  Directive (Join (args directive) " ") [] c5.

(** The loop of [parseDirectives] over [originalMap]; an error of
    [getProxyTargets] ends it. *)
Fixpoint parseLoop (getProxyTargets : list string + string)
         (originalMap convertedMap : directiveMap) : directiveMap + string :=
  match originalMap with
  | [] => inl convertedMap
  | (_, directive) :: rest =>
      match synthesizeProxy getProxyTargets directive with
      | inr err => inr err
      | inl directive1 =>
          let directive2 := moveToMain directive1 in
          parseLoop getProxyTargets rest
                    (mapSet (name directive2) directive2 convertedMap)
      end
  end.

(** [parseDirectives]. *)
Definition parseDirectives (labels : list (string * string))
           (templateData : data) (getProxyTargets : list string + string)
  : directiveMap + string :=
  let originalMap := fst (convertLabelsToDirectives labels templateData) in
  parseLoop getProxyTargets originalMap [].
End Labels.

(** What [labelRegex] matches when the label prefix has no character that
    is special in a regular expression, as the default [caddy]: the
    prefix, then possibly an underscore and digits, then a dot or the end
    of the label. *)
Definition afterPrefix (rest : string) : bool :=
  match rest with
  | EmptyString => true
  | String c rest' =>
      if Ascii.eqb c "."%char then true
      else if Ascii.eqb c "_"%char then
        let (digits, tail) := spanDigits (list_ascii_of_string rest') in
        match digits, tail with
        | _ :: _, [] => true
        | _ :: _, c' :: _ => Ascii.eqb c' "."%char
        | [], _ => false
        end
      else false
  end.

Definition labelRegexOf (labelPrefix : string) (label : string) : bool :=
  String.prefix labelPrefix label
  && afterPrefix (substring (String.length labelPrefix)
                            (String.length label - String.length labelPrefix)
                            label).

(** *** Generation *)

(** The answers of docker and of [dockerUtils] that [getCaddyNetworks]
    reads: the id of the container caddy runs in, the ids of the networks
    that container is attached to, in the order the map of its network
    settings is iterated in, and for a network whether it is an ingress
    network. *)
Record networkAnswers : Type := mkNetworkAnswers {
  currentContainerID : string + string;
  containerNetworks : string -> list string + string;
  networkIngress : string -> bool + string
}.

(** The loop of [getCaddyNetworks]. *)
Fixpoint caddyNetworksLoop (inspect : string -> bool + string)
         (attached : list string) (networks : list string)
  : list string + string :=
  match attached with
  | [] => inl networks
  | networkID :: rest =>
      match inspect networkID with
      | inr err => inr err
      | inl ingress =>
          caddyNetworksLoop inspect rest
            (if negb ingress then (networks ++ [networkID])%list else networks)
      end
  end.

(** [getCaddyNetworks]: the value returned.  The two lines it prints on
    the log of the process are left out. *)
Definition getCaddyNetworks (a : networkAnswers) : list string + string :=
  match currentContainerID a with
  | inr err => inr err
  | inl containerID =>
      match containerNetworks a containerID with
      | inr err => inr err
      | inl attached => caddyNetworksLoop (networkIngress a) attached []
      end
  end.

(** [CaddyfileGenerator], without the clients; [None] is the nil map. *)
Record CaddyfileGenerator : Type := mkGenerator {
  caddyFilePath : string;
  labelPrefix : string;
  ignoreSwarmError : bool;
  proxyServiceTasks : bool;
  validateNetwork : bool;
  caddyNetworks : option (list (string * bool));
  swarm : swarmCache
}.

(** What the outside answers during one call of [GenerateCaddyFile]: the
    clock, the networks, [dockerClient.Info], [ioutil.ReadFile], the
    containers and the services, each with the answer of
    [getContainerDirectives] or [getServiceDirectives] for it, and the
    configs, each with the presence of the label and the answer of
    [ConfigInspectWithRaw]. *)
Record dockerAnswers : Type := mkAnswers {
  timeNow : Z;
  networksAnswer : networkAnswers;
  infoAnswer : infoResult;
  fileAnswer : list Byte.byte + string;
  containersAnswer : list (directiveMap + string) + string;
  servicesAnswer : list (directiveMap + string) + string;
  configsAnswer : list (bool * (list Byte.byte + string)) + string
}.

(** The two buffers, the directives and the number of suffixes created. *)
Record generation : Type := mkGeneration {
  caddyfileBuffer : list Byte.byte;
  logsBuffer : string;
  directives : directiveMap;
  suffixes : nat
}.

(** [logsBuffer.WriteString(text)]. *)
Definition writeLog (text : string) (st : generation) : generation :=
  mkGeneration (caddyfileBuffer st) (logsBuffer st ++ text) (directives st)
               (suffixes st).

(** [caddyfileBuffer.Write(dat)]. *)
Definition writeCaddyfile (dat : list Byte.byte) (st : generation)
  : generation :=
  mkGeneration (caddyfileBuffer st ++ dat)%list (logsBuffer st) (directives st)
               (suffixes st).

(** [fmt.Sprintf("[ERROR] %v\n", err.Error())]. *)
Definition errorLine (err : string) : string := "[ERROR] " ++ err ++ nl.

Section Generate.
Variable entropy : nat -> draw.

(** [directives[k] = mergeDirectives(directives[k], directive)]. *)
Definition mergeInto (st : generation) (entry : string * directiveData)
  : generation :=
  let (k, directive) := entry in
  let (merged, calls) :=
    mergeDirectives entropy (mapGet k (directives st)) (Some directive)
                    (suffixes st) in
  match merged with
  | Some d =>
      mkGeneration (caddyfileBuffer st) (logsBuffer st)
                   (mapSet k d (directives st)) calls
  | None => st
  end.

(** The loop over the containers. *)
Definition containersLoop (l : list (directiveMap + string)) (st : generation)
  : generation :=
  fold_left
    (fun st0 answer =>
       match answer with
       | inl containerDirectives => fold_left mergeInto containerDirectives st0
       | inr err => writeLog (errorLine err) st0
       end)
    l st.

(** The loop over the services; an error ends the generation when swarm
    errors are not to be passed over, and the state it ends in is given
    with the error. *)
Fixpoint servicesLoop (ignore : bool) (l : list (directiveMap + string))
         (st : generation) : generation + (generation * string) :=
  match l with
  | [] => inl st
  | inl serviceDirectives :: rest =>
      servicesLoop ignore rest (fold_left mergeInto serviceDirectives st)
  | inr err :: rest =>
      let st' := writeLog (errorLine err) st in
      if ignore then
        inr (st', "swarm is unavailable for getServiceDirectives")
      else servicesLoop ignore rest st'
  end.

(** The loop over the configs. *)
Fixpoint configsLoop (ignore : bool)
         (l : list (bool * (list Byte.byte + string))) (st : generation)
  : generation + (generation * string) :=
  match l with
  | [] => inl st
  | (false, _) :: rest => configsLoop ignore rest st
  | (true, inl configData) :: rest =>
      configsLoop ignore rest
        (writeCaddyfile (list_byte_of_string nl) (writeCaddyfile configData st))
  | (true, inr err) :: rest =>
      let st' := writeLog (errorLine err) st in
      if ignore then
        inr (st', "swarm is unavailable for ConfigInspectWithRaw")
      else configsLoop ignore rest st'
  end.

(** The part of [GenerateCaddyFile] that reads the networks and renews
    the availability of swarm: the generator afterwards, what went to
    [logsBuffer], and what the probe logged. *)
Definition prepare (g : CaddyfileGenerator) (a : dockerAnswers)
  : CaddyfileGenerator * string * list probeLog :=
  let (nets, logs) :=
    if validateNetwork g
       && match caddyNetworks g with None => true | Some _ => false end
    then
      match getCaddyNetworks (networksAnswer a) with
      | inl networks =>
          (Some (fold_left (fun m network => mapSet network true m) networks []),
           "")
      | inr err => (caddyNetworks g, errorLine err)
      end
    else (caddyNetworks g, "") in
  let (cache, probeLogs) := probeIfStale (swarm g) (infoAnswer a) (timeNow a) in
  (mkGenerator (caddyFilePath g) (labelPrefix g) (ignoreSwarmError g)
               (proxyServiceTasks g) (validateNetwork g) nets cache,
   logs, probeLogs).

(** The part of [GenerateCaddyFile] from the default Caddyfile to the
    containers. *)
Definition localSources (g : CaddyfileGenerator) (a : dockerAnswers)
           (st : generation) : generation :=
  let st1 :=
    if negb (String.eqb (caddyFilePath g) "") then
      match fileAnswer a with
      | inl dat => writeCaddyfile dat st
      | inr err => writeLog (errorLine err) st
      end
    else
      writeLog ("[INFO] Skipping default CaddyFile because no path is set" ++ nl)
               st in
  match containersAnswer a with
  | inl containers => containersLoop containers st1
  | inr err => writeLog (errorLine err) st1
  end.

(** The part over the services. *)
Definition serviceSources (g : CaddyfileGenerator) (a : dockerAnswers)
           (st : generation) : generation + (generation * string) :=
  if swarmIsAvailable (swarm g) then
    match servicesAnswer a with
    | inl services => servicesLoop (ignoreSwarmError g) services st
    | inr err =>
        let st' := writeLog (errorLine err) st in
        if ignoreSwarmError g then
          inr (st', "swarm is unavailable for ServiceList")
        else inl st'
    end
  else
    inl (writeLog ("[INFO] Skipping services because swarm is not available"
                   ++ nl) st).

(** The part over the configs. *)
Definition configSources (g : CaddyfileGenerator) (a : dockerAnswers)
           (st : generation) : generation + (generation * string) :=
  if swarmIsAvailable (swarm g) then
    match configsAnswer a with
    | inl configs => configsLoop (ignoreSwarmError g) configs st
    | inr err =>
        let st' := writeLog (errorLine err) st in
        if ignoreSwarmError g then
          inr (st', "swarm is unavailable for ConfigList")
        else inl st'
    end
  else
    inl (writeLog ("[INFO] Skipping configs because swarm is not available"
                   ++ nl) st).

(** [GenerateCaddyFile]: the three values returned, the generator
    afterwards, the number of suffixes created so far and what the probe
    logged. *)
Definition GenerateCaddyFile (g : CaddyfileGenerator) (a : dockerAnswers)
           (calls : nat)
  : (list Byte.byte * string * option string)
    * CaddyfileGenerator * nat * list probeLog :=
  let '(g1, logs0, probeLogs) := prepare g a in
  let st0 := mkGeneration [] logs0 [] calls in
  if ignoreSwarmError g1 && negb (swarmIsAvailable (swarm g1)) then
    (([], logsBuffer st0, Some "swarm is unavailable"), g1, calls, probeLogs)
  else
    let st1 := localSources g1 a st0 in
    match serviceSources g1 a st1 with
    | inr (st, err) =>
        (([], logsBuffer st, Some err), g1, suffixes st, probeLogs)
    | inl st2 =>
        match configSources g1 a st2 with
        | inr (st, err) =>
            (([], logsBuffer st, Some err), g1, suffixes st, probeLogs)
        | inl st3 =>
            let st4 :=
              writeCaddyfile
                (list_byte_of_string (writeDirectives (directives st3) 0))
                st3 in
            ((caddyfileBuffer st4, logsBuffer st4, None), g1, suffixes st4,
             probeLogs)
        end
    end.
End Generate.

End Generator.

Import Generator.

(** ** The loader *)

Module Loader.

(** [caddy.CaddyfileInput], the fields the loader sets. *)
Record CaddyfileInput : Type := mkInput {
  ServerTypeName : string;
  Contents : list Byte.byte
}.

(** [DockerLoader], the fields [update] reads and writes. *)
Record DockerLoader : Type := mkLoader {
  skipEvents : bool;
  input : CaddyfileInput;
  processCaddyfile : bool;
  previousCaddyfile : list Byte.byte;
  previousLogs : string
}.

(** [CreateDockerLoader]. *)
Definition CreateDockerLoader : DockerLoader :=
  mkLoader false (mkInput "http" []) false [] "".

(** What [update] prints with [log]. *)
Inductive logEntry : Type :=
| LogIgnoringSwarmError (err : string)
| LogGeneratorLogs (logs : string)
| LogProcessingCaddyfile
| LogCaddyFileError (err : string)
| LogWrongCaddyFile (caddyfile : list Byte.byte)
| LogNewCaddyFile (contents : list Byte.byte).

(** What [update] does to the outside, in order. *)
Inductive event : Type :=
| TimerReset (interval : Z)
| Log (entry : logEntry)
| ValidateAndExecuteDirectives (newInput : CaddyfileInput)
| ReloadCaddy.

(** What the outside answers during one call of [update]: the result of
    [generator.GenerateCaddyFile()], the function [ProcessCaddyfile] of
    the package, and the verdict of [caddy.ValidateAndExecuteDirectives],
    [None] for a nil error. *)
Record cycle : Type := mkCycle {
  pollingInterval : Z;
  GenerateCaddyFile : list Byte.byte * string * option string;
  ProcessCaddyfile : list Byte.byte -> list Byte.byte;
  validate : CaddyfileInput -> option string
}.

(** [bytes.Equal]. *)
Fixpoint bytesEqual (a b : list Byte.byte) : bool :=
  match a, b with
  | [], [] => true
  | x :: a', y :: b' => Byte.eqb x y && bytesEqual a' b'
  | _, _ => false
  end.

(** [[]byte("# Empty caddyfile")]. *)
Definition emptyCaddyfile : list Byte.byte :=
  list_byte_of_string "# Empty caddyfile".

(** [update]: the value returned, the loader afterwards and the trace. *)
Definition update (dockerLoader : DockerLoader) (w : cycle)
           (reloadIfChanged : bool) : bool * DockerLoader * list event :=
  let t0 := [TimerReset (pollingInterval w)] in
  let l0 := mkLoader false (input dockerLoader) (processCaddyfile dockerLoader)
                     (previousCaddyfile dockerLoader)
                     (previousLogs dockerLoader) in
  let '(caddyfile, logs, err) := GenerateCaddyFile w in
  match err with
  | Some e => (false, l0, t0 ++ [Log (LogIgnoringSwarmError e)])%list
  | None =>
      let caddyfileChanged :=
        negb (bytesEqual (previousCaddyfile l0) caddyfile) in
      let logsChanged := negb (String.eqb (previousLogs l0) logs) in
      let l1 := mkLoader false (input l0) (processCaddyfile l0) caddyfile logs in
      let t1 :=
        (t0 ++ (if logsChanged || caddyfileChanged
                then [Log (LogGeneratorLogs logs)] else []))%list in
      if negb caddyfileChanged then (false, l1, t1)
      else
        let t2 :=
          (t1 ++ (if processCaddyfile l1
                  then [Log LogProcessingCaddyfile] else []))%list in
        let caddyfile1 :=
          if processCaddyfile l1 then ProcessCaddyfile w caddyfile
          else caddyfile in
        let caddyfile2 :=
          if (List.length caddyfile1 =? 0)%nat then emptyCaddyfile
          else caddyfile1 in
        let newInput := mkInput "http" caddyfile2 in
        match validate w newInput with
        | Some e =>
            (true, l1,
             t2 ++ [ValidateAndExecuteDirectives newInput;
                    Log (LogCaddyFileError e);
                    Log (LogWrongCaddyFile caddyfile2)])%list
        | None =>
            (true,
             mkLoader false newInput (processCaddyfile l1) caddyfile logs,
             t2 ++ [ValidateAndExecuteDirectives newInput;
                    Log (LogNewCaddyFile (Contents newInput))]
                ++ (if reloadIfChanged then [ReloadCaddy] else []))%list
        end
  end.

(** *** Events *)

(** What arrives at the [select] of [monitorEvents]: an event of docker
    with its type and action, or a value of the error channel, [None]
    for nil. *)
Inductive message : Type :=
| DockerEvent (eventType action : string)
| DockerError (err : option string).

(** The test [update] of [monitorEvents]. *)
Definition triggersUpdate (eventType action : string) : bool :=
  (String.eqb eventType "container" && String.eqb action "create")
  || (String.eqb eventType "container" && String.eqb action "start")
  || (String.eqb eventType "container" && String.eqb action "stop")
  || (String.eqb eventType "container" && String.eqb action "die")
  || (String.eqb eventType "container" && String.eqb action "destroy")
  || (String.eqb eventType "service" && String.eqb action "create")
  || (String.eqb eventType "service" && String.eqb action "update")
  || (String.eqb eventType "service" && String.eqb action "remove")
  || (String.eqb eventType "config" && String.eqb action "create")
  || (String.eqb eventType "config" && String.eqb action "remove").

(** What [monitorEvents] does to the outside. *)
Inductive monitorEffect : Type :=
| DebounceTimerReset (interval : Z)
| CancelSubscription
| LogEventError (err : string).

(** [100 * time.Millisecond]. *)
Definition debounceInterval : Z := 100 * 1000000.

(** The loop of [monitorEvents] over the messages in the order they are
    received: the loader afterwards and the effects.  A nil error ends
    the loop; when the messages run out the loop waits.  The messages are
    those received while the timer does not expire: [update], which the
    timer runs on a goroutine of its own, writes [skipEvents] too, and
    [runLoader] below puts its calls between the messages. *)
Fixpoint monitorEvents (messages : list message) (dockerLoader : DockerLoader)
  : DockerLoader * list monitorEffect :=
  match messages with
  | [] => (dockerLoader, [])
  | DockerEvent eventType action :: rest =>
      if skipEvents dockerLoader then monitorEvents rest dockerLoader
      else if triggersUpdate eventType action then
        let (l', effects) :=
          monitorEvents rest
            (mkLoader true (input dockerLoader) (processCaddyfile dockerLoader)
                      (previousCaddyfile dockerLoader)
                      (previousLogs dockerLoader)) in
        (l', DebounceTimerReset debounceInterval :: effects)
      else monitorEvents rest dockerLoader
  | DockerError None :: _ => (dockerLoader, [CancelSubscription])
  | DockerError (Some err) :: rest =>
      let (l', effects) := monitorEvents rest dockerLoader in
      (l', LogEventError err :: effects)
  end.

(** *** The event loop and the timer together *)

(** What happens next to the loader that [Load] has started: the loop of
    [monitorEvents] receives a message, or the timer expires and its
    function calls [update(true)], answered by the collaborators as
    given.  A call of [update] is one step of the run, at the place where
    it clears [skipEvents], which is the one write it shares with the
    loop; what the loop receives while the call goes on comes after it
    in the run. *)
Inductive loaderStep : Type :=
| Receive (m : message)
| TimerFires (w : cycle).

(** What the two goroutines do to the outside. *)
Inductive loaderEffect : Type :=
| ByMonitorEvents (e : monitorEffect)
| ByUpdate (e : event).

(** The test [err == nil] on a value of the error channel. *)
Definition endsLoop (m : message) : bool :=
  match m with
  | DockerError None => true
  | _ => false
  end.

(** The loader under the steps in the order they happen: the loader
    afterwards and the effects.  [subscribed] tells whether the loop of
    [monitorEvents] still runs; after [break forloop] no message is
    received any more, and the timer goes on. *)
Fixpoint runLoader (steps : list loaderStep) (subscribed : bool)
         (dockerLoader : DockerLoader) : DockerLoader * list loaderEffect :=
  match steps with
  | [] => (dockerLoader, [])
  | TimerFires w :: rest =>
      let '(_, l1, t) := update dockerLoader w true in
      let (l2, effects) := runLoader rest subscribed l1 in
      (l2, (map ByUpdate t ++ effects)%list)
  | Receive m :: rest =>
      if subscribed then
        let (l1, e1) := monitorEvents [m] dockerLoader in
        let (l2, effects) := runLoader rest (negb (endsLoop m)) l1 in
        (l2, (map ByMonitorEvents e1 ++ effects)%list)
      else runLoader rest false dockerLoader
  end.

(** *** Load *)

(** The loader with its flag [initialized] and the package variable
    [pollingInterval]. *)
Record loaderProcess : Type := mkProcess {
  initialized : bool;
  loader : DockerLoader;
  pollingIntervalVar : Z
}.

(** What the outside answers during one call of [Load]: the errors of
    [client.NewEnvClient] and of [dockerClient.Ping], [None] for nil; the
    two variables of the environment; the flag; [isTrue.MatchString] and
    [time.ParseDuration]; and what a call of [update] would be
    answered. *)
Record loadAnswers : Type := mkLoadAnswers {
  newEnvClient : option string;
  ping : option string;
  processCaddyfileEnv : string;
  processCaddyfileFlag : bool;
  isTrue : string -> bool;
  pollingIntervalEnv : string;
  parseDuration : string -> Z + string;
  firstGenerate : list Byte.byte * string * option string;
  firstProcess : list Byte.byte -> list Byte.byte;
  firstValidate : CaddyfileInput -> option string
}.

(** What [Load] does to the outside. *)
Inductive loadEffect : Type :=
| LogConnectionFailed (err : string)
| LogPingFailed (err : string)
| LogProcessCaddyfile (value : bool)
| LogPollingIntervalFailed (err : string)
| LogPollingInterval (interval : Z)
| StartTimer (interval : Z)
| DuringUpdate (e : event)
| StartMonitorEvents.

(** [Load]: the input returned, [None] for nil, the loader afterwards and
    the effects.  The docker client and the generator that [Load] creates
    are the ones whose answers [update] is given. *)
Definition Load (p : loaderProcess) (serverType : string) (a : loadAnswers)
  : option CaddyfileInput * loaderProcess * list loadEffect :=
  if negb (String.eqb serverType "http") then (None, p, [])
  else if negb (initialized p) then
    let p1 := mkProcess true (loader p) (pollingIntervalVar p) in
    match newEnvClient a with
    | Some err => (None, p1, [LogConnectionFailed err])
    | None =>
        match ping a with
        | Some err => (None, p1, [LogPingFailed err])
        | None =>
            let process :=
              if negb (String.eqb (processCaddyfileEnv a) "")
              then isTrue a (processCaddyfileEnv a)
              else processCaddyfileFlag a in
            let (interval, intervalLog) :=
              if negb (String.eqb (pollingIntervalEnv a) "") then
                match parseDuration a (pollingIntervalEnv a) with
                | inr err =>
                    (pollingIntervalVar p, [LogPollingIntervalFailed err])
                | inl d => (d, [])
                end
              else (pollingIntervalVar p, []) in
            let l1 :=
              mkLoader (skipEvents (loader p)) (input (loader p)) process
                       (previousCaddyfile (loader p))
                       (previousLogs (loader p)) in
            let '(_, l2, effects) :=
              update l1
                     (mkCycle interval (firstGenerate a) (firstProcess a)
                              (firstValidate a))
                     false in
            (Some (input l2), mkProcess true l2 interval,
             [LogProcessCaddyfile process] ++ intervalLog
               ++ [LogPollingInterval interval; StartTimer interval]
               ++ map DuringUpdate effects ++ [StartMonitorEvents])%list
        end
    end
  else (Some (input (loader p)), p, []).

End Loader.

Import Loader.

(** ** Vocabulary of the properties *)

(** *** Directive trees as Go builds them *)

(** The keys of a Go map are pairwise distinct, at every level of a tree. *)
Inductive uniqueKeys : directiveData -> Prop :=
| uniqueKeys_node (n : string) (a : list string) (c : directiveMap) :
    NoDup (getKeys c) ->
    Forall (fun e => uniqueKeys (snd e)) c ->
    uniqueKeys (Directive n a c).

Definition uniqueKeysMap (m : directiveMap) : Prop :=
  NoDup (getKeys m) /\ Forall (fun e => uniqueKeys (snd e)) m.

(** Two trees with the same bindings at every level: the same name and
    arguments, and children maps that bind the same keys to trees that are
    again the same in this sense, whatever order the two maps are iterated
    in. *)
Inductive sameTree : directiveData -> directiveData -> Prop :=
| sameTree_node (n : string) (a : list string) (c1 c1' c2 : directiveMap) :
    Permutation c1 c1' ->
    Forall2 (fun e1 e2 => fst e1 = fst e2 /\ sameTree (snd e1) (snd e2))
            c1' c2 ->
    sameTree (Directive n a c1) (Directive n a c2).

Definition sameEntry (e1 e2 : string * directiveData) : Prop :=
  fst e1 = fst e2 /\ sameTree (snd e1) (snd e2).

Definition sameMap (m1 m2 : directiveMap) : Prop :=
  exists m1', Permutation m1 m1' /\ Forall2 sameEntry m1' m2.

(** A child with what it renders to. *)
Definition render (level : nat) (kc : string * directiveData)
  : string * string :=
  (fst kc, writeDirective (snd kc) level).

(** *** Cycles of the loader *)

(** The three parts of what [update] gives. *)
Definition returned (r : bool * DockerLoader * list event) : bool :=
  fst (fst r).
Definition loaderAfter (r : bool * DockerLoader * list event) : DockerLoader :=
  snd (fst r).
Definition trace (r : bool * DockerLoader * list event) : list event :=
  snd r.

(** The events that reach caddy: a validation and a reload. *)
Definition reachesCaddy (e : event) : bool :=
  match e with
  | ValidateAndExecuteDirectives _ => true
  | ReloadCaddy => true
  | TimerReset _ => false
  | Log _ => false
  end.

(** A trace in which caddy is neither asked to validate nor to reload. *)
Definition quiet (t : list event) : Prop :=
  forallb (fun e => negb (reachesCaddy e)) t = true.

(** The overall output of a cycle: the generated Caddyfile, processed when
    the loader is set to process it; the value of [caddyfile] when
    [update] tests its length. *)
Definition overallOutput (l : DockerLoader) (w : cycle)
           (caddyfile : list Byte.byte) : list Byte.byte :=
  if processCaddyfile l then ProcessCaddyfile w caddyfile else caddyfile.

(** The placeholder document. *)
Definition emptyCaddyfileInput : CaddyfileInput := mkInput "http" emptyCaddyfile.

(** *** Concrete cycles *)

Definition someCaddyfile : list Byte.byte :=
  list_byte_of_string "example.com".

(** A loader that has seen, and applied, [someCaddyfile]. *)
Definition loaderEx : DockerLoader :=
  mkLoader false (mkInput "http" someCaddyfile) false someCaddyfile "".

(** A cycle that generates [someCaddyfile] again; caddy would accept. *)
Definition sameCycle : cycle :=
  mkCycle 30000000000 (someCaddyfile, "", None) (fun c => c) (fun _ => None).

(** A cycle that generates another Caddyfile, which caddy rejects. *)
Definition otherCaddyfile : list Byte.byte :=
  list_byte_of_string "example.com {".
Definition rejectedCycle : cycle :=
  mkCycle 30000000000 (otherCaddyfile, "", None) (fun c => c)
          (fun _ => Some "unexpected end of file").

(** A cycle that generates nothing. *)
Definition emptyCycle : cycle :=
  mkCycle 30000000000 ([], "", None) (fun c => c) (fun _ => None).

(** *** Splitting a label value *)

(** The maximal runs of non-whitespace bytes of a text, in order. *)
Fixpoint fields (text : string) : list string :=
  match text with
  | EmptyString => []
  | String c rest =>
      if isSpace c then fields rest
      else
        match rest with
        | EmptyString => [String c ""]
        | String c' _ =>
            if isSpace c' then String c "" :: fields rest
            else
              match fields rest with
              | f :: fs => String c f :: fs
              | [] => [String c ""]
              end
        end
  end.

Definition startsWithSpace (text : string) : bool :=
  match text with
  | EmptyString => false
  | String c _ => isSpace c
  end.

Fixpoint endsWithSpace (text : string) : bool :=
  match text with
  | EmptyString => false
  | String c EmptyString => isSpace c
  | String _ rest => endsWithSpace rest
  end.

(** The empty argument [regSplit] gives before leading whitespace, and
    the one it gives after trailing whitespace. *)
Definition leadingArg (text : string) : list string :=
  if startsWithSpace text then [""] else [].
Definition trailingArg (text : string) : list string :=
  if endsWithSpace text then [""] else [].

(** [regSplit] read as one pass over the text: [cur] is the field being
    read, [inSpaces] tells whether the last byte read was whitespace. *)
Fixpoint splitRuns (s : string) (cur : string) (inSpaces : bool)
  : list string :=
  match s with
  | EmptyString => if inSpaces then [cur; ""] else [cur]
  | String c s' =>
      if isSpace c then splitRuns s' cur true
      else if inSpaces then cur :: splitRuns s' (String c "") false
      else splitRuns s' (cur ++ String c "") false
  end.

(** The first field of a list of fields, extended to the left. *)
Definition glue (cur : string) (l : list string) : list string :=
  match l with
  | f :: fs => (cur ++ f) :: fs
  | [] => [cur]
  end.

(** *** A template engine to run examples with *)

(** It rejects a text that opens an action at its start and accepts every
    other text, which it expands to itself. *)
Definition toyParse (content : string) : string + string :=
  if String.prefix "{{" content then inr "template: unclosed action"
  else inl content.
Definition toyExecute (t : string) (d : unit) : string := t.

(** *** Concrete trees *)

Definition tlsInternal : directiveData := Directive "tls" ["internal"] [].
Definition tlsOff : directiveData := Directive "tls" ["off"] [].
Definition tlsSelfSigned : directiveData := Directive "tls" ["self_signed"] [].
Definition gzip : directiveData := Directive "gzip" [] [].

(** Three services that declare the same site, each with another [tls]
    line, and the entropy the suffixes are made from: [crypto/rand]
    answers every time, with a value of its own each time. *)
Definition siteInternal : directiveData :=
  Directive "site.com" [] [("tls", tlsInternal)].
Definition siteOff : directiveData :=
  Directive "site.com" [] [("tls", tlsOff)].
Definition siteSelfSigned : directiveData :=
  Directive "site.com" [] [("tls", tlsSelfSigned)].
Definition entropyEx (i : nat) : draw :=
  CryptoInt (4611686018427387904 + Z.of_nat i).

(** Two services that each declare two [tls] lines under suffixed
    labels, all four different. *)
Definition tlsMax : directiveData := Directive "tls" ["max_certs"; "10"] [].
Definition siteTwoA : directiveData :=
  Directive "site.com" [] [("tls_1", tlsInternal); ("tls_2", tlsOff)].
Definition siteTwoB : directiveData :=
  Directive "site.com" [] [("tls_1", tlsSelfSigned); ("tls_2", tlsMax)].

(** The three bytes EF BF BD, U+FFFD in UTF-8. *)
Definition replacementChar : string :=
  String "239"%char (String "191"%char (String "189"%char "")).

(** Two services behind one route. *)
Definition routeA : directiveData :=
  Directive "site.com" []
    [("proxy", Directive "proxy" ["/"; "10.0.0.1:80"] []); ("tls", tlsInternal)].
Definition routeB : directiveData :=
  Directive "site.com" []
    [("tls", tlsOff); ("proxy", Directive "proxy" ["/"; "10.0.0.2:80"] [])].

(** A node without a name and without arguments, with one child. *)
Definition namelessNode : directiveData := Directive "" [] [("gzip", gzip)].

(** One site in two iteration orders, at both levels. *)
Definition siteOrder1 : directiveMap :=
  [("b.com", Directive "b.com" [] [("tls", tlsOff); ("gzip", gzip)]);
   ("a.com", Directive "a.com" [] [])].
Definition siteOrder2 : directiveMap :=
  [("a.com", Directive "a.com" [] []);
   ("b.com", Directive "b.com" [] [("gzip", gzip); ("tls", tlsOff)])].

(** *** Vocabulary of the further properties *)

(** No byte of the string is whitespace. *)
Fixpoint noSpace (a : string) : bool :=
  match a with
  | EmptyString => true
  | String c a' => negb (isSpace c) && noSpace a'
  end.

(** An argument as a Caddyfile line can hold it: not empty and without
    whitespace. *)
Definition cleanArg (a : string) : bool := nonEmpty a && noSpace a.

(** The words of the line [writeDirective] writes for a directive. *)
Definition lineWords (d : directiveData) : list string :=
  if nonEmpty (name d) then name d :: args d else args d.

(** A directive of [originalMap] for which [parseDirectives] has to ask
    for the proxy targets: it has an [address] with arguments and no
    [proxy] with arguments. *)
Definition needsTargets (d : directiveData) : bool :=
  match mapGet "address" (children d) with
  | None => false
  | Some address =>
      (0 <? List.length (args address))%nat
      && match mapGet "proxy" (children d) with
         | None => true
         | Some proxy => (List.length (args proxy) =? 0)%nat
         end
  end.

(** The name [getOrCreateDirective] gives the directive it creates at the
    end of a path that starts at index [i]. *)
Definition createdName (segments : list string) (i : nat) (skip : bool)
  : string :=
  if negb skip || (0 <? i + (List.length segments - 1))%nat
  then removeSuffix (last segments "") else "".

(** The five labels [parseDirectives] uses up. *)
Definition reservedKeys : list string :=
  ["address"; "sourcepath"; "targetport"; "targetpath"; "targetprotocol"].

(** The loader after a sequence of cycles, each with the flag [update] is
    called with. *)
Definition afterCycles (l : DockerLoader) (cycles : list (cycle * bool))
  : DockerLoader :=
  fold_left (fun l0 c => loaderAfter (update l0 (fst c) (snd c))) cycles l.

(** The number of times the debounce timer is set. *)
Definition countResets (effects : list monitorEffect) : nat :=
  List.length
    (filter (fun e => match e with DebounceTimerReset _ => true | _ => false end)
            effects).

(** The number of times [monitorEvents] sets the debounce timer in a run
    of the loader, and the number of calls of [update] by the timer. *)
Definition debounceResets (effects : list loaderEffect) : nat :=
  List.length
    (filter (fun e => match e with
                      | ByMonitorEvents (DebounceTimerReset _) => true
                      | _ => false
                      end)
            effects).

Definition updateCalls (steps : list loaderStep) : nat :=
  List.length
    (filter (fun s => match s with TimerFires _ => true | _ => false end)
            steps).

(** A step that is no cause for an update and does not end the loop of
    [monitorEvents]: an event of another kind, an error that is not nil,
    a call of [update]. *)
Definition passesBy (s : loaderStep) : bool :=
  match s with
  | Receive (DockerEvent eventType action) =>
      negb (triggersUpdate eventType action)
  | Receive (DockerError (Some _)) => true
  | Receive (DockerError None) => false
  | TimerFires _ => true
  end.

(** *** Loads *)

(** The parts of what [Load] gives. *)
Definition loaded (r : option CaddyfileInput * loaderProcess * list loadEffect)
  : option CaddyfileInput := fst (fst r).
Definition processAfter
           (r : option CaddyfileInput * loaderProcess * list loadEffect)
  : loaderProcess := snd (fst r).
Definition loadEffects
           (r : option CaddyfileInput * loaderProcess * list loadEffect)
  : list loadEffect := snd r.

(** The process at its start, and docker out of reach. *)
Definition newProcess : loaderProcess :=
  mkProcess false CreateDockerLoader 30000000000.
Definition dockerDown : loadAnswers :=
  mkLoadAnswers (Some "cannot connect") None "" false (fun _ => false) ""
                (fun _ => inr "invalid duration") ([], "", None) (fun c => c)
                (fun _ => None).

(** *** Generations *)

(** The parts of what [GenerateCaddyFile] gives. *)
Definition generated
           (r : (list Byte.byte * string * option string)
                * CaddyfileGenerator * nat * list probeLog)
  : list Byte.byte * string * option string :=
  fst (fst (fst r)).
Definition generatorAfter
           (r : (list Byte.byte * string * option string)
                * CaddyfileGenerator * nat * list probeLog)
  : CaddyfileGenerator :=
  snd (fst (fst r)).
Definition suffixesAfter
           (r : (list Byte.byte * string * option string)
                * CaddyfileGenerator * nat * list probeLog) : nat :=
  snd (fst r).

(** Two states of a generation that differ in the log at most. *)
Definition sameOutput (st st' : generation) : Prop :=
  caddyfileBuffer st = caddyfileBuffer st'
  /\ directives st = directives st'
  /\ suffixes st = suffixes st'.

Definition sameOutcome (r r' : generation + (generation * string)) : Prop :=
  match r, r' with
  | inl st, inl st' => sameOutput st st'
  | inr (st, err), inr (st', err') => sameOutput st st' /\ err = err'
  | _, _ => False
  end.

(** What [GenerateCaddyFile] returns besides the log, and the number of
    suffixes, from the state [st1] reached after the containers. *)
Definition finishGeneration (entropy : nat -> draw) (g : CaddyfileGenerator)
           (a : dockerAnswers) (st1 : generation)
  : (list Byte.byte * option string) * nat :=
  match serviceSources entropy g a st1 with
  | inr (st, err) => (([], Some err), suffixes st)
  | inl st2 =>
      match configSources g a st2 with
      | inr (st, err) => (([], Some err), suffixes st)
      | inl st3 =>
          ((caddyfileBuffer
              (writeCaddyfile
                 (list_byte_of_string (writeDirectives (directives st3) 0))
                 st3), None),
           suffixes st3)
      end
  end.

(** The state a probe leaves for an answer of docker. *)
Definition answeredAvailability (info : infoResult) : bool :=
  match info with
  | InfoOk active => active
  | InfoErr _ => false
  end.

(** The answers [a] with other containers, with other services and
    configs, with other networks, at another time. *)
Definition withContainers (a : dockerAnswers)
           (c : list (directiveMap + string) + string) : dockerAnswers :=
  mkAnswers (timeNow a) (networksAnswer a) (infoAnswer a) (fileAnswer a) c
            (servicesAnswer a) (configsAnswer a).
Definition withSwarmSources (a : dockerAnswers)
           (s : list (directiveMap + string) + string)
           (c : list (bool * (list Byte.byte + string)) + string)
  : dockerAnswers :=
  mkAnswers (timeNow a) (networksAnswer a) (infoAnswer a) (fileAnswer a)
            (containersAnswer a) s c.
Definition withNetworks (a : dockerAnswers) (n : networkAnswers) (t : Z)
  : dockerAnswers :=
  mkAnswers t n (infoAnswer a) (fileAnswer a) (containersAnswer a)
            (servicesAnswer a) (configsAnswer a).
Definition withOtherSources (a : dockerAnswers)
           (f : list Byte.byte + string)
           (k : list (directiveMap + string) + string)
           (s : list (directiveMap + string) + string)
           (c : list (bool * (list Byte.byte + string)) + string)
  : dockerAnswers :=
  mkAnswers (timeNow a) (networksAnswer a) (infoAnswer a) f k s c.

(** *** Concrete answers of docker *)

(** Caddy runs in container [c1], attached to the networks [n1], an
    ingress network, and [n2]. *)
Definition networksEx : networkAnswers :=
  mkNetworkAnswers
    (inl "c1")
    (fun id => if String.eqb id "c1" then inl ["n1"; "n2"]
               else inr "no such container")
    (fun id => if String.eqb id "n1" then inl true
               else if String.eqb id "n2" then inl false
                    else inr "no such network").

(** A generator that passes over nothing when swarm fails, and one that
    goes on without swarm. *)
Definition strictGenerator : CaddyfileGenerator :=
  mkGenerator "" "caddy" true false true None newSwarmCache.
Definition lenientGenerator : CaddyfileGenerator :=
  mkGenerator "" "caddy" false false true None newSwarmCache.

(** Docker without swarm, with two containers, the second of which cannot
    be read. *)
Definition answersEx : dockerAnswers :=
  mkAnswers 1000 networksEx (InfoOk false) (inr "no file")
            (inl [inl [("site.com", siteInternal)]; inr "container gone"])
            (inl [inl [("site.com", siteOff)]]) (inl []).

(** Two containers that serve the same site under the same path, and
    docker listing them in one order and, a second later, in the
    other. *)
Definition backendA : directiveMap :=
  [("site.com",
    Directive "site.com" []
              [("proxy", Directive "proxy" ["/"; "10.0.0.1:80"] [])])].
Definition backendB : directiveMap :=
  [("site.com",
    Directive "site.com" []
              [("proxy", Directive "proxy" ["/"; "10.0.0.2:80"] [])])].
Definition answersAB : dockerAnswers :=
  mkAnswers 1000 networksEx (InfoOk false) (inr "no file")
            (inl [inl backendA; inl backendB]) (inl []) (inl []).
Definition answersBA : dockerAnswers :=
  mkAnswers 1000001000 networksEx (InfoOk false) (inr "no file")
            (inl [inl backendB; inl backendA]) (inl []) (inl []).

(** The cycle of [update] in which the generator gives [r]; the Caddyfile
    is not processed and caddy would accept it. *)
Definition acceptedCycle
           (r : (list Byte.byte * string * option string)
                * CaddyfileGenerator * nat * list probeLog) : cycle :=
  mkCycle 30000000000 (generated r) (fun c => c) (fun _ => None).

(** *** Maps up to the order of iteration *)

(** Two lookups that both fail, or both succeed with related values. *)
Definition optionRel {A : Type} (R : A -> A -> Prop) (x y : option A) : Prop :=
  match x, y with
  | Some a, Some b => R a b
  | None, None => True
  | _, _ => False
  end.

(** Two maps that bind the same keys to the same trees, key by key. *)
Definition sameBindings (m1 m2 : directiveMap) : Prop :=
  forall k, optionRel sameTree (mapGet k m1) (mapGet k m2).

(** Whether the loop of [mergeDirectives] makes up a key for the child
    [b] of B, given A's binding of the child's key; and what A binds the
    key to afterwards when it does not. *)
Definition needsSuffix (a : option directiveData) (b : directiveData) : bool :=
  match a with
  | Some a0 => negb (sameProxy a0 b) && negb (directivesAreSimilar a0 b)
  | None => false
  end.

Definition mergedChild (a : option directiveData) (b : directiveData)
  : directiveData :=
  match a with
  | Some a0 => if sameProxy a0 b then addArgs a0 (tl (args b)) else a0
  | None => b
  end.

(** The directives of a container or service as docker gives them twice:
    maps with unique keys at every level that hold the same bindings,
    iterated in whatever order each time; or no directives both times. *)
Definition sameSource (x y : directiveMap + string) : Prop :=
  match x, y with
  | inl m1, inl m2 => uniqueKeysMap m1 /\ sameMap m1 m2
  | inr _, inr _ => True
  | _, _ => False
  end.

Definition sameSources (x y : list (directiveMap + string) + string) : Prop :=
  match x, y with
  | inl l1, inl l2 => Forall2 sameSource l1 l2
  | inr _, inr _ => True
  | _, _ => False
  end.

(** The answers of docker at two generations between which nothing
    changed: the same containers and services in the order docker lists
    them, each with the same directives; the same default Caddyfile,
    configs and swarm state.  The time, the networks and the order in
    which the maps are iterated are free. *)
Definition sameAnswers (a a' : dockerAnswers) : Prop :=
  infoAnswer a' = infoAnswer a
  /\ fileAnswer a' = fileAnswer a
  /\ configsAnswer a' = configsAnswer a
  /\ sameSources (containersAnswer a) (containersAnswer a')
  /\ sameSources (servicesAnswer a) (servicesAnswer a').

(** Two states of a generation with the same Caddyfile so far, the same
    number of suffixes and the same directives up to the order of
    iteration. *)
Definition sameDirectives (st st' : generation) : Prop :=
  caddyfileBuffer st = caddyfileBuffer st'
  /\ suffixes st = suffixes st'
  /\ uniqueKeysMap (directives st)
  /\ NoDup (getKeys (directives st'))
  /\ sameBindings (directives st) (directives st').

(** Docker with one container, whose directives are iterated in one
    order at one generation and in another order at the next. *)
Definition answersOrder1 : dockerAnswers :=
  mkAnswers 1000 networksEx (InfoOk false) (inr "no file")
            (inl [inl siteOrder1; inr "container gone"])
            (inl []) (inl []).
Definition answersOrder2 : dockerAnswers :=
  mkAnswers 31000000000 networksEx (InfoOk false) (inr "no file")
            (inl [inl siteOrder2; inr "container gone"])
            (inl []) (inl []).

(** ** Facts about the string order and sorting *)

Section StringOrderFacts.

Lemma string_le_refl (a : string) : string_le a a.
Proof.
  destruct (String.leb_total a a); assumption.
Qed.

Lemma string_le_trans (a b c : string) :
  string_le a b -> string_le b c -> string_le a c.
Proof.
  unfold string_le, String.leb.
  revert b c.
  induction a as [|x a IH]; intros [|y b] [|z c]; simpl;
    try congruence.
  unfold Ascii.compare.
  destruct (N.compare_spec (N_of_ascii x) (N_of_ascii y)) as [Exy|Lxy|Gxy];
    destruct (N.compare_spec (N_of_ascii y) (N_of_ascii z)) as [Eyz|Lyz|Gyz];
    destruct (N.compare_spec (N_of_ascii x) (N_of_ascii z)) as [Exz|Lxz|Gxz];
    try congruence; try lia; intros; eauto.
Qed.

Lemma string_le_antisym (a b : string) :
  string_le a b -> string_le b a -> a = b.
Proof. apply String.leb_antisym. Qed.

Lemma sort_StronglySorted (l : list string) :
  StronglySorted string_le (StringSort.sort l).
Proof.
  apply StringSort.StronglySorted_sort.
  intros a b c Hab Hbc.
  exact (string_le_trans a b c Hab Hbc).
Qed.

Lemma sort_Permutation (l : list string) :
  Permutation l (StringSort.sort l).
Proof. apply StringSort.Permuted_sort. Qed.

(** A list has one sorted arrangement. *)
Lemma StronglySorted_Permutation_eq (l1 : list string) :
  forall l2,
    StronglySorted string_le l1 -> StronglySorted string_le l2 ->
    Permutation l1 l2 -> l1 = l2.
Proof.
  induction l1 as [|a l1 IH]; intros l2 S1 S2 P.
  - apply Permutation_nil in P. now subst.
  - destruct l2 as [|b l2].
    + apply Permutation_sym, Permutation_nil in P. discriminate.
    + inversion S1 as [|? ? S1' F1]; subst.
      inversion S2 as [|? ? S2' F2]; subst.
      assert (Hab : a = b).
      { assert (Ia : In a (b :: l2))
          by (eapply Permutation_in; [exact P | now left]).
        assert (Ib : In b (a :: l1))
          by (eapply Permutation_in;
              [apply Permutation_sym; exact P | now left]).
        destruct Ia as [->|Ia]; [reflexivity|].
        destruct Ib as [->|Ib]; [reflexivity|].
        rewrite Forall_forall in F1, F2.
        apply string_le_antisym; auto. }
      subst b. f_equal.
      apply IH; auto.
      eapply Permutation_cons_inv; exact P.
Qed.

(** Sorting forgets the order its input came in. *)
Lemma sort_Permutation_eq (l1 l2 : list string) :
  Permutation l1 l2 -> StringSort.sort l1 = StringSort.sort l2.
Proof.
  intros P.
  apply StronglySorted_Permutation_eq; auto using sort_StronglySorted.
  eapply Permutation_trans; [apply Permutation_sym, sort_Permutation|].
  eapply Permutation_trans; [exact P | apply sort_Permutation].
Qed.

End StringOrderFacts.

(** ** The serializer *)

Section StringFacts.

Lemma append_assoc (a b c : string) : (a ++ b) ++ c = a ++ (b ++ c).
Proof. induction a as [|x a IH]; simpl; [reflexivity | now rewrite IH]. Qed.

Lemma append_nil_r (a : string) : a ++ "" = a.
Proof. induction a as [|x a IH]; simpl; [reflexivity | now rewrite IH]. Qed.

Lemma length_append (a b : string) :
  String.length (a ++ b) = String.length a + String.length b.
Proof. induction a as [|x a IH]; simpl; [reflexivity | now rewrite IH]. Qed.

End StringFacts.

Section MapFacts.
Context {V : Type}.
Implicit Types m : list (string * V).

Lemma mapGet_In k v m : mapGet k m = Some v -> In (k, v) m.
Proof.
  induction m as [|[k' v'] m IH]; simpl; [discriminate|].
  destruct (String.eqb_spec k k') as [->|Hne].
  - intros [= ->]. now left.
  - intros H. right. auto.
Qed.

Lemma mapGet_None k m : mapGet k m = None <-> ~ In k (getKeys m).
Proof.
  induction m as [|[k' v'] m IH]; simpl.
  - tauto.
  - destruct (String.eqb_spec k k') as [->|Hne].
    + split; [discriminate | intros H; exfalso; apply H; now left].
    + rewrite IH. split; [intros H [E|I]; [congruence | tauto] | tauto].
Qed.

Lemma In_mapGet k v m : NoDup (getKeys m) -> In (k, v) m -> mapGet k m = Some v.
Proof.
  induction m as [|[k' v'] m IH]; simpl; [tauto|].
  intros ND [E|I].
  - injection E as -> ->. now rewrite String.eqb_refl.
  - inversion ND as [|? ? Hnot ND']; subst.
    destruct (String.eqb_spec k k') as [->|Hne]; [|auto].
    exfalso. apply Hnot. change (In (fst (k', v)) (map fst m)).
    now apply in_map.
Qed.

(** A lookup does not see the iteration order. *)
Lemma mapGet_Permutation k m1 m2 :
  NoDup (getKeys m1) -> Permutation m1 m2 -> mapGet k m1 = mapGet k m2.
Proof.
  intros ND P.
  assert (ND2 : NoDup (getKeys m2)).
  { eapply Permutation_NoDup; [|exact ND]. now apply Permutation_map. }
  destruct (mapGet k m1) as [v|] eqn:G1.
  - symmetry. apply In_mapGet; [exact ND2|].
    eapply Permutation_in; [exact P|]. now apply mapGet_In.
  - destruct (mapGet k m2) as [v|] eqn:G2; [|reflexivity].
    apply mapGet_In in G2.
    apply Permutation_sym in P.
    apply (Permutation_in _ P) in G2.
    apply (In_mapGet _ _ _ ND) in G2. congruence.
Qed.

End MapFacts.

Section SerializerFacts.

Lemma getKeys_render level (m : directiveMap) :
  getKeys (map (render level) m) = getKeys m.
Proof.
  unfold getKeys. rewrite map_map. reflexivity.
Qed.

Lemma mapGet_render level k (m : directiveMap) :
  mapGet k (map (render level) m)
  = option_map (fun d => writeDirective d level) (mapGet k m).
Proof.
  induction m as [|[k' d] m IH]; simpl; [reflexivity|].
  destruct (String.eqb k k'); [reflexivity | exact IH].
Qed.

(** [writeDirectives] as the source writes it: for each name of
    [getSortedKeys(directives)], in that order, the directive
    [directives[name]] is written at [level]. *)
Lemma writeDirectives_eq (directives : directiveMap) (level : nat) :
  writeDirectives directives level
  = String.concat ""
      (map (fun name =>
              match mapGet name directives with
              | Some subdirective => writeDirective subdirective level
              | None => ""
              end)
           (getSortedKeys directives)).
Proof.
  unfold writeDirectives, emitSorted, getSortedKeys.
  fold (render level).
  rewrite getKeys_render.
  f_equal. apply map_ext. intros k.
  rewrite mapGet_render.
  destruct (mapGet k directives); reflexivity.
Qed.

(** [writeDirective] as the source writes it, with its call of
    [writeDirectives] on the children one level deeper. *)
Lemma writeDirective_eq (directive : directiveData) (level : nat) :
  writeDirective directive level
  = Repeat " " (level * 2)
    ++ (if nonEmpty (name directive) then name directive else "")
    ++ (if nonEmpty (name directive) && (0 <? List.length (args directive))%nat
        then " " else "")
    ++ (if (0 <? List.length (args directive))%nat
        then writeArgs 0 (args directive) else "")
    ++ (if (0 <? List.length (children directive))%nat then
          " {" ++ nl
          ++ writeDirectives (children directive) (level + 1)
          ++ (Repeat " " (level * 2) ++ "}")
        else "")
    ++ nl.
Proof. destruct directive; reflexivity. Qed.

(** The emitted text does not depend on the order of the rendered map. *)
Lemma emitSorted_Permutation (r1 r2 : list (string * string)) :
  NoDup (getKeys r1) -> Permutation r1 r2 -> emitSorted r1 = emitSorted r2.
Proof.
  intros ND P. unfold emitSorted, getSortedKeys.
  rewrite (sort_Permutation_eq (getKeys r1) (getKeys r2))
    by (now apply Permutation_map).
  f_equal. apply map_ext. intros k.
  now rewrite (mapGet_Permutation k r1 r2 ND P).
Qed.

End SerializerFacts.


Section TreeFacts.

(** Induction over a tree with the property available on every child. *)
Lemma directiveData_children_ind (P : directiveData -> Prop) :
  (forall n a c, Forall (fun e => P (snd e)) c -> P (Directive n a c)) ->
  forall d, P d.
Proof.
  intros H. fix IH 1. intros [n a c]. apply H.
  induction c as [|[k x] c IHc]; constructor; [apply IH | exact IHc].
Qed.

Lemma Forall2_sameEntry_length (m1 m2 : directiveMap) :
  Forall2 sameEntry m1 m2 -> List.length m1 = List.length m2.
Proof. induction 1; simpl; congruence. Qed.

(** Maps with the same bindings whose children render alike are written
    alike. *)
Lemma writeDirectives_sameMap (m1 m2 : directiveMap) (level : nat) :
  NoDup (getKeys m1) ->
  Forall (fun e => forall d2, sameTree (snd e) d2 ->
                    writeDirective (snd e) level = writeDirective d2 level)
         m1 ->
  sameMap m1 m2 ->
  writeDirectives m1 level = writeDirectives m2 level.
Proof.
  intros ND IH (m1' & P & F).
  unfold writeDirectives. fold (render level).
  assert (E : map (render level) m1' = map (render level) m2).
  { assert (IH' : Forall (fun e => forall d2, sameTree (snd e) d2 ->
                    writeDirective (snd e) level = writeDirective d2 level)
                    m1').
    { rewrite Forall_forall in *. intros e He. apply IH.
      eapply Permutation_in; [apply Permutation_sym; exact P | exact He]. }
    clear P ND IH.
    induction F as [|[k1 x] [k2 y] m1' m2 [Hk Hs] F IHF]; [reflexivity|].
    inversion IH' as [|? ? Hx IHrest]; subst.
    simpl in Hk, Hs, Hx. subst k2. simpl. unfold render at 1 3. simpl.
    rewrite (Hx y Hs). f_equal. now apply IHF. }
  rewrite <- E.
  apply emitSorted_Permutation.
  - now rewrite getKeys_render.
  - now apply Permutation_map.
Qed.

(** Trees with the same bindings at every level are written alike. *)
Lemma writeDirective_sameTree :
  forall d1 d2 level,
    uniqueKeys d1 -> sameTree d1 d2 ->
    writeDirective d1 level = writeDirective d2 level.
Proof.
  induction d1 as [n a c1 IH] using directiveData_children_ind.
  intros d2 level U S.
  inversion S as [n' a' c1'' c1' c2 P F]; subst.
  inversion U as [? ? ? ND FU]; subst.
  rewrite !writeDirective_eq. simpl.
  assert (L : List.length c1 = List.length c2).
  { rewrite (Permutation_length P). now apply Forall2_sameEntry_length. }
  rewrite <- L.
  assert (W : writeDirectives c1 (level + 1) = writeDirectives c2 (level + 1)).
  { apply writeDirectives_sameMap; [exact ND | | exists c1'; now split].
    rewrite Forall_forall in *. intros e He d2 Hs.
    apply IH; auto. }
  now rewrite W.
Qed.

End TreeFacts.

(** ** The serializer: order of the output, nameless nodes *)

Lemma sameTree_refl (d : directiveData) : sameTree d d.
Proof.
  induction d as [n a c IH] using directiveData_children_ind.
  apply sameTree_node with (c1' := c); [apply Permutation_refl|].
  induction c as [|e c IHc]; constructor.
  - inversion IH; subst. split; [reflexivity | assumption].
  - inversion IH; subst. now apply IHc.
Qed.

(** C3. At every level of a tree the children are written in the sorted
    order of their keys: the keys [writeDirectives] iterates over are the
    keys of the map, sorted bytewise, and the output is the concatenation
    of the children taken in that order.  Hence two maps that hold the same
    bindings at every level, in whatever iteration or insertion order, are
    serialized to the same bytes. *)
Theorem C3_serialization_in_sorted_key_order
        (m1 m2 : directiveMap) (level : nat) :
  uniqueKeysMap m1 ->
  sameMap m1 m2 ->
  StronglySorted string_le (getSortedKeys m1)
  /\ Permutation (getKeys m1) (getSortedKeys m1)
  /\ writeDirectives m1 level
     = String.concat ""
         (map (fun name =>
                 match mapGet name m1 with
                 | Some subdirective => writeDirective subdirective level
                 | None => ""
                 end)
              (getSortedKeys m1))
  /\ writeDirectives m1 level = writeDirectives m2 level.
Proof.
  intros [ND FU] S.
  split; [apply sort_StronglySorted|].
  split; [apply sort_Permutation|].
  split; [apply writeDirectives_eq|].
  apply writeDirectives_sameMap; [exact ND | | exact S].
  rewrite Forall_forall in *. intros e He d2 Hs.
  apply writeDirective_sameTree; auto.
Qed.

Lemma uniqueKeysMap_siteOrder1 : uniqueKeysMap siteOrder1.
Proof.
  split.
  - repeat constructor; simpl; intuition discriminate.
  - repeat constructor; simpl; intuition discriminate.
Qed.

Lemma sameMap_siteOrder : sameMap siteOrder1 siteOrder2.
Proof.
  exists [("a.com", Directive "a.com" [] []);
          ("b.com", Directive "b.com" [] [("tls", tlsOff); ("gzip", gzip)])].
  split; [apply perm_swap|].
  constructor; [split; [reflexivity | apply sameTree_refl]|].
  constructor; [|constructor].
  split; [reflexivity|]. simpl.
  apply sameTree_node with (c1' := [("gzip", gzip); ("tls", tlsOff)]);
    [apply perm_swap|].
  repeat constructor; apply sameTree_refl.
Qed.

Lemma C3_witness :
  uniqueKeysMap siteOrder1 /\ sameMap siteOrder1 siteOrder2
  /\ writeDirectives siteOrder1 0 = writeDirectives siteOrder2 0.
Proof.
  split; [exact uniqueKeysMap_siteOrder1|].
  split; [exact sameMap_siteOrder|].
  apply (C3_serialization_in_sorted_key_order siteOrder1 siteOrder2 0
           uniqueKeysMap_siteOrder1 sameMap_siteOrder).
Defined.

(** C6, as the specification states it, fails: a node without name and
    arguments is not written as its children alone.  With the one child
    [gzip], the node is written at level 0 as a brace block, three lines,
    and its children map as the single line of the child. *)
Lemma C6_counterexample :
  name namelessNode = ""
  /\ args namelessNode = []
  /\ children namelessNode <> []
  /\ writeDirective namelessNode 0 = " {" ++ nl ++ "  gzip" ++ nl ++ "}" ++ nl
  /\ writeDirectives (children namelessNode) 0 = "gzip" ++ nl
  /\ writeDirective namelessNode 0 <> writeDirectives (children namelessNode) 0.
Proof.
  repeat split; try reflexivity; vm_compute; discriminate.
Qed.

(** C6, amended.  A node without name and without arguments that has
    children is written at level [L] as a block: the indentation of level
    [L] followed by an opening brace, the children at level [L + 1], and
    the closing brace at the indentation of level [L]. *)
Theorem C6_nameless_node_written_as_block
        (directive : directiveData) (level : nat) :
  name directive = "" ->
  args directive = [] ->
  children directive <> [] ->
  writeDirective directive level
  = Repeat " " (level * 2) ++ " {" ++ nl
    ++ writeDirectives (children directive) (level + 1)
    ++ Repeat " " (level * 2) ++ "}" ++ nl.
Proof.
  intros Hn Ha Hc.
  rewrite writeDirective_eq, Hn, Ha.
  destruct (children directive) as [|e c]; [congruence|].
  cbn [nonEmpty andb List.length Nat.ltb Nat.leb].
  cbn [append].
  now rewrite !append_assoc.
Qed.

Lemma C6_witness :
  writeDirective namelessNode 2
  = Repeat " " (2 * 2) ++ " {" ++ nl
    ++ writeDirectives (children namelessNode) (2 + 1)
    ++ Repeat " " (2 * 2) ++ "}" ++ nl.
Proof.
  apply (C6_nameless_node_written_as_block namelessNode 2).
  - reflexivity.
  - reflexivity.
  - simpl. discriminate.
Defined.

(** ** The merge *)

Section MapSetFacts.
Context {V : Type}.
Implicit Types m : list (string * V).

Lemma mapGet_mapSet_same k v m : mapGet k (mapSet k v m) = Some v.
Proof.
  induction m as [|[k' v'] m IH]; simpl.
  - now rewrite String.eqb_refl.
  - destruct (String.eqb_spec k k') as [->|Hne]; simpl.
    + now rewrite String.eqb_refl.
    + destruct (String.eqb_spec k k'); [congruence | exact IH].
Qed.

Lemma mapGet_mapSet_other k k' v m :
  k <> k' -> mapGet k (mapSet k' v m) = mapGet k m.
Proof.
  intros Hne.
  induction m as [|[k0 v0] m IH]; simpl.
  - destruct (String.eqb_spec k k'); [congruence | reflexivity].
  - destruct (String.eqb_spec k' k0) as [->|Hne0]; simpl.
    + destruct (String.eqb_spec k k0); [congruence | reflexivity].
    + destruct (String.eqb_spec k k0); [reflexivity | exact IH].
Qed.

(** Writing to a key the map already has keeps the keys as they are. *)
Lemma getKeys_mapSet_present k v m :
  mapGet k m <> None -> getKeys (mapSet k v m) = getKeys m.
Proof.
  induction m as [|[k' v'] m IH]; simpl; [congruence|].
  destruct (String.eqb_spec k k') as [->|Hne]; simpl; intros H.
  - reflexivity.
  - f_equal. now apply IH.
Qed.

(** Writes to two keys commute when one of the keys is already bound. *)
Lemma mapSet_comm k k' v v' m :
  k <> k' -> mapGet k m <> None ->
  mapSet k v (mapSet k' v' m) = mapSet k' v' (mapSet k v m).
Proof.
  intros Hne.
  induction m as [|[k0 v0] m IH]; simpl; [congruence|].
  destruct (String.eqb_spec k k0) as [->|Hk]; intros H.
  - destruct (String.eqb_spec k' k0) as [->|Hk']; [congruence|].
    simpl. rewrite String.eqb_refl.
    destruct (String.eqb_spec k' k0); [congruence | reflexivity].
  - destruct (String.eqb_spec k' k0) as [->|Hk']; simpl.
    + destruct (String.eqb_spec k k0); [congruence|].
      now rewrite String.eqb_refl.
    + destruct (String.eqb_spec k k0); [congruence|].
      destruct (String.eqb_spec k' k0); [congruence|].
      f_equal. now apply IH.
Qed.

Lemma mapDelete_absent k m : ~ In k (getKeys m) -> mapDelete k m = m.
Proof.
  induction m as [|[k' v'] m IH]; simpl; [reflexivity|].
  intros H. destruct (String.eqb_spec k k') as [->|Hne]; [tauto|].
  f_equal. apply IH. tauto.
Qed.

Lemma getKeys_mapDelete_incl k m k' :
  In k' (getKeys (mapDelete k m)) -> In k' (getKeys m).
Proof.
  induction m as [|[k0 v0] m IH]; simpl; [tauto|].
  destruct (String.eqb_spec k k0); simpl; tauto.
Qed.

End MapSetFacts.

Section MergeFacts.
Variable entropy : nat -> draw.

Lemma directivesAreSimilar_spec (a b : directiveData) :
  directivesAreSimilar a b = true <-> args a = args b.
Proof.
  unfold directivesAreSimilar.
  generalize (args a) (args b). clear a b.
  induction l as [|x l IH]; intros [|y l']; simpl;
    try (split; [discriminate | congruence]); [tauto|].
  specialize (IH l').
  destruct (Nat.eqb_spec (List.length l) (List.length l')) as [E|E]; simpl in *.
  - destruct (String.eqb_spec x y) as [->|Hne].
    + rewrite IH. split; congruence.
    + split; [discriminate | congruence].
  - split; [discriminate|]. intros [= -> ->]. congruence.
Qed.

(** One child of B with another key leaves A's binding of [k] alone,
    unless the key made up for it is [k] itself. *)
Lemma mergeChild_other_key k k0 b0 m n :
  k0 <> k ->
  renamedKey k0 (entropy n) <> k ->
  mapGet k (fst (mergeChild entropy (m, n) (k0, b0))) = mapGet k m.
Proof.
  intros Hne Hfresh. unfold mergeChild.
  destruct (mapGet k0 m) as [a0|].
  - destruct (sameProxy a0 b0); simpl.
    + now rewrite mapGet_mapSet_other by congruence.
    + destruct (directivesAreSimilar a0 b0); simpl; [reflexivity|].
      now rewrite mapGet_mapSet_other by congruence.
  - simpl. now rewrite mapGet_mapSet_other by congruence.
Qed.

(** A write to a key that A binds and that the step does not touch can be
    made before the step or after it. *)
Lemma mergeChild_mapSet k v k0 b0 m n :
  k0 <> k ->
  renamedKey k0 (entropy n) <> k ->
  mapGet k m <> None ->
  mergeChild entropy (mapSet k v m, n) (k0, b0)
  = (mapSet k v (fst (mergeChild entropy (m, n) (k0, b0))),
     snd (mergeChild entropy (m, n) (k0, b0))).
Proof.
  intros Hne Hfresh Hin. unfold mergeChild.
  rewrite mapGet_mapSet_other by assumption.
  destruct (mapGet k0 m) as [a0|].
  - destruct (sameProxy a0 b0); simpl.
    + now rewrite (mapSet_comm k k0) by congruence.
    + destruct (directivesAreSimilar a0 b0); simpl; [reflexivity|].
      now rewrite (mapSet_comm k (renamedKey k0 (entropy n))) by congruence.
  - simpl. now rewrite (mapSet_comm k k0) by congruence.
Qed.

Lemma mergeLoop_cons e bs acc :
  mergeLoop entropy (e :: bs) acc
  = mergeLoop entropy bs (mergeChild entropy acc e).
Proof. reflexivity. Qed.

Lemma mergeLoop_mapSet k v bs :
  forall m n,
    ~ In k (getKeys bs) ->
    (forall k' i, In k' (getKeys bs) -> renamedKey k' (entropy i) <> k) ->
    mapGet k m <> None ->
    mergeLoop entropy bs (mapSet k v m, n)
    = (mapSet k v (fst (mergeLoop entropy bs (m, n))),
       snd (mergeLoop entropy bs (m, n))).
Proof.
  induction bs as [|[k0 b0] bs IH]; intros m n Hk Hfresh Hin.
  - reflexivity.
  - rewrite !mergeLoop_cons.
    assert (Hne : k0 <> k) by (intros ->; apply Hk; now left).
    assert (Hf0 : renamedKey k0 (entropy n) <> k)
      by (apply Hfresh; now left).
    rewrite mergeChild_mapSet by assumption.
    pose proof (mergeChild_other_key k k0 b0 m n Hne Hf0) as Hget.
    destruct (mergeChild entropy (m, n) (k0, b0)) as [m1 n1].
    simpl in *. apply IH.
    + intros H. apply Hk. now right.
    + intros k' i H. apply Hfresh. now right.
    + rewrite Hget. exact Hin.
Qed.

Lemma mergeLoop_keeps_binding k bs :
  forall m n,
    ~ In k (getKeys bs) ->
    (forall k' i, In k' (getKeys bs) -> renamedKey k' (entropy i) <> k) ->
    mapGet k (fst (mergeLoop entropy bs (m, n))) = mapGet k m.
Proof.
  induction bs as [|[k0 b0] bs IH]; intros m n Hk Hfresh.
  - reflexivity.
  - rewrite mergeLoop_cons.
    assert (Hne : k0 <> k) by (intros ->; apply Hk; now left).
    assert (Hf0 : renamedKey k0 (entropy n) <> k)
      by (apply Hfresh; now left).
    pose proof (mergeChild_other_key k k0 b0 m n Hne Hf0) as Hget.
    destruct (mergeChild entropy (m, n) (k0, b0)) as [m1 n1].
    simpl in *. rewrite IH; [exact Hget | |].
    + intros H. apply Hk. now right.
    + intros k' i H. apply Hfresh. now right.
Qed.

(** The step for a child of B that is the same proxy route as A's child
    only extends the arguments of A's child. *)
Lemma mergeLoop_sameProxy k a b bs :
  forall m n,
    NoDup (getKeys bs) ->
    mapGet k bs = Some b ->
    mapGet k m = Some a ->
    sameProxy a b = true ->
    (forall k' i, In k' (getKeys bs) -> renamedKey k' (entropy i) <> k) ->
    mergeLoop entropy bs (m, n)
    = (mapSet k (addArgs a (tl (args b)))
              (fst (mergeLoop entropy (mapDelete k bs) (m, n))),
       snd (mergeLoop entropy (mapDelete k bs) (m, n))).
Proof.
  induction bs as [|[k0 b0] bs IH]; intros m n ND Hb Ha Hp Hfresh;
    [discriminate|].
  inversion ND as [|? ? Hnot ND']; subst.
  simpl in Hb. simpl mapDelete.
  destruct (String.eqb_spec k k0) as [->|Hne].
  - injection Hb as ->.
    rewrite mergeLoop_cons. unfold mergeChild at 1. rewrite Ha, Hp.
    rewrite (mapDelete_absent k0 bs Hnot).
    apply mergeLoop_mapSet; [exact Hnot | | congruence].
    intros k' i H. apply Hfresh. now right.
  - rewrite !mergeLoop_cons.
    assert (Hf0 : renamedKey k0 (entropy n) <> k)
      by (apply Hfresh; now left).
    pose proof (mergeChild_other_key k k0 b0 m n (not_eq_sym Hne) Hf0) as Hget.
    destruct (mergeChild entropy (m, n) (k0, b0)) as [m1 n1].
    simpl in Hget. apply IH; auto.
    + congruence.
    + intros k' i H. apply Hfresh. now right.
Qed.

End MergeFacts.

Lemma sameProxy_intro (a b : directiveData) :
  name a = "proxy" -> name b = "proxy" ->
  args a <> [] -> args b <> [] ->
  hd "" (args a) = hd "" (args b) ->
  sameProxy a b = true.
Proof.
  intros Ha Hb Na Nb Hhd. unfold sameProxy.
  rewrite Ha, Hb, Hhd, !String.eqb_refl.
  destruct (args a); [congruence|].
  destruct (args b); [congruence|].
  reflexivity.
Qed.

(** C2. When A and B both bind [k] to a [proxy] directive and the two
    have a first argument, the same one, merging B into A appends the
    arguments of B's child after the first to the arguments of A's child,
    which stays bound to [k] with its name and children; and nothing is
    added for [k]: the result is the one of merging B without its child
    [k], with A's binding of [k] replaced in place, so the keys are those
    of that merge.  The suffixes drawn for other, conflicting children of
    B are taken not to produce the key [k] itself. *)
Theorem C2_same_proxy_arguments_accumulate
        (entropy : nat -> draw) (A B : directiveData) (calls : nat)
        (k : string) (a b : directiveData) :
  NoDup (getKeys (children B)) ->
  mapGet k (children A) = Some a ->
  mapGet k (children B) = Some b ->
  name a = "proxy" -> name b = "proxy" ->
  args a <> [] -> args b <> [] ->
  hd "" (args a) = hd "" (args b) ->
  (forall k' i, In k' (getKeys (children B)) ->
                renamedKey k' (entropy i) <> k) ->
  exists (C C' : directiveData) (calls' : nat),
    mergeDirectives entropy (Some A) (Some B) calls = (Some C, calls')
    /\ mapGet k (children C)
       = Some (Directive "proxy" (args a ++ tl (args b))%list (children a))
    /\ mergeDirectives entropy (Some A)
         (Some (Directive (name B) (args B) (mapDelete k (children B)))) calls
       = (Some C', calls')
    /\ children C
       = mapSet k (Directive "proxy" (args a ++ tl (args b))%list (children a))
                (children C')
    /\ getKeys (children C) = getKeys (children C').
Proof.
  intros ND Ha Hb Na Nb Aa Ab Hhd Hfresh.
  pose proof (sameProxy_intro a b Na Nb Aa Ab Hhd) as Hp.
  pose proof (mergeLoop_sameProxy entropy k a b (children B) (children A)
                calls ND Hb Ha Hp Hfresh) as Hloop.
  assert (Hkeep : mapGet k (fst (mergeLoop entropy (mapDelete k (children B))
                                           (children A, calls)))
                  = Some a).
  { rewrite mergeLoop_keeps_binding; [exact Ha | |].
    - clear. induction (children B) as [|[k0 b0] bs IH]; simpl; [tauto|].
      destruct (String.eqb_spec k k0) as [->|Hne]; [exact IH|].
      simpl. intros [E|I]; [congruence | tauto].
    - intros k' i H. apply Hfresh.
      eapply getKeys_mapDelete_incl; exact H. }
  unfold mergeDirectives. cbn [children].
  rewrite Hloop.
  destruct (mergeLoop entropy (mapDelete k (children B)) (children A, calls))
    as [m' n'].
  simpl in *.
  exists (Directive (name A) (args A) (mapSet k (addArgs a (tl (args b))) m')),
         (Directive (name A) (args A) m'), n'.
  unfold addArgs. rewrite Na. simpl.
  repeat split.
  - apply mapGet_mapSet_same.
  - apply getKeys_mapSet_present. congruence.
Qed.

Lemma C2_witness :
  exists (C C' : directiveData) (calls' : nat),
    mergeDirectives entropyEx (Some routeA) (Some routeB) 0 = (Some C, calls')
    /\ mapGet "proxy" (children C)
       = Some (Directive "proxy" ["/"; "10.0.0.1:80"; "10.0.0.2:80"] [])
    /\ mergeDirectives entropyEx (Some routeA)
         (Some (Directive "site.com" [] [("tls", tlsOff)])) 0
       = (Some C', calls')
    /\ children C
       = mapSet "proxy"
                (Directive "proxy" ["/"; "10.0.0.1:80"; "10.0.0.2:80"] [])
                (children C')
    /\ getKeys (children C) = getKeys (children C').
Proof.
  apply (C2_same_proxy_arguments_accumulate entropyEx routeA routeB 0 "proxy"
           (Directive "proxy" ["/"; "10.0.0.1:80"] [])
           (Directive "proxy" ["/"; "10.0.0.2:80"] [])).
  - repeat constructor; simpl; intuition discriminate.
  - reflexivity.
  - reflexivity.
  - reflexivity.
  - reflexivity.
  - simpl. discriminate.
  - simpl. discriminate.
  - reflexivity.
  - intros k' i [<-|[<-|[]]]; unfold renamedKey.
    + change (removeSuffix "tls") with "tls". cbn [append]. discriminate.
    + change (removeSuffix "proxy") with "proxy". cbn [append]. discriminate.
Defined.

(** The step of the loop at a conflict: A binds [k] to a directive that is
    neither the same proxy route as B's child nor has its arguments.  B's
    child is stored under the renamed key, one suffix is drawn, and A's
    child stays where it was unless the renamed key is [k] itself. *)
Lemma mergeChild_conflict (entropy : nat -> draw)
      (m : directiveMap) (n : nat) (k : string) (a b : directiveData) :
  mapGet k m = Some a ->
  sameProxy a b = false ->
  args a <> args b ->
  mergeChild entropy (m, n) (k, b)
  = (mapSet (renamedKey k (entropy n)) b m, S n)
  /\ mapGet (renamedKey k (entropy n))
            (fst (mergeChild entropy (m, n) (k, b))) = Some b
  /\ (renamedKey k (entropy n) <> k ->
      mapGet k (fst (mergeChild entropy (m, n) (k, b))) = Some a).
Proof.
  intros Ha Hp Hargs.
  assert (Hs : directivesAreSimilar a b = false).
  { destruct (directivesAreSimilar a b) eqn:E; [|reflexivity].
    apply directivesAreSimilar_spec in E. contradiction. }
  unfold mergeChild. rewrite Ha, Hp, Hs. cbn [fst].
  split; [reflexivity|]. split.
  - apply mapGet_mapSet_same.
  - intros Hne. rewrite mapGet_mapSet_other by congruence. exact Ha.
Qed.

(** Whatever is drawn above U+10FFFF, the suffix is the same three
    bytes. *)
Lemma createUniqueSuffix_large (v : Z) :
  (1114111 < v)%Z ->
  createUniqueSuffix (CryptoInt v) = replacementChar
  /\ createUniqueSuffix (FallbackUint64 v) = replacementChar.
Proof.
  intros Hv. unfold createUniqueSuffix, stringOfUint64, validRune.
  replace (v <? 55296)%Z with false by (symmetry; apply Z.ltb_ge; lia).
  replace (v <=? 1114111)%Z with false by (symmetry; apply Z.leb_gt; lia).
  rewrite !andb_false_r. cbn [orb]. split; reflexivity.
Qed.

(** C1, the code at a conflict.  A and B both declare [tls] for the same
    site with different arguments, and [crypto/rand] answers 2^62.  A's
    child stays where it is and B's child is stored under a second key,
    but the suffix of that key is not the number drawn: it is the three
    bytes of U+FFFD, which are not decimal digits, and the next draw, a
    different number, gives the same suffix.  So the child of a third
    service with a third [tls] line is stored under the key B's child
    has, and B's child is lost; and of two conflicting children of one B
    whose keys differ in their numeric suffix only, one is lost. *)
Theorem C1_conflict_suffix_is_not_the_number_drawn :
  mergeDirectives entropyEx (Some siteInternal) (Some siteOff) 0
  = (Some (Directive "site.com" []
             [("tls", tlsInternal); ("tls_" ++ replacementChar, tlsOff)]), 1)
  /\ createUniqueSuffix (entropyEx 0) = replacementChar
  /\ isDecimal (createUniqueSuffix (entropyEx 0)) = false
  /\ entropyEx 0 <> entropyEx 1
  /\ createUniqueSuffix (entropyEx 1) = createUniqueSuffix (entropyEx 0)
  /\ mergeDirectives entropyEx
       (fst (mergeDirectives entropyEx (Some siteInternal) (Some siteOff) 0))
       (Some siteSelfSigned) 1
     = (Some (Directive "site.com" []
                [("tls", tlsInternal);
                 ("tls_" ++ replacementChar, tlsSelfSigned)]), 2)
  /\ mergeDirectives entropyEx (Some siteTwoA) (Some siteTwoB) 0
     = (Some (Directive "site.com" []
                [("tls_1", tlsInternal); ("tls_2", tlsOff);
                 ("tls_" ++ replacementChar, tlsMax)]), 2).
Proof.
  split; [vm_compute; reflexivity|].
  split; [vm_compute; reflexivity|].
  split; [vm_compute; reflexivity|].
  split; [vm_compute; discriminate|].
  split; [vm_compute; reflexivity|].
  split; vm_compute; reflexivity.
Qed.

(** ** The loader: change detection, rejection, empty output *)

Section LoaderFacts.

Lemma bytesEqual_spec (a b : list Byte.byte) :
  bytesEqual a b = true <-> a = b.
Proof.
  revert b. induction a as [|x a IH]; intros [|y b]; simpl;
    try (split; [discriminate | congruence]); [tauto|].
  rewrite andb_true_iff, IH. split.
  - intros [E ->]. apply Byte.byte_dec_bl in E. now subst.
  - intros [= -> ->]. split; [now apply Byte.byte_dec_lb | reflexivity].
Qed.

Lemma bytesEqual_refl (a : list Byte.byte) : bytesEqual a a = true.
Proof. now apply bytesEqual_spec. Qed.

(** A cycle whose generation does not fail leaves the generated bytes in
    [previousCaddyfile], whatever happens to them afterwards. *)
Lemma update_stores_output l w reload caddyfile logs :
  GenerateCaddyFile w = (caddyfile, logs, None) ->
  previousCaddyfile (loaderAfter (update l w reload)) = caddyfile.
Proof.
  intros G. unfold update. rewrite G. cbn [previousCaddyfile].
  destruct (bytesEqual (previousCaddyfile l) caddyfile); cbn [negb];
    [reflexivity|].
  destruct (validate w _); reflexivity.
Qed.

(** The cycle of unchanged bytes, in full. *)
Lemma update_unchanged l w reload caddyfile logs :
  GenerateCaddyFile w = (caddyfile, logs, None) ->
  previousCaddyfile l = caddyfile ->
  update l w reload
  = (false,
     mkLoader false (input l) (processCaddyfile l) caddyfile logs,
     TimerReset (pollingInterval w)
     :: (if negb (String.eqb (previousLogs l) logs)
         then [Log (LogGeneratorLogs logs)] else [])).
Proof.
  intros G E. unfold update. rewrite G. cbn [previousCaddyfile previousLogs].
  rewrite E, bytesEqual_refl. cbn [negb orb].
  rewrite orb_false_r. reflexivity.
Qed.

End LoaderFacts.

(** C4, as stated, fails where it speaks of an unchanged set of
    resources.  Two containers serve the same site under the same path.
    Docker lists them in one order at the first cycle and in the other
    order at the second: the resources are the same, both generations
    succeed, and the arguments of the merged proxy come in the order of
    the list, so the bytes differ and the second cycle validates, applies
    and reloads again. *)
Lemma C4_counterexample :
  let first := Generator.GenerateCaddyFile entropyEx lenientGenerator
                                           answersAB 0 in
  let second := Generator.GenerateCaddyFile entropyEx (generatorAfter first)
                                            answersBA (suffixesAfter first) in
  let l1 := loaderAfter (update CreateDockerLoader (acceptedCycle first)
                                false) in
  containersAnswer answersAB = inl [inl backendA; inl backendB]
  /\ containersAnswer answersBA = inl [inl backendB; inl backendA]
  /\ Permutation [backendA; backendB] [backendB; backendA]
  /\ servicesAnswer answersBA = servicesAnswer answersAB
  /\ configsAnswer answersBA = configsAnswer answersAB
  /\ fileAnswer answersBA = fileAnswer answersAB
  /\ snd (generated first) = None
  /\ snd (generated second) = None
  /\ suffixesAfter second = 0
  /\ previousCaddyfile l1 = fst (fst (generated first))
  /\ fst (fst (generated second)) <> fst (fst (generated first))
  /\ returned (update l1 (acceptedCycle second) true) = true
  /\ In (ValidateAndExecuteDirectives
           (mkInput "http" (fst (fst (generated second)))))
        (trace (update l1 (acceptedCycle second) true))
  /\ In ReloadCaddy (trace (update l1 (acceptedCycle second) true)).
Proof.
  cbv zeta. repeat split.
  - apply perm_swap.
  - vm_compute. discriminate.
  - vm_compute. do 2 right. left. reflexivity.
  - vm_compute. do 4 right. left. reflexivity.
Qed.

(** C4. A cycle whose generated bytes equal [previousCaddyfile] returns
    false, makes no call of [ValidateAndExecuteDirectives] and no reload,
    and leaves the active input as it is.  In particular, after any cycle
    that generated these bytes, a further cycle that generates them again
    applies nothing. *)
Theorem C4_unchanged_bytes_are_not_applied
        (l : DockerLoader) (w : cycle) (reload : bool)
        (caddyfile : list Byte.byte) (logs : string) :
  GenerateCaddyFile w = (caddyfile, logs, None) ->
  previousCaddyfile l = caddyfile ->
  (returned (update l w reload) = false
   /\ quiet (trace (update l w reload))
   /\ input (loaderAfter (update l w reload)) = input l)
  /\ (forall (l0 : DockerLoader) (w0 : cycle) (reload0 : bool) (logs0 : string),
        GenerateCaddyFile w0 = (caddyfile, logs0, None) ->
        returned (update (loaderAfter (update l0 w0 reload0)) w reload) = false
        /\ quiet (trace (update (loaderAfter (update l0 w0 reload0)) w reload))
        /\ input (loaderAfter
                    (update (loaderAfter (update l0 w0 reload0)) w reload))
           = input (loaderAfter (update l0 w0 reload0))).
Proof.
  intros G E.
  assert (Q : forall l', previousCaddyfile l' = caddyfile ->
                returned (update l' w reload) = false
                /\ quiet (trace (update l' w reload))
                /\ input (loaderAfter (update l' w reload)) = input l').
  { intros l' E'. rewrite (update_unchanged l' w reload caddyfile logs G E').
    unfold returned, quiet, trace, loaderAfter. cbn [fst snd input].
    repeat split.
    destruct (negb (String.eqb (previousLogs l') logs)); reflexivity. }
  split; [now apply Q|].
  intros l0 w0 reload0 logs0 G0. apply Q.
  now apply (update_stores_output l0 w0 reload0 caddyfile logs0).
Qed.

Lemma C4_witness :
  returned (update loaderEx sameCycle true) = false
  /\ quiet (trace (update loaderEx sameCycle true))
  /\ input (loaderAfter (update loaderEx sameCycle true)) = input loaderEx.
Proof.
  apply (C4_unchanged_bytes_are_not_applied loaderEx sameCycle true
           someCaddyfile "").
  - reflexivity.
  - reflexivity.
Defined.

Section ChangedCycle.

(** The document [update] builds from changed bytes. *)
Lemma update_changed l w reload caddyfile logs :
  GenerateCaddyFile w = (caddyfile, logs, None) ->
  previousCaddyfile l <> caddyfile ->
  exists (before : list event) (newInput : CaddyfileInput),
    Contents newInput
    = (if (List.length (overallOutput l w caddyfile) =? 0)%nat
       then emptyCaddyfile else overallOutput l w caddyfile)
    /\ ServerTypeName newInput = "http"
    /\ quiet before
    /\ update l w reload
       = match validate w newInput with
         | Some e =>
             (true,
              mkLoader false (input l) (processCaddyfile l) caddyfile logs,
              before ++ [ValidateAndExecuteDirectives newInput;
                         Log (LogCaddyFileError e);
                         Log (LogWrongCaddyFile (Contents newInput))])%list
         | None =>
             (true,
              mkLoader false newInput (processCaddyfile l) caddyfile logs,
              before ++ [ValidateAndExecuteDirectives newInput;
                         Log (LogNewCaddyFile (Contents newInput))]
                     ++ (if reload then [ReloadCaddy] else []))%list
         end.
Proof.
  intros G Hne.
  assert (B : bytesEqual (previousCaddyfile l) caddyfile = false).
  { destruct (bytesEqual (previousCaddyfile l) caddyfile) eqn:E;
      [|reflexivity].
    apply bytesEqual_spec in E. contradiction. }
  unfold update. rewrite G.
  cbn [previousCaddyfile previousLogs processCaddyfile input].
  rewrite B. cbn [negb]. rewrite orb_true_r.
  eexists _, (mkInput "http" _).
  split; [reflexivity|]. split; [reflexivity|].
  split; [|unfold overallOutput; destruct (validate w _); reflexivity].
  unfold quiet. destruct (processCaddyfile l); reflexivity.
Qed.

Lemma quiet_not_In (t : list event) (e : event) :
  quiet t -> reachesCaddy e = true -> ~ In e t.
Proof.
  unfold quiet. rewrite forallb_forall. intros Q R I.
  specialize (Q e I). rewrite R in Q. discriminate.
Qed.

Lemma quiet_no_validate (t : list event) (doc : CaddyfileInput) :
  quiet t -> ~ In (ValidateAndExecuteDirectives doc) t.
Proof. intros Q. now apply quiet_not_In. Qed.

Lemma quiet_no_reload (t : list event) : quiet t -> ~ In ReloadCaddy t.
Proof. intros Q. now apply quiet_not_In. Qed.

Lemma quiet_unchanged l w reload caddyfile logs :
  GenerateCaddyFile w = (caddyfile, logs, None) ->
  previousCaddyfile l = caddyfile ->
  quiet (trace (update l w reload)).
Proof.
  intros G E. rewrite (update_unchanged l w reload caddyfile logs G E).
  unfold quiet, trace. cbn [snd].
  destruct (negb (String.eqb (previousLogs l) logs)); reflexivity.
Qed.

End ChangedCycle.

(** C5. In a cycle in which the document handed to
    [ValidateAndExecuteDirectives] is rejected, the active input keeps its
    value and nothing is reloaded, while [previousCaddyfile] becomes the
    bytes generated in this cycle; a later cycle that generates the same
    bytes returns false without asking caddy to validate again, and the
    active input is still the old one. *)
Theorem C5_rejected_bytes_are_remembered
        (l : DockerLoader) (w : cycle) (reload : bool)
        (caddyfile : list Byte.byte) (logs : string)
        (doc : CaddyfileInput) (err : string) :
  GenerateCaddyFile w = (caddyfile, logs, None) ->
  In (ValidateAndExecuteDirectives doc) (trace (update l w reload)) ->
  validate w doc = Some err ->
  input (loaderAfter (update l w reload)) = input l
  /\ previousCaddyfile (loaderAfter (update l w reload)) = caddyfile
  /\ ~ In ReloadCaddy (trace (update l w reload))
  /\ (forall (w2 : cycle) (reload2 : bool) (logs2 : string),
        GenerateCaddyFile w2 = (caddyfile, logs2, None) ->
        returned (update (loaderAfter (update l w reload)) w2 reload2) = false
        /\ quiet (trace (update (loaderAfter (update l w reload)) w2 reload2))
        /\ input (loaderAfter
                    (update (loaderAfter (update l w reload)) w2 reload2))
           = input l).
Proof.
  intros G I V.
  pose proof (update_stores_output l w reload caddyfile logs G) as Hprev.
  assert (Hne : previousCaddyfile l <> caddyfile).
  { intros E.
    exact (quiet_no_validate _ _
             (quiet_unchanged l w reload caddyfile logs G E) I). }
  destruct (update_changed l w reload caddyfile logs G Hne)
    as (before & newInput & _ & _ & Q & U).
  assert (D : doc = newInput).
  { rewrite U in I. unfold trace in I.
    destruct (validate w newInput); cbn [snd] in I;
      rewrite !in_app_iff in I; simpl in I;
      destruct I as [I|I];
      try (exfalso; exact (quiet_no_validate _ _ Q I));
      destruct reload; simpl in I; intuition congruence. }
  subst doc. rewrite V in U.
  assert (Hin : input (loaderAfter (update l w reload)) = input l)
    by (rewrite U; reflexivity).
  split; [exact Hin|]. split; [exact Hprev|]. split.
  - rewrite U. unfold trace. cbn [snd]. rewrite in_app_iff. simpl.
    intros [I'|I']; [exact (quiet_no_reload _ Q I')|].
    intuition discriminate.
  - intros w2 reload2 logs2 G2.
    remember (loaderAfter (update l w reload)) as l' eqn:El'.
    rewrite (update_unchanged l' w2 reload2 caddyfile logs2 G2 Hprev).
    unfold returned, quiet, trace, loaderAfter. cbn [fst snd input].
    repeat split; [|exact Hin].
    destruct (negb (String.eqb _ logs2)); reflexivity.
Qed.

Lemma C5_witness :
  input (loaderAfter (update loaderEx rejectedCycle true)) = input loaderEx
  /\ previousCaddyfile (loaderAfter (update loaderEx rejectedCycle true))
     = otherCaddyfile
  /\ quiet (trace (update (loaderAfter (update loaderEx rejectedCycle true))
                          rejectedCycle true)).
Proof.
  destruct (C5_rejected_bytes_are_remembered loaderEx rejectedCycle true
              otherCaddyfile "" (mkInput "http" otherCaddyfile)
              "unexpected end of file")
    as (Hin & Hprev & _ & Hnext).
  - reflexivity.
  - vm_compute. right. right. left. reflexivity.
  - reflexivity.
  - split; [exact Hin|]. split; [exact Hprev|].
    destruct (Hnext rejectedCycle true "" eq_refl) as (_ & Hq & _).
    exact Hq.
Defined.

(** C9. In a cycle whose overall output is empty, every document handed
    to [ValidateAndExecuteDirectives] is the placeholder, the single line
    [# Empty caddyfile]; and when the generated bytes differ from
    [previousCaddyfile], that document is handed over. *)
Theorem C9_empty_output_becomes_placeholder
        (l : DockerLoader) (w : cycle) (reload : bool)
        (caddyfile : list Byte.byte) (logs : string) :
  GenerateCaddyFile w = (caddyfile, logs, None) ->
  overallOutput l w caddyfile = [] ->
  (forall doc : CaddyfileInput,
      In (ValidateAndExecuteDirectives doc) (trace (update l w reload)) ->
      doc = emptyCaddyfileInput)
  /\ (previousCaddyfile l <> caddyfile ->
      In (ValidateAndExecuteDirectives emptyCaddyfileInput)
         (trace (update l w reload))).
Proof.
  intros G E.
  assert (P : previousCaddyfile l <> caddyfile ->
              exists before after,
                quiet before /\ forallb (fun e => negb
                  match e with ValidateAndExecuteDirectives _ => true
                          | _ => false end) after = true
                /\ trace (update l w reload)
                   = (before ++ ValidateAndExecuteDirectives emptyCaddyfileInput
                             :: after)%list).
  { intros Hne.
    destruct (update_changed l w reload caddyfile logs G Hne)
      as (before & [stn cont] & C & S & Q & U).
    rewrite E in C. simpl in C, S. subst stn cont.
    fold emptyCaddyfileInput in U.
    exists before.
    destruct (validate w emptyCaddyfileInput).
    - eexists. split; [exact Q|]. rewrite U. unfold trace. cbn [snd].
      split; [|reflexivity]. reflexivity.
    - eexists. split; [exact Q|]. rewrite U. unfold trace. cbn [snd].
      split; [|reflexivity]. destruct reload; reflexivity. }
  split.
  - intros doc I.
    destruct (list_eq_dec Byte.byte_eq_dec (previousCaddyfile l) caddyfile)
      as [Heq|Hne].
    + exfalso.
      exact (quiet_no_validate _ _
               (quiet_unchanged l w reload caddyfile logs G Heq) I).
    + destruct (P Hne) as (before & after & Q & A & T).
      rewrite T, in_app_iff in I. destruct I as [I|[I|I]].
      * exfalso. exact (quiet_no_validate _ _ Q I).
      * congruence.
      * rewrite forallb_forall in A. specialize (A _ I). discriminate.
  - intros Hne. destruct (P Hne) as (before & after & _ & _ & T).
    rewrite T, in_app_iff. right. now left.
Qed.

Lemma C9_witness :
  In (ValidateAndExecuteDirectives emptyCaddyfileInput)
     (trace (update loaderEx emptyCycle true)).
Proof.
  apply (C9_empty_output_becomes_placeholder loaderEx emptyCycle true [] "").
  - reflexivity.
  - reflexivity.
  - vm_compute. discriminate.
Defined.

(** ** The availability probe *)

Section ProbeFacts.

Lemma probe_time g info now :
  swarmIsAvailableTime (fst (probe g info now)) = Some now.
Proof.
  unfold probe. destruct (checkSwarmAvailability g info _). reflexivity.
Qed.

(** Only a generator that has never probed has the zero time. *)
Lemma afterProbes_time (history : list (infoResult * Z)) :
  forall g,
    history <> [] ->
    swarmIsAvailableTime (afterProbes g history) <> None.
Proof.
  induction history as [|p rest IH]; intros g Hne; [congruence|].
  unfold afterProbes. simpl. fold (afterProbes (fst (probe g (fst p) (snd p))) rest).
  destruct rest as [|q rest'].
  - simpl. rewrite probe_time. discriminate.
  - apply IH. discriminate.
Qed.

End ProbeFacts.

(** C8, as the specification states it, fails: a probe that is answered
    with an error logs a line every time.  After one failed probe, a
    second failed probe is not the first probe and leaves the cached
    state at false, and it logs. *)
Lemma C8_counterexample :
  let g := afterProbes newSwarmCache [(InfoErr "connection refused", 1%Z)] in
  swarmIsAvailableTime g = Some 1%Z
  /\ swarmIsAvailable g = false
  /\ swarmIsAvailable (fst (probe g (InfoErr "connection refused") 2)) = false
  /\ snd (probe g (InfoErr "connection refused") 2)
     = [LogSwarmCheckFailed "connection refused"].
Proof. repeat split. Qed.

(** C8, amended.  After any sequence of probes, a probe that docker
    answers logs one line if it is the first probe ever or if the state
    it finds differs from the cached one, and logs nothing otherwise; a
    probe that fails logs one error line, every time.  The cached state
    becomes the state found, and false after a failure. *)
Theorem C8_probe_log_lines
        (history : list (infoResult * Z)) (info : infoResult) (now : Z) :
  match info with
  | InfoOk active =>
      (snd (probe (afterProbes newSwarmCache history) info now)
       = [LogSwarmIsAvailable active]
       /\ (history = []
           \/ active <> swarmIsAvailable (afterProbes newSwarmCache history)))
      \/ (snd (probe (afterProbes newSwarmCache history) info now) = []
          /\ history <> []
          /\ active = swarmIsAvailable (afterProbes newSwarmCache history))
  | InfoErr err =>
      snd (probe (afterProbes newSwarmCache history) info now)
      = [LogSwarmCheckFailed err]
  end
  /\ swarmIsAvailable (fst (probe (afterProbes newSwarmCache history) info now))
     = match info with
       | InfoOk active => active
       | InfoErr _ => false
       end.
Proof.
  destruct info as [active|err]; [|split; reflexivity].
  split; [|reflexivity].
  destruct history as [|p rest].
  - left. split; [reflexivity | now left].
  - pose proof (afterProbes_time (p :: rest) newSwarmCache) as T.
    unfold probe.
    destruct (swarmIsAvailableTime (afterProbes newSwarmCache (p :: rest)))
      as [t|]; [clear T | exfalso; apply T; [discriminate | reflexivity]].
    unfold checkSwarmAvailability. cbn [orb snd].
    destruct active,
      (swarmIsAvailable (afterProbes newSwarmCache (p :: rest))); cbn.
    + right. repeat split. discriminate.
    + left. split; [reflexivity | right; discriminate].
    + left. split; [reflexivity | right; discriminate].
    + right. repeat split. discriminate.
Qed.

(** ** Splitting a label value into arguments *)

Section SubstringFacts.

Lemma substring_zero_length (n : nat) (s : string) : substring n 0 s = "".
Proof.
  revert n. induction s as [|c s IH]; intros [|n]; simpl; auto.
Qed.

Lemma substring_append_prefix (pre s : string) :
  forall n m,
    n + m <= String.length pre ->
    substring n m (pre ++ s) = substring n m pre.
Proof.
  induction pre as [|x pre IH]; intros n m H; simpl in *.
  - assert (n = 0) by lia. assert (m = 0) by lia. subst.
    now rewrite substring_zero_length.
  - destruct n as [|n].
    + destruct m as [|m]; [reflexivity|].
      f_equal. apply IH. lia.
    + apply IH. lia.
Qed.

Lemma substring_append_byte (pre : string) (c : ascii) :
  forall n m,
    n + m = String.length pre ->
    substring n (S m) (pre ++ String c "") = substring n m pre ++ String c "".
Proof.
  induction pre as [|x pre IH]; intros n m H; simpl in *.
  - assert (n = 0) by lia. assert (m = 0) by lia. subst. reflexivity.
  - destruct n as [|n].
    + destruct m as [|m]; [discriminate|].
      simpl. f_equal. apply IH. lia.
    + apply IH. lia.
Qed.

Lemma length_append_byte (pre : string) (c : ascii) :
  String.length (pre ++ String c "") = S (String.length pre).
Proof. rewrite length_append. simpl. lia. Qed.

Lemma append_byte (pre s : string) (c : ascii) :
  pre ++ String c s = (pre ++ String c "") ++ s.
Proof. now rewrite append_assoc. Qed.

End SubstringFacts.

Section SplitFacts.

(** The loop of [regSplit] over the matches of [\s+] is the one pass
    [splitRuns]: at offset [length pre] of the text [pre ++ s], with the
    current field begun at [laststart]. *)
Lemma regSplitLoop_splitRuns (s : string) :
  forall (pre : string) (laststart : nat),
    laststart <= String.length pre ->
    regSplitLoop (pre ++ s) laststart
                 (findAllSpaces s (String.length pre) None)
    = splitRuns s (substring laststart (String.length pre - laststart) pre)
                false
    /\ (forall b,
          laststart <= b -> b <= String.length pre ->
          regSplitLoop (pre ++ s) laststart
                       (findAllSpaces s (String.length pre) (Some b))
          = splitRuns s (substring laststart (b - laststart) pre) true).
Proof.
  induction s as [|c s IH]; intros pre ls Hls.
  - simpl. rewrite append_nil_r. split; [reflexivity|].
    intros b Hb1 Hb2.
    rewrite Nat.sub_diag, substring_zero_length. reflexivity.
  - assert (Hlen : String.length (pre ++ String c "") = S (String.length pre))
      by apply length_append_byte.
    assert (Hls' : ls <= String.length (pre ++ String c "")) by lia.
    destruct (IH (pre ++ String c "") ls Hls') as [IHn IHs].
    rewrite Hlen in IHn, IHs. rewrite <- append_byte in IHn, IHs.
    simpl findAllSpaces. simpl splitRuns.
    destruct (isSpace c).
    + split.
      * rewrite (IHs (String.length pre)) by lia.
        rewrite substring_append_prefix by lia. reflexivity.
      * intros b Hb1 Hb2. rewrite (IHs b) by lia.
        rewrite substring_append_prefix by lia. reflexivity.
    + split.
      * rewrite IHn.
        replace (S (String.length pre) - ls) with (S (String.length pre - ls))
          by lia.
        rewrite substring_append_byte by lia. reflexivity.
      * intros b Hb1 Hb2. simpl regSplitLoop.
        rewrite (substring_append_prefix pre (String c s)) by lia.
        f_equal.
        assert (Hpos : String.length pre <= String.length (pre ++ String c ""))
          by lia.
        destruct (IH (pre ++ String c "") (String.length pre) Hpos) as [IHn' _].
        rewrite Hlen in IHn'. rewrite <- append_byte in IHn'.
        rewrite IHn'.
        replace (S (String.length pre) - String.length pre) with 1 by lia.
        rewrite (substring_append_byte pre c (String.length pre) 0) by lia.
        now rewrite substring_zero_length.
Qed.

Lemma regSplit_splitRuns (text : string) :
  regSplit text spaces = splitRuns text "" false.
Proof.
  unfold regSplit, spaces.
  destruct (regSplitLoop_splitRuns text "" 0 (le_n 0)) as [H _].
  simpl in H. exact H.
Qed.

End SplitFacts.

Section FieldsFacts.

Lemma glue_append (a b : string) (l : list string) :
  glue (a ++ b) l = glue a (glue b l).
Proof. destruct l; simpl; now rewrite ?append_assoc. Qed.

(** The field being read only extends the first field found. *)
Lemma splitRuns_glue (s : string) :
  forall cur inSpaces,
    splitRuns s cur inSpaces = glue cur (splitRuns s "" inSpaces).
Proof.
  induction s as [|c s IH]; intros cur b; simpl.
  - destruct b; simpl; now rewrite append_nil_r.
  - destruct (isSpace c); [apply IH|].
    destruct b; simpl.
    + now rewrite append_nil_r.
    + rewrite (IH (cur ++ String c "")), (IH (String c "")).
      apply glue_append.
Qed.

Lemma fields_nonempty (c : ascii) (s : string) :
  isSpace c = false -> fields (String c s) <> [].
Proof.
  intros H. simpl. rewrite H.
  destruct s as [|c' s']; [discriminate|].
  destruct (isSpace c'); [discriminate|].
  destruct (fields (String c' s')); discriminate.
Qed.

(** What follows the first byte of a text that does not start with
    whitespace. *)
Lemma fields_cons (c : ascii) (s : string) :
  isSpace c = false ->
  (fields (String c s) ++ trailingArg (String c s))%list
  = glue (String c "")
         (match s with
          | EmptyString => [""]
          | String _ _ => leadingArg s ++ fields s ++ trailingArg s
          end)%list.
Proof.
  intros H.
  destruct s as [|c' s'].
  - unfold trailingArg. simpl. rewrite H. reflexivity.
  - assert (T : trailingArg (String c (String c' s'))
                = trailingArg (String c' s')) by reflexivity.
    rewrite T. unfold leadingArg. cbn [startsWithSpace].
    change (fields (String c (String c' s')))
      with (if isSpace c then fields (String c' s')
            else if isSpace c' then String c "" :: fields (String c' s')
                 else match fields (String c' s') with
                      | f :: fs => String c f :: fs
                      | [] => [String c ""]
                      end).
    rewrite H.
    destruct (isSpace c') eqn:H'.
    + reflexivity.
    + pose proof (fields_nonempty c' s' H') as N.
      destruct (fields (String c' s')) as [|f fs]; [congruence|].
      reflexivity.
Qed.

Lemma trailingArg_space (c : ascii) (s : string) :
  isSpace c = true ->
  trailingArg (String c s)
  = match s with
    | EmptyString => [""]
    | String _ _ => trailingArg s
    end.
Proof.
  intros H. unfold trailingArg. destruct s; simpl; [now rewrite H | reflexivity].
Qed.

(** The pass over a text in terms of its fields. *)
Lemma splitRuns_fields (s : string) :
  splitRuns s "" false
  = match s with
    | EmptyString => [""]
    | String _ _ => leadingArg s ++ fields s ++ trailingArg s
    end%list
  /\ splitRuns s "" true
     = ("" :: fields s
           ++ match s with
              | EmptyString => [""]
              | String _ _ => trailingArg s
              end)%list.
Proof.
  induction s as [|c s [IHf IHt]]; [split; reflexivity|].
  cbn [splitRuns]. unfold leadingArg. cbn [startsWithSpace].
  destruct (isSpace c) eqn:H.
  - rewrite IHt, (trailingArg_space c s H).
    assert (F : fields (String c s) = fields s) by (simpl; now rewrite H).
    rewrite F. split; reflexivity.
  - cbn [append]. rewrite (splitRuns_glue s (String c "") false), IHf.
    rewrite (fields_cons c s H). split; reflexivity.
Qed.

Lemma splitRuns_not_nil (s : string) :
  forall cur inSpaces, splitRuns s cur inSpaces <> [].
Proof.
  induction s as [|c s IH]; intros cur b; simpl.
  - destruct b; discriminate.
  - destruct (isSpace c); [apply IH|].
    destruct b; [discriminate | apply IH].
Qed.

(** After whitespace there are at least two fields, and a single field is
    the whole text: the result of the split is the one empty string only
    for the empty text. *)
Lemma splitRuns_length (s : string) :
  forall cur,
    2 <= List.length (splitRuns s cur true)
    /\ (forall x, splitRuns s cur false = [x] -> x = cur ++ s).
Proof.
  induction s as [|c s IH]; intros cur; simpl.
  - split; [lia|]. intros x [= <-]. now rewrite append_nil_r.
  - destruct (isSpace c).
    + split; [apply IH|].
      intros x E. destruct (IH cur) as [L _]. rewrite E in L. simpl in L. lia.
    + split.
      * pose proof (splitRuns_not_nil s (String c "") false) as N.
        destruct (splitRuns s (String c "") false); [congruence|].
        simpl. lia.
      * intros x E. destruct (IH (cur ++ String c "")) as [_ S1].
        rewrite (S1 x E). now rewrite append_assoc.
Qed.

Lemma parseArgs_regSplit (text : string) :
  parseArgs text
  = match text with
    | EmptyString => []
    | String _ _ => regSplit text spaces
    end.
Proof.
  unfold parseArgs. rewrite regSplit_splitRuns.
  destruct text as [|c s]; [reflexivity|].
  destruct (splitRuns (String c s) "" false) as [|a [|a' l]] eqn:E;
    try reflexivity.
  destruct (splitRuns_length (String c s) "") as [_ S1].
  specialize (S1 a E). simpl in S1. subst a. reflexivity.
Qed.

End FieldsFacts.

(** C7, as the specification states it, fails on whitespace at either end
    of the value: a value of one space gives two empty arguments, not
    none, and a value with a leading space gives an empty argument before
    its runs of non-whitespace bytes. *)
Lemma C7_counterexample :
  fields " " = []
  /\ parseArgs " " = [""; ""]
  /\ fields " a  b" = ["a"; "b"]
  /\ parseArgs " a  b" = [""; "a"; "b"].
Proof. repeat split. Qed.

(** C7, amended.  The empty value gives no argument.  Any other value
    gives its maximal runs of non-whitespace bytes, in order, with one
    empty argument before them when the value starts with whitespace and
    one empty argument after them when it ends with whitespace. *)
Theorem C7_arguments_of_a_label_value (text : string) :
  parseArgs text
  = match text with
    | EmptyString => []
    | String _ _ =>
        (leadingArg text ++ fields text ++ trailingArg text)%list
    end.
Proof.
  rewrite parseArgs_regSplit, regSplit_splitRuns.
  destruct text as [|c s]; [reflexivity|].
  exact (proj1 (splitRuns_fields (String c s))).
Qed.

(** ** Further properties: names and arguments *)

Section RemoveSuffixFacts.

Lemma isDigit_underscore : isDigit "_"%char = false.
Proof. reflexivity. Qed.

Lemma spanDigits_app (l : list ascii) :
  spanDigits l = (fst (spanDigits l), snd (spanDigits l))
  /\ l = (fst (spanDigits l) ++ snd (spanDigits l))%list
  /\ forallb isDigit (fst (spanDigits l)) = true.
Proof.
  induction l as [|c l (E & A & D)]; simpl; [auto|].
  destruct (isDigit c) eqn:Hc; simpl; [|auto].
  rewrite E. simpl. rewrite Hc, D. repeat split. now rewrite <- A.
Qed.

Lemma spanDigits_digits (ds rest : list ascii) (c : ascii) :
  forallb isDigit ds = true -> isDigit c = false ->
  spanDigits (ds ++ c :: rest)%list = (ds, c :: rest).
Proof.
  intros D Hc. induction ds as [|d ds IH]; simpl in *.
  - now rewrite Hc.
  - apply andb_true_iff in D as [Hd D]. rewrite Hd, (IH D). reflexivity.
Qed.

Lemma list_ascii_of_string_app (a b : string) :
  list_ascii_of_string (a ++ b)
  = (list_ascii_of_string a ++ list_ascii_of_string b)%list.
Proof. induction a as [|c a IH]; simpl; [reflexivity | now rewrite IH]. Qed.

Lemma string_of_list_ascii_app (a b : list ascii) :
  string_of_list_ascii (a ++ b)%list
  = string_of_list_ascii a ++ string_of_list_ascii b.
Proof. induction a as [|c a IH]; simpl; [reflexivity | now rewrite IH]. Qed.

Lemma allDigits_forallb (d : string) :
  allDigits d = forallb isDigit (list_ascii_of_string d).
Proof. induction d as [|c d IH]; simpl; [reflexivity | now rewrite IH]. Qed.

Lemma forallb_rev {A : Type} (f : A -> bool) (l : list A) :
  forallb f (rev l) = forallb f l.
Proof.
  induction l as [|x l IH]; simpl; [reflexivity|].
  rewrite forallb_app, IH. simpl. rewrite andb_true_r. apply andb_comm.
Qed.

End RemoveSuffixFacts.

(** X1. [removeSuffix] undoes the appending of an underscore and a
    decimal number: from [base_<digits>] it gives [base] back, whatever
    [base] is. *)
Theorem removeSuffix_strips_decimal_suffix (base digits : string) :
  isDecimal digits = true ->
  removeSuffix (base ++ "_" ++ digits) = base.
Proof.
  intros D. unfold isDecimal in D. apply andb_true_iff in D as [N A].
  unfold removeSuffix.
  rewrite list_ascii_of_string_app. simpl list_ascii_of_string.
  rewrite rev_app_distr. simpl rev. rewrite <- app_assoc. simpl app.
  rewrite spanDigits_digits;
    [| rewrite forallb_rev, <- allDigits_forallb; exact A | reflexivity].
  destruct (rev (list_ascii_of_string digits)) eqn:R.
  - destruct digits; [discriminate|]. simpl in R.
    apply app_eq_nil in R as [_ R]. discriminate.
  - simpl. rewrite rev_involutive. apply string_of_list_ascii_of_string.
Qed.

Lemma removeSuffix_strips_decimal_suffix_witness :
  removeSuffix ("tls_1" ++ "_" ++ "42") = "tls_1".
Proof.
  apply (removeSuffix_strips_decimal_suffix "tls_1" "42"). reflexivity.
Defined.

(** X2. [removeSuffix] removes nothing else: its result is the name
    itself, or the name is the result followed by an underscore and a
    decimal number. *)
Theorem removeSuffix_only_strips_decimal_suffix (s : string) :
  removeSuffix s = s
  \/ exists digits,
       isDecimal digits = true /\ s = removeSuffix s ++ "_" ++ digits.
Proof.
  unfold removeSuffix.
  destruct (spanDigits_app (rev (list_ascii_of_string s))) as (E & A & D).
  rewrite E.
  destruct (fst (spanDigits (rev (list_ascii_of_string s)))) as [|d ds] eqn:F;
    [now left|].
  destruct (snd (spanDigits (rev (list_ascii_of_string s)))) as [|c rest] eqn:S;
    [now left|].
  destruct (Ascii.eqb_spec c "_"%char) as [->|Hc]; [|now left].
  right. exists (string_of_list_ascii (rev (d :: ds))).
  assert (L : list_ascii_of_string s
              = (rev rest ++ "_"%char :: rev (d :: ds))%list).
  { rewrite <- (rev_involutive (list_ascii_of_string s)), A.
    rewrite rev_app_distr. simpl rev at 1. now rewrite <- app_assoc. }
  split.
  - unfold isDecimal. apply andb_true_iff. split.
    + simpl. destruct (rev ds); reflexivity.
    + rewrite allDigits_forallb, list_ascii_of_string_of_list_ascii.
      rewrite forallb_rev. exact D.
  - rewrite <- (string_of_list_ascii_of_string s) at 1. rewrite L.
    rewrite string_of_list_ascii_app. reflexivity.
Qed.

Section ArgumentFacts.

Lemma fields_clean (s : string) :
  Forall (fun f => cleanArg f = true) (fields s).
Proof.
  induction s as [|c s IH]; simpl; [constructor|].
  destruct (isSpace c) eqn:Hc; [exact IH|].
  assert (C1 : cleanArg (String c "") = true)
    by (unfold cleanArg; simpl; now rewrite Hc).
  destruct s as [|c' s']; [now repeat constructor|].
  destruct (isSpace c') eqn:Hc'; [now constructor|].
  destruct (fields (String c' s')) as [|f fs]; [now repeat constructor|].
  inversion IH as [|? ? Hf Hfs]; subst.
  constructor; [|exact Hfs].
  unfold cleanArg in *. simpl. rewrite Hc. simpl.
  now apply andb_true_iff in Hf as [_ Hf].
Qed.

Lemma fields_space (c : ascii) (s : string) :
  isSpace c = true -> fields (String c s) = fields s.
Proof. intros H. simpl. now rewrite H. Qed.

(** A clean argument in front of whitespace, or at the end of the text,
    is a field of its own. *)
Lemma fields_app_clean (a : string) :
  forall t,
    cleanArg a = true ->
    (t = "" \/ startsWithSpace t = true) ->
    fields (a ++ t) = a :: fields t.
Proof.
  induction a as [|c a IH]; intros t C T; [discriminate|].
  unfold cleanArg in C. simpl in C.
  apply andb_true_iff in C as [Hc Ha]. apply negb_true_iff in Hc.
  destruct a as [|c' a'].
  - simpl append.
    destruct t as [|c' t']; [simpl; now rewrite Hc|].
    destruct T as [T|T]; [discriminate|]. simpl in T.
    change (fields (String c (String c' t')))
      with (if isSpace c then fields (String c' t')
            else if isSpace c' then String c "" :: fields (String c' t')
                 else match fields (String c' t') with
                      | f :: fs => String c f :: fs
                      | [] => [String c ""]
                      end).
    now rewrite Hc, T.
  - assert (Hc' : isSpace c' = false).
    { simpl in Ha. apply andb_true_iff in Ha as [Hc' _].
      now apply negb_true_iff in Hc'. }
    assert (C' : cleanArg (String c' a') = true) by exact Ha.
    specialize (IH t C' T).
    change (fields (String c (String c' a') ++ t))
      with (if isSpace c then fields (String c' a' ++ t)
            else if isSpace c' then String c "" :: fields (String c' a' ++ t)
                 else match fields (String c' a' ++ t) with
                      | f :: fs => String c f :: fs
                      | [] => [String c ""]
                      end).
    now rewrite Hc, Hc', IH.
Qed.

Lemma endsWithSpace_app (a t : string) :
  t <> "" -> endsWithSpace (a ++ t) = endsWithSpace t.
Proof.
  intros Ht. induction a as [|c a IH]; [reflexivity|].
  simpl append.
  destruct (a ++ t) eqn:E.
  - destruct a; [simpl in E; congruence | discriminate].
  - exact IH.
Qed.

Lemma endsWithSpace_noSpace (a : string) :
  noSpace a = true -> endsWithSpace a = false.
Proof.
  induction a as [|c a IH]; [reflexivity|].
  simpl. intros H. apply andb_true_iff in H as [Hc Ha].
  destruct a; [now apply negb_true_iff in Hc | now apply IH].
Qed.

(** The text [strings.Join] makes of clean arguments: its fields are the
    arguments, and it neither starts nor ends with whitespace. *)
Lemma fields_Join (l : list string) :
  Forall (fun a => cleanArg a = true) l ->
  fields (Join l " ") = l
  /\ startsWithSpace (Join l " ") = false
  /\ endsWithSpace (Join l " ") = false.
Proof.
  unfold Join.
  induction l as [|a l IH]; intros F; [repeat split|].
  inversion F as [|? ? Ca Fl]; subst.
  destruct (IH Fl) as (IHf & _ & IHe).
  assert (Sa : startsWithSpace a = false).
  { destruct a as [|c a']; [discriminate|].
    unfold cleanArg in Ca. simpl in Ca.
    apply andb_true_iff in Ca as [Hc _]. now apply negb_true_iff in Hc. }
  assert (Na : noSpace a = true)
    by (unfold cleanArg in Ca; now apply andb_true_iff in Ca as [_ Ha]).
  destruct l as [|b l].
  - simpl String.concat. split; [|split].
    + rewrite <- (append_nil_r a) at 1.
      rewrite fields_app_clean; [reflexivity | exact Ca | now left].
    + exact Sa.
    + now apply endsWithSpace_noSpace.
  - change (String.concat " " (a :: b :: l))
      with (a ++ String " " (String.concat " " (b :: l))).
    split; [|split].
    + rewrite fields_app_clean; [|exact Ca | now right].
      rewrite fields_space by reflexivity. now rewrite IHf.
    + destruct a; [discriminate | exact Sa].
    + rewrite endsWithSpace_app by discriminate.
      destruct (String.concat " " (b :: l)) eqn:E; [|exact IHe].
      exfalso. clear -E Fl. inversion Fl as [|? ? Cb _]; subst.
      destruct b; [discriminate|]. destruct l; discriminate.
Qed.

Lemma noSpace_clean (a : string) : cleanArg a = true -> noSpace a = true.
Proof. unfold cleanArg. intros H. now apply andb_true_iff in H as [_ H]. Qed.

End ArgumentFacts.

(** X3. No argument [parseArgs] gives holds a whitespace byte. *)
Theorem parseArgs_arguments_without_whitespace (text : string) :
  Forall (fun a => noSpace a = true) (parseArgs text).
Proof.
  rewrite parseArgs_regSplit.
  destruct text as [|c s]; [constructor|].
  rewrite regSplit_splitRuns, (proj1 (splitRuns_fields (String c s))).
  unfold leadingArg, trailingArg.
  rewrite !Forall_app. split; [|split].
  - destruct (startsWithSpace _); repeat constructor.
  - eapply Forall_impl; [|apply fields_clean].
    intros a. apply noSpace_clean.
  - destruct (endsWithSpace _); repeat constructor.
Qed.

(** X4. Arguments that are not empty and hold no whitespace, joined with
    single spaces as [strings.Join] joins them, are read back by
    [parseArgs] as they were. *)
Theorem parseArgs_Join_round_trip (l : list string) :
  Forall (fun a => cleanArg a = true) l ->
  parseArgs (Join l " ") = l.
Proof.
  intros F. destruct (fields_Join l F) as (Hf & Hs & He).
  rewrite parseArgs_regSplit.
  destruct (Join l " ") as [|c s] eqn:E.
  - simpl in Hf. congruence.
  - rewrite regSplit_splitRuns, (proj1 (splitRuns_fields (String c s))).
    unfold leadingArg, trailingArg. rewrite Hs, He, Hf.
    simpl. apply app_nil_r.
Qed.

Lemma parseArgs_Join_round_trip_witness :
  parseArgs (Join ["/"; "10.0.0.5:8080"; "10.0.0.6:8080"] " ")
  = ["/"; "10.0.0.5:8080"; "10.0.0.6:8080"].
Proof.
  apply (parseArgs_Join_round_trip ["/"; "10.0.0.5:8080"; "10.0.0.6:8080"]).
  repeat constructor.
Defined.

Section LineFacts.

Lemma concat_empty_cons (x : string) (xs : list string) :
  String.concat "" (x :: xs) = x ++ String.concat "" xs.
Proof. destruct xs; simpl; [now rewrite append_nil_r | reflexivity]. Qed.

Lemma writeArgs_succ (l : list string) :
  forall i, writeArgs (S i) l = String.concat "" (map (fun a => " " ++ a) l).
Proof.
  induction l as [|a l IH]; intros i; [reflexivity|].
  cbn [map]. rewrite concat_empty_cons, <- (IH (S i)). reflexivity.
Qed.

Lemma Join_cons (a : string) (l : list string) :
  Join (a :: l) " " = a ++ String.concat "" (map (fun b => " " ++ b) l).
Proof.
  unfold Join. revert a.
  induction l as [|b l IH]; intros a; [simpl; now rewrite append_nil_r|].
  change (String.concat " " (a :: b :: l))
    with (a ++ " " ++ String.concat " " (b :: l)).
  cbn [map]. rewrite concat_empty_cons, (IH b). reflexivity.
Qed.

(** The loop over the arguments writes what [strings.Join] gives. *)
Lemma writeArgs_Join (l : list string) : writeArgs 0 l = Join l " ".
Proof.
  destruct l as [|a l]; [reflexivity|].
  rewrite Join_cons. simpl. now rewrite writeArgs_succ.
Qed.

End LineFacts.

(** X5. A directive without children is written as one line: the
    indentation of two spaces per level, then its name, if it has one,
    and its arguments, separated by single spaces, then a line feed. *)
Theorem writeDirective_leaf_line (directive : directiveData) (level : nat) :
  children directive = [] ->
  writeDirective directive level
  = Repeat " " (level * 2) ++ Join (lineWords directive) " " ++ nl.
Proof.
  intros C. rewrite writeDirective_eq, C. unfold lineWords.
  cbn [List.length Nat.ltb Nat.leb]. f_equal.
  destruct (nonEmpty (name directive)) eqn:N.
  - destruct (args directive) as [|a l] eqn:A.
    + simpl. unfold Join. simpl. reflexivity.
    + rewrite writeArgs_Join. cbn [List.length Nat.ltb Nat.leb andb].
      rewrite (Join_cons (name directive)), (Join_cons a).
      cbn [map]. rewrite concat_empty_cons.
      rewrite !append_assoc. reflexivity.
  - destruct (args directive) as [|a l] eqn:A; [reflexivity|].
    rewrite writeArgs_Join. reflexivity.
Qed.

Lemma writeDirective_leaf_line_witness :
  writeDirective (Directive "proxy" ["/"; "10.0.0.5:8080"] []) 1
  = Repeat " " (1 * 2)
    ++ Join (lineWords (Directive "proxy" ["/"; "10.0.0.5:8080"] [])) " " ++ nl.
Proof.
  apply (writeDirective_leaf_line (Directive "proxy" ["/"; "10.0.0.5:8080"] []) 1).
  reflexivity.
Defined.

(** ** Further properties: the merge *)

Section MergeKeyFacts.
Variable entropy : nat -> draw.

Lemma In_getKeys_mapSet {V : Type} (k k' : string) (v : V)
      (m : list (string * V)) :
  In k' (getKeys (mapSet k v m)) <-> k' = k \/ In k' (getKeys m).
Proof.
  induction m as [|[k0 v0] m IH]; simpl.
  - intuition.
  - destruct (String.eqb_spec k k0) as [->|Hne]; simpl.
    + intuition.
    + rewrite IH. intuition.
Qed.

(** What one step of the loop does to the keys and to the number of
    suffixes. *)
Lemma mergeChild_keys (m : directiveMap) (n : nat) (kb : string)
      (b : directiveData) :
  let r := mergeChild entropy (m, n) (kb, b) in
  (forall k, In k (getKeys m) -> In k (getKeys (fst r)))
  /\ (forall k, In k (getKeys (fst r)) ->
                In k (getKeys m) \/ k = kb
                \/ (k = renamedKey kb (entropy n) /\ snd r = S n))
  /\ (snd r = n \/ snd r = S n).
Proof.
  unfold mergeChild.
  destruct (mapGet kb m) as [a|].
  - destruct (sameProxy a b); cbn [fst snd].
    + split; [|split; [|now left]].
      * intros k H. apply In_getKeys_mapSet. now right.
      * intros k H. apply In_getKeys_mapSet in H. intuition.
    + destruct (directivesAreSimilar a b); cbn [fst snd].
      * repeat split; auto.
      * split; [|split; [|now right]].
        -- intros k H. apply In_getKeys_mapSet. now right.
        -- intros k H. apply In_getKeys_mapSet in H. intuition.
  - cbn [fst snd]. split; [|split; [|now left]].
    + intros k H. apply In_getKeys_mapSet. now right.
    + intros k H. apply In_getKeys_mapSet in H. intuition.
Qed.

Lemma mergeLoop_keys (bs : directiveMap) :
  forall (m : directiveMap) (n : nat),
    let r := mergeLoop entropy bs (m, n) in
    (forall k, In k (getKeys m) -> In k (getKeys (fst r)))
    /\ (forall k, In k (getKeys (fst r)) ->
                  In k (getKeys m) \/ In k (getKeys bs)
                  \/ exists kb i,
                       In kb (getKeys bs) /\ n <= i < snd r
                       /\ k = renamedKey kb (entropy i))
    /\ n <= snd r <= n + List.length bs.
Proof.
  induction bs as [|[kb b] bs IH]; intros m n.
  - cbn. repeat split; auto; lia.
  - cbn zeta. rewrite mergeLoop_cons.
    pose proof (mergeChild_keys m n kb b) as (K1 & K2 & K3). cbn zeta in *.
    destruct (mergeChild entropy (m, n) (kb, b)) as [m1 n1]. cbn [fst snd] in *.
    destruct (IH m1 n1) as (I1 & I2 & I3). cbn zeta in *.
    split; [|split].
    + intros k H. apply I1, K1, H.
    + intros k H. apply I2 in H.
      destruct H as [H|[H|(kb' & i & Hkb & Hi & Hk)]].
      * apply K2 in H. destruct H as [H|[H|[H Hn]]].
        -- now left.
        -- right. left. simpl. now left.
        -- right. right. exists kb, n. simpl. repeat split; auto; lia.
      * right. left. simpl. now right.
      * right. right. exists kb', i. simpl. repeat split; auto; lia.
    + simpl List.length. lia.
Qed.

Lemma mergeLoop_adopts (k : string) (b : directiveData) (bs : directiveMap) :
  forall (m : directiveMap) (n : nat),
    NoDup (getKeys bs) ->
    mapGet k bs = Some b ->
    mapGet k m = None ->
    (forall k' i, In k' (getKeys bs) -> renamedKey k' (entropy i) <> k) ->
    mapGet k (fst (mergeLoop entropy bs (m, n))) = Some b.
Proof.
  induction bs as [|[k0 b0] bs IH]; intros m n ND Hb Hm Hfresh;
    [discriminate|].
  inversion ND as [|? ? Hnot ND']; subst.
  simpl in Hb. rewrite mergeLoop_cons.
  destruct (String.eqb_spec k k0) as [->|Hne].
  - injection Hb as ->. unfold mergeChild. rewrite Hm.
    rewrite mergeLoop_keeps_binding; [apply mapGet_mapSet_same | exact Hnot |].
    intros k' i H. apply Hfresh. now right.
  - assert (Hf0 : renamedKey k0 (entropy n) <> k)
      by (apply Hfresh; now left).
    pose proof (mergeChild_other_key entropy k k0 b0 m n (not_eq_sym Hne) Hf0)
      as Hget.
    destruct (mergeChild entropy (m, n) (k0, b0)) as [m1 n1].
    simpl in Hget. apply IH; auto.
    + congruence.
    + intros k' i H. apply Hfresh. now right.
Qed.

Lemma mergeLoop_duplicates (bs : directiveMap) :
  forall (m : directiveMap) (n : nat),
    (forall k b, In (k, b) bs ->
                 exists a, mapGet k m = Some a /\ args a = args b
                           /\ sameProxy a b = false) ->
    mergeLoop entropy bs (m, n) = (m, n).
Proof.
  induction bs as [|[k b] bs IH]; intros m n H; [reflexivity|].
  rewrite mergeLoop_cons.
  destruct (H k b (or_introl eq_refl)) as (a & Ha & Hargs & Hp).
  unfold mergeChild at 1. rewrite Ha, Hp.
  rewrite (proj2 (directivesAreSimilar_spec a b) Hargs).
  apply IH. intros k' b' I. apply H. now right.
Qed.

End MergeKeyFacts.

(** X6. Merging B into A keeps the name and the arguments of A and every
    key of A's children; a key of the result that A did not have is a key
    of B or the renamed key of a child of B, made with a suffix drawn
    during this merge; and at most one suffix is drawn for each child of
    B. *)
Theorem mergeDirectives_keys
        (entropy : nat -> draw) (A B : directiveData) (calls : nat) :
  exists (C : directiveData) (calls' : nat),
    mergeDirectives entropy (Some A) (Some B) calls = (Some C, calls')
    /\ name C = name A
    /\ args C = args A
    /\ (forall k, In k (getKeys (children A)) -> In k (getKeys (children C)))
    /\ (forall k, In k (getKeys (children C)) ->
                  In k (getKeys (children A)) \/ In k (getKeys (children B))
                  \/ exists kb i,
                       In kb (getKeys (children B)) /\ calls <= i < calls'
                       /\ k = renamedKey kb (entropy i))
    /\ calls <= calls' <= calls + List.length (children B).
Proof.
  unfold mergeDirectives.
  pose proof (mergeLoop_keys entropy (children B) (children A) calls) as H.
  cbn zeta in H.
  destruct (mergeLoop entropy (children B) (children A, calls)) as [m n].
  cbn [fst snd] in H. destruct H as (H1 & H2 & H3).
  exists (Directive (name A) (args A) m), n.
  repeat split; auto; lia.
Qed.

(** X7. A child of B under a key that A does not have is adopted as it
    is, under that key, in whatever order the children of B are merged,
    as long as no suffix drawn for another child of B makes up that very
    key. *)
Theorem mergeDirectives_adopts_new_child
        (entropy : nat -> draw) (A B : directiveData) (calls : nat)
        (k : string) (b : directiveData) :
  NoDup (getKeys (children B)) ->
  mapGet k (children B) = Some b ->
  mapGet k (children A) = None ->
  (forall k' i, In k' (getKeys (children B)) ->
                renamedKey k' (entropy i) <> k) ->
  exists (C : directiveData) (calls' : nat),
    mergeDirectives entropy (Some A) (Some B) calls = (Some C, calls')
    /\ mapGet k (children C) = Some b.
Proof.
  intros ND Hb Ha Hfresh. unfold mergeDirectives.
  pose proof (mergeLoop_adopts entropy k b (children B) (children A) calls
                ND Hb Ha Hfresh) as H.
  destruct (mergeLoop entropy (children B) (children A, calls)) as [m n].
  exists (Directive (name A) (args A) m), n. split; [reflexivity | exact H].
Qed.

Lemma mergeDirectives_adopts_new_child_witness :
  exists (C : directiveData) (calls' : nat),
    mergeDirectives entropyEx (Some siteInternal)
                    (Some (Directive "site.com" [] [("gzip", gzip)])) 0
    = (Some C, calls')
    /\ mapGet "gzip" (children C) = Some gzip.
Proof.
  apply (mergeDirectives_adopts_new_child entropyEx siteInternal
           (Directive "site.com" [] [("gzip", gzip)]) 0 "gzip" gzip).
  - repeat constructor; simpl; intuition discriminate.
  - reflexivity.
  - reflexivity.
  - intros k' i [<-|[]]. unfold renamedKey.
    change (removeSuffix "gzip") with "gzip". cbn [append]. discriminate.
Defined.

(** X8. Merging a B whose children all repeat a child of A, under the
    same key and with the same arguments, and are not the same proxy
    route, changes nothing in A and draws no suffix. *)
Theorem mergeDirectives_ignores_duplicates
        (entropy : nat -> draw) (A B : directiveData) (calls : nat) :
  (forall k b, In (k, b) (children B) ->
               exists a, mapGet k (children A) = Some a
                         /\ args a = args b /\ sameProxy a b = false) ->
  mergeDirectives entropy (Some A) (Some B) calls = (Some A, calls).
Proof.
  intros H. unfold mergeDirectives.
  rewrite (mergeLoop_duplicates entropy (children B) (children A) calls H).
  destruct A; reflexivity.
Qed.

Lemma mergeDirectives_ignores_duplicates_witness :
  mergeDirectives entropyEx (Some siteInternal) (Some siteInternal) 0
  = (Some siteInternal, 0).
Proof.
  apply (mergeDirectives_ignores_duplicates entropyEx siteInternal siteInternal 0).
  intros k b [[= <- <-]|[]].
  exists tlsInternal. repeat split.
Defined.

(** ** Further properties: labels *)

Section PathFacts.

Lemma directive_eta (d : directiveData) :
  Directive (name d) (args d) (children d) = d.
Proof. destruct d; reflexivity. Qed.

Lemma mapSet_same {V : Type} (k : string) (v : V) (m : list (string * V)) :
  mapGet k m = Some v -> mapSet k v m = m.
Proof.
  induction m as [|[k' v'] m IH]; simpl; [discriminate|].
  destruct (String.eqb_spec k k') as [->|Hne].
  - now intros [= ->].
  - intros H. f_equal. now apply IH.
Qed.

(** A path that is there already is left as it is. *)
Lemma getOrCreatePath_found (segments : list string) :
  forall (m : directiveMap) (i : nat) (skip : bool) (d : directiveData),
    directiveAt segments m = Some d ->
    getOrCreatePath segments i skip m = m.
Proof.
  induction segments as [|p rest IH]; intros m i skip d H; [reflexivity|].
  simpl in *. destruct (mapGet p m) as [d0|] eqn:G; [|discriminate].
  apply mapSet_same. rewrite G. f_equal.
  destruct rest as [|q rest'].
  - simpl. symmetry. apply directive_eta.
  - rewrite (IH (children d0) (S i) skip d H). symmetry. apply directive_eta.
Qed.

Lemma createdName_cons (p q : string) (rest : list string) (i : nat)
      (skip : bool) :
  createdName (p :: q :: rest) i skip = createdName (q :: rest) (S i) skip.
Proof.
  unfold createdName. cbn [List.length last].
  replace (i + (S (S (List.length rest)) - 1))
    with (S i + (S (List.length rest) - 1)) by lia.
  reflexivity.
Qed.

(** After the loop the path is there; where it was not, its end is a new
    directive without arguments and children. *)
Lemma getOrCreatePath_creates (segments : list string) :
  forall (m : directiveMap) (i : nat) (skip : bool),
    segments <> [] ->
    exists d,
      directiveAt segments (getOrCreatePath segments i skip m) = Some d
      /\ (directiveAt segments m = None ->
          d = Directive (createdName segments i skip) [] []).
Proof.
  induction segments as [|p rest IH]; intros m i skip Hne; [congruence|].
  cbn [getOrCreatePath directiveAt].
  destruct (mapGet p m) as [d0|] eqn:G; rewrite mapGet_mapSet_same.
  - destruct rest as [|q rest'].
    + eexists. split; [reflexivity | discriminate].
    + destruct (IH (children d0) (S i) skip ltac:(discriminate))
        as (d & Hd & Hnew).
      exists d. split; [exact Hd|].
      intros Hnone. rewrite (Hnew Hnone). now rewrite createdName_cons.
  - destruct rest as [|q rest'].
    + eexists. split; [reflexivity|]. intros _. unfold createdName.
      cbn [List.length last getOrCreatePath].
      now rewrite Nat.sub_diag, Nat.add_0_r.
    + destruct (IH [] (S i) skip ltac:(discriminate)) as (d & Hd & Hnew).
      exists d. split; [exact Hd|].
      intros _. rewrite (Hnew eq_refl). now rewrite createdName_cons.
Qed.

(** Creating a path leaves the name and the arguments of every directive
    that was there. *)
Lemma getOrCreatePath_preserves (q : list string) :
  forall (p : list string) (m : directiveMap) (i : nat) (skip : bool)
         (d : directiveData),
    directiveAt q m = Some d ->
    exists d',
      directiveAt q (getOrCreatePath p i skip m) = Some d'
      /\ name d' = name d /\ args d' = args d.
Proof.
  induction q as [|q0 qrest IH]; intros p m i skip d H; [discriminate|].
  cbn [directiveAt] in H.
  destruct (mapGet q0 m) as [d0|] eqn:G; [|discriminate].
  destruct p as [|p0 prest].
  - exists d. cbn [getOrCreatePath directiveAt]. rewrite G. auto.
  - cbn [getOrCreatePath directiveAt].
    destruct (String.eqb_spec q0 p0) as [->|Hne].
    + rewrite G, mapGet_mapSet_same.
      destruct qrest as [|q1 qrest'].
      * injection H as <-. eexists. split; [reflexivity|]. auto.
      * cbn [children]. now apply IH.
    + assert (E : forall D, mapGet q0 (mapSet p0 D m) = Some d0)
        by (intros D; now rewrite mapGet_mapSet_other).
      destruct (mapGet p0 m); rewrite E; exists d; auto.
Qed.

(** A write of arguments through a pointer leaves the name and the
    arguments of the directives at the other paths. *)
Lemma updateAt_setArgs_preserves (newArgs : list string) (q : list string) :
  forall (p : list string) (m : directiveMap) (d : directiveData),
    directiveAt q m = Some d ->
    p <> q ->
    exists d',
      directiveAt q (updateAt p (setArgs newArgs) m) = Some d'
      /\ name d' = name d /\ args d' = args d.
Proof.
  induction q as [|q0 qrest IH]; intros p m d H Hpq; [discriminate|].
  cbn [directiveAt] in H.
  destruct (mapGet q0 m) as [d0|] eqn:G; [|discriminate].
  assert (Same : exists d', directiveAt (q0 :: qrest) m = Some d'
                            /\ name d' = name d /\ args d' = args d).
  { exists d. cbn [directiveAt]. rewrite G. auto. }
  destruct p as [|p0 prest]; [exact Same|].
  cbn [updateAt].
  destruct (mapGet p0 m) as [dp|] eqn:Gp; [|exact Same].
  destruct (String.eqb_spec q0 p0) as [->|Hne].
  - assert (dp = d0) by congruence. subst dp.
    destruct prest as [|p1 prest']; cbn [directiveAt];
      rewrite mapGet_mapSet_same.
    + destruct qrest as [|q1 qrest']; [congruence|].
      exists d. auto.
    + destruct qrest as [|q1 qrest'].
      * injection H as <-. eexists. split; [reflexivity|]. auto.
      * cbn [children]. apply IH; [exact H | congruence].
  - destruct prest as [|p1 prest']; cbn [directiveAt];
      rewrite mapGet_mapSet_other by assumption; rewrite G; exists d; auto.
Qed.

Lemma updateAt_setArgs_at (newArgs : list string) (p : list string) :
  forall (m : directiveMap) (d : directiveData),
    directiveAt p m = Some d ->
    directiveAt p (updateAt p (setArgs newArgs) m) = Some (setArgs newArgs d).
Proof.
  induction p as [|p0 prest IH]; intros m d H; [discriminate|].
  cbn [directiveAt updateAt] in *.
  destruct (mapGet p0 m) as [d0|] eqn:G; [|discriminate].
  destruct prest as [|p1 prest'].
  - injection H as <-. cbn [directiveAt]. now rewrite mapGet_mapSet_same.
  - cbn [directiveAt]. rewrite mapGet_mapSet_same. cbn [children].
    now apply IH.
Qed.

Lemma Split_not_nil (s : string) (sep : ascii) : Split s sep <> [].
Proof.
  destruct s as [|c s]; simpl; [discriminate|].
  destruct (Ascii.eqb c sep); [discriminate|].
  destruct (Split s sep); discriminate.
Qed.

(** Joining the pieces with the separator gives the text back. *)
Lemma Join_Split (s : string) (sep : ascii) :
  Join (Split s sep) (String sep "") = s.
Proof.
  unfold Join. induction s as [|c s IH]; [reflexivity|].
  cbn [Split].
  pose proof (Split_not_nil s sep) as N.
  destruct (Ascii.eqb_spec c sep) as [->|Hne].
  - destruct (Split s sep) as [|piece pieces]; [congruence|].
    change (String.concat (String sep "") ("" :: piece :: pieces))
      with (String sep (String.concat (String sep "") (piece :: pieces))).
    now rewrite IH.
  - destruct (Split s sep) as [|piece pieces]; [congruence|].
    rewrite <- IH. destruct pieces; reflexivity.
Qed.

Lemma Split_inj (s s' : string) (sep : ascii) :
  Split s sep = Split s' sep -> s = s'.
Proof.
  intros E. rewrite <- (Join_Split s sep), <- (Join_Split s' sep).
  now rewrite E.
Qed.

End PathFacts.

(** X9. [getOrCreateDirective] returns the directive that the path
    already leads to without changing the map; so calling it again with
    the same path changes nothing. *)
Theorem getOrCreateDirective_finds_existing
        (m : directiveMap) (path : string) (skip : bool) (d : directiveData) :
  directiveAt (Split path ".") m = Some d ->
  fst (getOrCreateDirective m path skip) = m
  /\ directiveAt (snd (getOrCreateDirective m path skip))
                 (fst (getOrCreateDirective m path skip)) = Some d.
Proof.
  intros H. unfold getOrCreateDirective. cbn [fst snd].
  rewrite (getOrCreatePath_found _ m 0 skip d H). auto.
Qed.

Lemma getOrCreateDirective_finds_existing_witness :
  fst (getOrCreateDirective (children routeA) "proxy" false) = children routeA
  /\ directiveAt (snd (getOrCreateDirective (children routeA) "proxy" false))
                 (fst (getOrCreateDirective (children routeA) "proxy" false))
     = Some (Directive "proxy" ["/"; "10.0.0.1:80"] []).
Proof.
  apply (getOrCreateDirective_finds_existing (children routeA) "proxy" false
           (Directive "proxy" ["/"; "10.0.0.1:80"] [])).
  reflexivity.
Defined.

(** X10. The pointer [getOrCreateDirective] returns always leads to a
    directive of the map it leaves.  When the path was not there, that
    directive is new, without arguments and children, named by the last
    segment of the path with its numeric suffix removed, and without a
    name when the path has one segment and the name of the first
    directive is to be skipped.  The directives that were there keep
    their names and arguments. *)
Theorem getOrCreateDirective_creates_missing
        (m : directiveMap) (path : string) (skip : bool) :
  (exists d,
      directiveAt (snd (getOrCreateDirective m path skip))
                  (fst (getOrCreateDirective m path skip)) = Some d
      /\ (directiveAt (Split path ".") m = None ->
          d = Directive
                (if negb skip
                    || (0 <? List.length (Split path ".") - 1)%nat
                 then removeSuffix (last (Split path ".") "") else "")
                [] []))
  /\ (forall q d0,
         directiveAt q m = Some d0 ->
         exists d',
           directiveAt q (fst (getOrCreateDirective m path skip)) = Some d'
           /\ name d' = name d0 /\ args d' = args d0).
Proof.
  unfold getOrCreateDirective. cbn [fst snd]. split.
  - destruct (getOrCreatePath_creates (Split path ".") m 0 skip
                (Split_not_nil path "."))
      as (d & Hd & Hnew).
    exists d. split; [exact Hd | exact Hnew].
  - intros q d0 H. now apply getOrCreatePath_preserves.
Qed.

Section LabelFacts.
Variable template : Type.
Variable data : Type.
Variable templateParse : string -> template + string.
Variable templateExecute : template -> data -> string.
Variable labelRegex : string -> bool.
Variable templateData : data.

Let expand (value : string) : string :=
  fst (processVariables template data templateParse templateExecute
                        templateData value).
Let step := convertLabel template data templateParse templateExecute
                         labelRegex templateData.

(** One label that the expression accepts: afterwards its path leads to a
    directive with the arguments of its value. *)
Lemma convertLabel_sets_args (acc : directiveMap * list string)
      (label value : string) :
  labelRegex label = true ->
  exists d,
    directiveAt (Split label ".") (fst (step acc (label, value))) = Some d
    /\ args d = parseArgs (expand value).
Proof.
  intros R. unfold step, convertLabel, expand.
  destruct acc as [m logged]. rewrite R. cbn [negb].
  unfold getOrCreateDirective.
  destruct (processVariables template data templateParse templateExecute
                             templateData value) as [argsText lines].
  cbn [fst].
  destruct (getOrCreatePath_creates (Split label ".") m 0 true
              (Split_not_nil label ".")) as (d & Hd & _).
  eexists. split; [apply updateAt_setArgs_at; exact Hd | reflexivity].
Qed.

(** One label leaves the arguments at the paths of the other labels. *)
Lemma convertLabel_preserves_args (acc : directiveMap * list string)
      (label value : string) (q : list string) (d : directiveData) :
  Split label "." <> q ->
  directiveAt q (fst acc) = Some d ->
  exists d',
    directiveAt q (fst (step acc (label, value))) = Some d'
    /\ args d' = args d.
Proof.
  intros Hq H. unfold step, convertLabel.
  destruct acc as [m logged]. cbn [fst] in H.
  destruct (labelRegex label); cbn [negb]; [|exists d; auto].
  unfold getOrCreateDirective.
  destruct (processVariables template data templateParse templateExecute
                             templateData value) as [argsText lines].
  cbn [fst].
  destruct (getOrCreatePath_preserves q (Split label ".") m 0 true d H)
    as (d1 & H1 & _ & A1).
  destruct (updateAt_setArgs_preserves (parseArgs argsText) q
              (Split label ".") _ d1 H1 Hq) as (d2 & H2 & _ & A2).
  exists d2. split; [exact H2 | congruence].
Qed.

Lemma fold_convertLabel_preserves_args (labels : list (string * string)) :
  forall (acc : directiveMap * list string) (label : string)
         (d : directiveData),
    ~ In label (map fst labels) ->
    directiveAt (Split label ".") (fst acc) = Some d ->
    exists d',
      directiveAt (Split label ".") (fst (fold_left step labels acc)) = Some d'
      /\ args d' = args d.
Proof.
  induction labels as [|[l v] labels IH]; intros acc label d Hn H.
  - exists d. auto.
  - cbn [fold_left].
    destruct (convertLabel_preserves_args acc l v (Split label ".") d)
      as (d1 & H1 & A1); [|exact H|].
    + intros E. apply Split_inj in E. apply Hn. now left.
    + destruct (IH (step acc (l, v)) label d1) as (d2 & H2 & A2);
        [intros I; apply Hn; now right | exact H1 |].
      exists d2. split; [exact H2 | congruence].
Qed.

Lemma fold_convertLabel_sets_args (labels : list (string * string)) :
  forall (acc : directiveMap * list string) (label value : string),
    NoDup (map fst labels) ->
    In (label, value) labels ->
    labelRegex label = true ->
    exists d,
      directiveAt (Split label ".") (fst (fold_left step labels acc)) = Some d
      /\ args d = parseArgs (expand value).
Proof.
  induction labels as [|[l v] labels IH]; intros acc label value ND I R;
    [contradiction|].
  inversion ND as [|? ? Hnot ND']; subst. cbn [fold_left].
  destruct I as [[= -> ->]|I].
  - destruct (convertLabel_sets_args acc label value R) as (d & Hd & Ad).
    destruct (fold_convertLabel_preserves_args labels _ label d Hnot Hd)
      as (d' & Hd' & Ad').
    exists d'. split; [exact Hd' | congruence].
  - now apply IH.
Qed.

(** What is logged stays logged, and every accepted label logs what the
    expansion of its value logs. *)
Lemma convertLabel_logged (acc : directiveMap * list string)
      (entry : string * string) (line : string) :
  In line (snd acc) -> In line (snd (step acc entry)).
Proof.
  unfold step, convertLabel. destruct acc as [m logged], entry as [l v].
  cbn [snd]. intros I.
  destruct (labelRegex l); cbn [negb]; [|exact I].
  destruct (getOrCreateDirective m l true) as [m1 directive].
  destruct (processVariables template data templateParse templateExecute
                             templateData v) as [argsText lines].
  cbn [snd]. apply in_or_app. now left.
Qed.

Lemma fold_convertLabel_logged (labels : list (string * string)) :
  forall (acc : directiveMap * list string) (line : string),
    In line (snd acc) -> In line (snd (fold_left step labels acc)).
Proof.
  induction labels as [|e labels IH]; intros acc line I; [exact I|].
  cbn [fold_left]. apply IH. now apply convertLabel_logged.
Qed.

Lemma fold_convertLabel_logs (labels : list (string * string)) :
  forall (acc : directiveMap * list string) (label value line : string),
    In (label, value) labels ->
    labelRegex label = true ->
    In line (snd (processVariables template data templateParse
                    templateExecute templateData value)) ->
    In line (snd (fold_left step labels acc)).
Proof.
  induction labels as [|[l v] labels IH]; intros acc label value line I R L;
    [contradiction|].
  cbn [fold_left]. destruct I as [[= -> ->]|I].
  - apply fold_convertLabel_logged. unfold step, convertLabel.
    destruct acc as [m logged]. rewrite R. cbn [negb].
    destruct (getOrCreateDirective m label true) as [m1 directive].
    destruct (processVariables template data templateParse templateExecute
                               templateData value) as [argsText lines].
    cbn [snd] in *. apply in_or_app. now right.
  - now apply (IH _ label value).
Qed.

Lemma fold_convertLabel_filter (labels : list (string * string)) :
  forall acc,
    fold_left step labels acc
    = fold_left step (filter (fun e => labelRegex (fst e)) labels) acc.
Proof.
  induction labels as [|[l v] labels IH]; intros acc; [reflexivity|].
  cbn [fold_left filter fst].
  destruct (labelRegex l) eqn:R.
  - cbn [fold_left]. apply IH.
  - rewrite <- IH. f_equal. unfold step, convertLabel.
    destruct acc. now rewrite R.
Qed.

End LabelFacts.

(** X11. In the tree [convertLabelsToDirectives] builds from a map of
    labels, the path of every label that the label expression accepts
    leads to a directive whose arguments are those of the label's value,
    expanded and split, in whatever order the labels are iterated. *)
Theorem convertLabelsToDirectives_sets_arguments
        (template data : Type)
        (templateParse : string -> template + string)
        (templateExecute : template -> data -> string)
        (labelRegex : string -> bool)
        (labels : list (string * string)) (templateData : data)
        (label value : string) :
  NoDup (map fst labels) ->
  In (label, value) labels ->
  labelRegex label = true ->
  exists d,
    directiveAt (Split label ".")
      (fst (convertLabelsToDirectives template data templateParse
              templateExecute labelRegex labels templateData)) = Some d
    /\ args d
       = parseArgs (fst (processVariables template data templateParse
                           templateExecute templateData value)).
Proof.
  intros ND I R. unfold convertLabelsToDirectives.
  now apply fold_convertLabel_sets_args.
Qed.

Lemma convertLabelsToDirectives_sets_arguments_witness :
  exists d,
    directiveAt (Split "caddy.tls" ".")
      (fst (convertLabelsToDirectives string unit toyParse toyExecute
              (labelRegexOf "caddy")
              [("caddy.tls.protocols", "tls1.2 tls1.3");
               ("caddy.tls", "internal"); ("caddy", "example.com")] tt))
    = Some d
    /\ args d
       = parseArgs (fst (processVariables string unit toyParse toyExecute tt
                           "internal")).
Proof.
  apply (convertLabelsToDirectives_sets_arguments string unit toyParse
           toyExecute (labelRegexOf "caddy")
           [("caddy.tls.protocols", "tls1.2 tls1.3");
            ("caddy.tls", "internal"); ("caddy", "example.com")] tt
           "caddy.tls" "internal").
  - repeat constructor; simpl; intuition discriminate.
  - right. left. reflexivity.
  - reflexivity.
Defined.

(** X12. A label that the label expression rejects has no part in what
    [parseDirectives] returns: the result is the one for the accepted
    labels alone. *)
Theorem parseDirectives_ignores_other_labels
        (template data : Type)
        (templateParse : string -> template + string)
        (templateExecute : template -> data -> string)
        (labelRegex : string -> bool)
        (labels : list (string * string)) (templateData : data)
        (getProxyTargets : list string + string) :
  parseDirectives template data templateParse templateExecute labelRegex
                  labels templateData getProxyTargets
  = parseDirectives template data templateParse templateExecute labelRegex
                    (filter (fun e => labelRegex (fst e)) labels)
                    templateData getProxyTargets.
Proof.
  unfold parseDirectives, convertLabelsToDirectives.
  now rewrite fold_convertLabel_filter.
Qed.

Section ParseFacts.

Lemma mapGet_mapDelete {V : Type} (k k' : string) (m : list (string * V)) :
  mapGet k (mapDelete k' m) = if String.eqb k k' then None else mapGet k m.
Proof.
  induction m as [|[k0 v0] m IH]; simpl.
  - now destruct (String.eqb k k').
  - destruct (String.eqb_spec k' k0) as [->|Hne].
    + rewrite IH. destruct (String.eqb_spec k k0); reflexivity.
    + simpl. destruct (String.eqb_spec k k0) as [->|Hne0].
      * destruct (String.eqb_spec k0 k'); [congruence | reflexivity].
      * exact IH.
Qed.

Lemma mapSet_mapSet {V : Type} (k : string) (v v' : V)
      (m : list (string * V)) :
  mapSet k v (mapSet k v' m) = mapSet k v m.
Proof.
  induction m as [|[k0 v0] m IH]; simpl.
  - now rewrite String.eqb_refl.
  - destruct (String.eqb_spec k k0) as [->|Hne]; simpl.
    + now rewrite String.eqb_refl.
    + destruct (String.eqb_spec k k0); [congruence|]. now rewrite IH.
Qed.

Lemma getOrCreatePath_proxy (c : directiveMap) :
  getOrCreateDirective c "proxy" false
  = (match mapGet "proxy" c with
     | Some d => c
     | None => mapSet "proxy" (Directive "proxy" [] []) c
     end, ["proxy"]).
Proof.
  unfold getOrCreateDirective.
  change (Split "proxy" ".") with ["proxy"].
  cbn [getOrCreatePath].
  destruct (mapGet "proxy" c) as [d|] eqn:G; [|reflexivity].
  rewrite directive_eta, (mapSet_same "proxy" d c G). reflexivity.
Qed.

Lemma fold_addArgs (f : string -> string) (targets : list string) :
  forall d,
    fold_left (fun (d0 : directiveData) (target : string) =>
                 addArgs d0 [f target]) targets d
    = Directive (name d) (args d ++ map f targets)%list (children d).
Proof.
  induction targets as [|t ts IH]; intros d; simpl.
  - rewrite app_nil_r. symmetry. apply directive_eta.
  - rewrite IH. unfold addArgs. cbn [name args children].
    now rewrite <- app_assoc.
Qed.

(** The first half of the loop body when the targets are not needed. *)
Lemma synthesizeProxy_not_needed (g : list string + string)
      (d : directiveData) :
  needsTargets d = false ->
  synthesizeProxy g d
  = inl match mapGet "address" (children d) with
        | Some address =>
            if (0 <? List.length (args address))%nat
            then Directive (name d) (args address) (children d)
            else d
        | None => d
        end.
Proof.
  unfold needsTargets, synthesizeProxy.
  destruct (mapGet "address" (children d)) as [address|]; [|reflexivity].
  destruct (0 <? List.length (args address))%nat; [|reflexivity].
  cbn [andb negb]. rewrite getOrCreatePath_proxy.
  destruct (mapGet "proxy" (children d)) as [p|] eqn:G; [|discriminate].
  cbn [directiveAt]. rewrite G. intros L. now rewrite L.
Qed.

(** The first half of the loop body when the targets are needed. *)
Lemma synthesizeProxy_needed (g : list string + string) (d : directiveData) :
  needsTargets d = true ->
  exists address proxy0,
    mapGet "address" (children d) = Some address
    /\ args address <> []
    /\ args proxy0 = []
    /\ synthesizeProxy g d
       = match g with
         | inr err => inr err
         | inl targets =>
             inl (Directive (name d) (args address)
                    (mapSet "proxy"
                       (Directive (name proxy0)
                          ((match firstArg (mapGet "sourcepath" (children d))
                            with Some p => p | None => "/" end)
                           :: map (proxyTargetArg
                                     (mapGet "targetprotocol" (children d))
                                     (mapGet "targetport" (children d))
                                     (mapGet "targetpath" (children d)))
                                  targets)
                          (children proxy0))
                       (children d)))
         end.
Proof.
  unfold needsTargets, synthesizeProxy.
  destruct (mapGet "address" (children d)) as [address|]; [|discriminate].
  destruct (0 <? List.length (args address))%nat eqn:L; [|discriminate].
  cbn [andb negb]. rewrite getOrCreatePath_proxy. intros N.
  assert (Na : args address <> []).
  { destruct (args address); [discriminate | discriminate]. }
  destruct (mapGet "proxy" (children d)) as [p|] eqn:G.
  - exists address, p. apply Nat.eqb_eq in N as N'.
    assert (Ap : args p = []) by (destruct (args p); [reflexivity | discriminate]).
    repeat split; auto.
    cbn [directiveAt updateAt]. rewrite G, N. cbn [negb].
    destruct g as [targets|err]; [|reflexivity].
    rewrite fold_addArgs. unfold addArgs. cbn [name args children].
    rewrite Ap. reflexivity.
  - exists address, (Directive "proxy" [] []).
    repeat split; auto.
    cbn [directiveAt updateAt]. rewrite mapGet_mapSet_same.
    cbn [args List.length Nat.eqb negb].
    destruct g as [targets|err]; [|reflexivity].
    rewrite fold_addArgs. unfold addArgs. cbn [name args children app].
    now rewrite mapSet_mapSet.
Qed.

Lemma parseLoop_error (g : list string + string) (original : directiveMap) :
  forall converted err,
    parseLoop g original converted = inr err
    <-> g = inr err /\ existsb needsTargets (map snd original) = true.
Proof.
  induction original as [|[k d] original IH]; intros converted err.
  - simpl. split; [discriminate | intros [_ H]; discriminate].
  - cbn [parseLoop map snd existsb].
    destruct (needsTargets d) eqn:N.
    + destruct (synthesizeProxy_needed g d N) as (a & p0 & _ & _ & _ & E).
      rewrite E. destruct g as [targets|e].
      * rewrite IH. cbn [orb]. split; intros [H _]; discriminate.
      * cbn [orb]. split; [intros [= ->]; auto | intros [[= ->] _]; reflexivity].
    + rewrite (synthesizeProxy_not_needed g d N). cbn [orb]. apply IH.
Qed.

Lemma moveToMain_result (d : directiveData) :
  name (moveToMain d) = Join (args d) " "
  /\ args (moveToMain d) = []
  /\ (forall r, In r reservedKeys ->
                mapGet r (children (moveToMain d)) = None)
  /\ (forall k, ~ In k reservedKeys ->
                mapGet k (children (moveToMain d)) = mapGet k (children d)).
Proof.
  unfold moveToMain. cbn [name args children]. repeat split.
  - intros r I. rewrite !mapGet_mapDelete.
    unfold reservedKeys in I. simpl in I.
    destruct I as [<-|[<-|[<-|[<-|[<-|[]]]]]]; reflexivity.
  - intros k I. rewrite !mapGet_mapDelete.
    unfold reservedKeys in I. simpl in I.
    repeat match goal with
           | |- context [String.eqb k ?r] =>
               destruct (String.eqb_spec k r); [exfalso; apply I; subst; tauto|]
           end.
    reflexivity.
Qed.

Lemma parseLoop_invariant (g : list string + string)
      (original : directiveMap) :
  forall converted result,
    (forall k d, mapGet k converted = Some d ->
                 name d = k /\ args d = []
                 /\ forall r, In r reservedKeys -> mapGet r (children d) = None) ->
    parseLoop g original converted = inl result ->
    forall k d, mapGet k result = Some d ->
                name d = k /\ args d = []
                /\ forall r, In r reservedKeys -> mapGet r (children d) = None.
Proof.
  induction original as [|[k0 d0] original IH]; intros converted result Hc H.
  - injection H as <-. exact Hc.
  - cbn [parseLoop] in H.
    destruct (synthesizeProxy g d0) as [d1|e]; [|discriminate].
    refine (IH _ _ _ H).
    intros k d G.
    destruct (String.eqb_spec k (name (moveToMain d1))) as [->|Hne].
    + rewrite mapGet_mapSet_same in G. injection G as <-.
      destruct (moveToMain_result d1) as (_ & A & R & _). auto.
    + rewrite mapGet_mapSet_other in G by assumption. now apply Hc.
Qed.

End ParseFacts.

(** ** Template expansion *)

(** C10. When the value of a label does not parse as a template,
    [processVariables] returns the value itself, having logged the parse
    error; what it returns is a string and nothing else.  So the caller,
    [convertLabelsToDirectives], goes on with the raw value: in the tree
    it builds, the directive of that label has the arguments of the raw
    value, the parse error is among the lines logged, every other
    accepted label of the resource has its directive with the arguments
    of its own value, and [parseDirectives] fails only with an error of
    [getProxyTargets], never with the parse error. *)
Theorem C10_unparsable_value_is_kept
        (template data : Type)
        (templateParse : string -> template + string)
        (templateExecute : template -> data -> string)
        (d : data) (content err : string) :
  templateParse content = inr err ->
  processVariables template data templateParse templateExecute d content
  = (content, [err])
  /\ forall (labelRegex : string -> bool) (labels : list (string * string))
            (label : string),
      NoDup (map fst labels) ->
      In (label, content) labels ->
      labelRegex label = true ->
      (exists directive,
         directiveAt (Split label ".")
           (fst (convertLabelsToDirectives template data templateParse
                   templateExecute labelRegex labels d)) = Some directive
         /\ args directive = parseArgs content)
      /\ In err (snd (convertLabelsToDirectives template data templateParse
                        templateExecute labelRegex labels d))
      /\ (forall label' value' : string,
            In (label', value') labels ->
            labelRegex label' = true ->
            exists directive,
              directiveAt (Split label' ".")
                (fst (convertLabelsToDirectives template data templateParse
                        templateExecute labelRegex labels d)) = Some directive
              /\ args directive
                 = parseArgs (fst (processVariables template data templateParse
                                     templateExecute d value')))
      /\ (forall (getProxyTargets : list string + string) (e : string),
            parseDirectives template data templateParse templateExecute
                            labelRegex labels d getProxyTargets = inr e ->
            getProxyTargets = inr e).
Proof.
  intros P.
  assert (E : processVariables template data templateParse templateExecute
                               d content = (content, [err])).
  { unfold processVariables. now rewrite P. }
  split; [exact E|].
  intros labelRegex labels label ND I R. unfold convertLabelsToDirectives.
  repeat split.
  - destruct (fold_convertLabel_sets_args template data templateParse
                templateExecute labelRegex d labels ([], []) label content
                ND I R) as (directive & H & A).
    exists directive. split; [exact H|]. now rewrite A, E.
  - apply (fold_convertLabel_logs template data templateParse templateExecute
             labelRegex d labels ([], []) label content err I R).
    rewrite E. now left.
  - intros label' value' I' R'.
    now apply fold_convertLabel_sets_args.
  - intros g e H. unfold parseDirectives in H.
    apply parseLoop_error in H. tauto.
Qed.

Lemma C10_witness :
  toyParse "{{ upstreams 80" = inr "template: unclosed action"
  /\ processVariables string unit toyParse toyExecute tt "{{ upstreams 80"
     = ("{{ upstreams 80", ["template: unclosed action"])
  /\ (exists directive,
        directiveAt (Split "caddy.proxy" ".")
          (fst (convertLabelsToDirectives string unit toyParse toyExecute
                  (labelRegexOf "caddy")
                  [("caddy.address", "example.com");
                   ("caddy.proxy", "{{ upstreams 80");
                   ("caddy.tls", "off")] tt)) = Some directive
        /\ args directive = parseArgs "{{ upstreams 80")
  /\ In "template: unclosed action"
        (snd (convertLabelsToDirectives string unit toyParse toyExecute
                (labelRegexOf "caddy")
                [("caddy.address", "example.com");
                 ("caddy.proxy", "{{ upstreams 80");
                 ("caddy.tls", "off")] tt)).
Proof.
  split; [reflexivity|].
  destruct (C10_unparsable_value_is_kept string unit toyParse toyExecute tt
              "{{ upstreams 80" "template: unclosed action" eq_refl)
    as [H1 H2].
  split; [exact H1|].
  destruct (H2 (labelRegexOf "caddy")
               [("caddy.address", "example.com");
                ("caddy.proxy", "{{ upstreams 80");
                ("caddy.tls", "off")] "caddy.proxy") as (A & B & _).
  - repeat constructor; simpl; intuition discriminate.
  - right. left. reflexivity.
  - reflexivity.
  - split; [exact A | exact B].
Defined.

(** X13. [parseDirectives] fails exactly when [getProxyTargets] fails and
    some directive of the labels has an [address] with arguments and no
    [proxy] with arguments; the error is the one of [getProxyTargets].
    A failing [getProxyTargets] does no harm when every directive with an
    address has its proxy written out. *)
Theorem parseDirectives_fails_only_when_targets_needed
        (template data : Type)
        (templateParse : string -> template + string)
        (templateExecute : template -> data -> string)
        (labelRegex : string -> bool)
        (labels : list (string * string)) (templateData : data)
        (getProxyTargets : list string + string) (err : string) :
  parseDirectives template data templateParse templateExecute labelRegex
                  labels templateData getProxyTargets = inr err
  <-> getProxyTargets = inr err
      /\ existsb needsTargets
           (map snd (fst (convertLabelsToDirectives template data templateParse
                            templateExecute labelRegex labels templateData)))
         = true.
Proof. unfold parseDirectives. apply parseLoop_error. Qed.

(** X14. Every directive [parseDirectives] returns is bound to its own
    name, has no arguments left, and has none of the five labels
    [address], [sourcepath], [targetport], [targetpath] and
    [targetprotocol] among its children. *)
Theorem parseDirectives_result_shape
        (template data : Type)
        (templateParse : string -> template + string)
        (templateExecute : template -> data -> string)
        (labelRegex : string -> bool)
        (labels : list (string * string)) (templateData : data)
        (getProxyTargets : list string + string)
        (result : directiveMap) (k : string) (d : directiveData) :
  parseDirectives template data templateParse templateExecute labelRegex
                  labels templateData getProxyTargets = inl result ->
  mapGet k result = Some d ->
  name d = k
  /\ args d = []
  /\ forall r, In r reservedKeys -> mapGet r (children d) = None.
Proof.
  unfold parseDirectives. intros H G.
  refine (parseLoop_invariant _ _ [] result _ H k d G).
  intros k' d' G'. discriminate.
Qed.

Lemma parseDirectives_result_shape_witness :
  name (Directive "example.com" []
          [("proxy", Directive "proxy" ["/"; "10.0.0.5:8080"] [])])
  = "example.com"
  /\ args (Directive "example.com" []
             [("proxy", Directive "proxy" ["/"; "10.0.0.5:8080"] [])]) = []
  /\ forall r, In r reservedKeys ->
               mapGet r (children
                           (Directive "example.com" []
                              [("proxy",
                                Directive "proxy" ["/"; "10.0.0.5:8080"] [])]))
               = None.
Proof.
  apply (parseDirectives_result_shape string unit toyParse toyExecute
           (labelRegexOf "caddy")
           [("caddy.address", "example.com"); ("caddy.targetport", "8080")] tt
           (inl ["10.0.0.5"])
           [("example.com",
             Directive "example.com" []
               [("proxy", Directive "proxy" ["/"; "10.0.0.5:8080"] [])])]
           "example.com").
  - reflexivity.
  - reflexivity.
Defined.

(** X15. For a directive with an [address] and no [proxy] with arguments,
    the body of the loop of [parseDirectives] names the directive by the
    arguments of the address joined with spaces, and gives it a [proxy]
    child whose arguments are the first argument of [sourcepath], or [/]
    without one, followed for every target, in order, by the target with
    the protocol and [://] before it and the port after a colon and the
    path behind it, each only when its label has an argument. *)
Theorem parseDirectives_synthesized_proxy
        (directive : directiveData) (targets : list string) :
  needsTargets directive = true ->
  exists address d1 proxy,
    mapGet "address" (children directive) = Some address
    /\ synthesizeProxy (inl targets) directive = inl d1
    /\ name (moveToMain d1) = Join (args address) " "
    /\ mapGet "proxy" (children (moveToMain d1)) = Some proxy
    /\ args proxy
       = (match firstArg (mapGet "sourcepath" (children directive)) with
          | Some p => p
          | None => "/"
          end)
         :: map (proxyTargetArg
                   (mapGet "targetprotocol" (children directive))
                   (mapGet "targetport" (children directive))
                   (mapGet "targetpath" (children directive)))
                targets.
Proof.
  intros N.
  destruct (synthesizeProxy_needed (inl targets) directive N)
    as (address & p0 & Ha & _ & _ & E).
  eexists address, _, _. split; [exact Ha|]. split; [exact E|].
  destruct (moveToMain_result
              (Directive (name directive) (args address)
                 (mapSet "proxy"
                    (Directive (name p0)
                       ((match firstArg (mapGet "sourcepath" (children directive))
                         with Some p => p | None => "/" end)
                        :: map (proxyTargetArg
                                  (mapGet "targetprotocol" (children directive))
                                  (mapGet "targetport" (children directive))
                                  (mapGet "targetpath" (children directive)))
                               targets)
                       (children p0))
                    (children directive))))
    as (Hn & _ & _ & Hk).
  split; [exact Hn|]. split.
  - rewrite Hk by (unfold reservedKeys; simpl; intuition discriminate).
    cbn [children]. apply mapGet_mapSet_same.
  - reflexivity.
Qed.

Lemma parseDirectives_synthesized_proxy_witness :
  exists address d1 proxy,
    mapGet "address"
           [("address", Directive "address" ["example.com"] []);
            ("targetport", Directive "targetport" ["8080"] [])]
    = Some address
    /\ synthesizeProxy (inl ["10.0.0.5"; "10.0.0.6"])
         (Directive "" []
            [("address", Directive "address" ["example.com"] []);
             ("targetport", Directive "targetport" ["8080"] [])])
       = inl d1
    /\ name (moveToMain d1) = Join (args address) " "
    /\ mapGet "proxy" (children (moveToMain d1)) = Some proxy
    /\ args proxy = ["/"; "10.0.0.5:8080"; "10.0.0.6:8080"].
Proof.
  apply (parseDirectives_synthesized_proxy
           (Directive "" []
              [("address", Directive "address" ["example.com"] []);
               ("targetport", Directive "targetport" ["8080"] [])])
           ["10.0.0.5"; "10.0.0.6"]).
  reflexivity.
Defined.

(** ** Further properties: the loader *)

Section UpdateFacts.

Lemma emptyCaddyfile_not_nil : emptyCaddyfile <> [].
Proof. discriminate. Qed.

(** The four ways [update] ends. *)
Lemma update_cases (l : DockerLoader) (w : cycle) (reload : bool) :
  let '(caddyfile, logs, err) := GenerateCaddyFile w in
  let doc :=
    mkInput "http"
      (if (List.length (overallOutput l w caddyfile) =? 0)%nat
       then emptyCaddyfile else overallOutput l w caddyfile) in
  match err with
  | Some e =>
      update l w reload
      = (false,
         mkLoader false (input l) (processCaddyfile l) (previousCaddyfile l)
                  (previousLogs l),
         [TimerReset (pollingInterval w); Log (LogIgnoringSwarmError e)])
  | None =>
      (previousCaddyfile l = caddyfile
       /\ returned (update l w reload) = false
       /\ input (loaderAfter (update l w reload)) = input l
       /\ quiet (trace (update l w reload)))
      \/ (previousCaddyfile l <> caddyfile
          /\ returned (update l w reload) = true
          /\ exists before,
               quiet before
               /\ match validate w doc with
                  | Some e =>
                      input (loaderAfter (update l w reload)) = input l
                      /\ trace (update l w reload)
                         = (before
                              ++ [ValidateAndExecuteDirectives doc;
                                  Log (LogCaddyFileError e);
                                  Log (LogWrongCaddyFile (Contents doc))])%list
                  | None =>
                      input (loaderAfter (update l w reload)) = doc
                      /\ trace (update l w reload)
                         = (before
                              ++ [ValidateAndExecuteDirectives doc;
                                  Log (LogNewCaddyFile (Contents doc))]
                              ++ (if reload then [ReloadCaddy] else []))%list
                  end)
  end.
Proof.
  destruct (GenerateCaddyFile w) as [[caddyfile logs] err] eqn:G.
  cbn zeta. destruct err as [e|].
  - unfold update. rewrite G. reflexivity.
  - destruct (list_eq_dec Byte.byte_eq_dec (previousCaddyfile l) caddyfile)
      as [E|Hne].
    + left. split; [exact E|].
      rewrite (update_unchanged l w reload caddyfile logs G E).
      unfold returned, loaderAfter, trace, quiet. cbn [fst snd input].
      repeat split.
      destruct (negb (String.eqb (previousLogs l) logs)); reflexivity.
    + right. split; [exact Hne|].
      destruct (update_changed l w reload caddyfile logs G Hne)
        as (before & [stn cont] & C & S & Q & U).
      simpl in C, S. subst stn cont.
      split; [rewrite U; destruct (validate w _); reflexivity|].
      exists before. split; [exact Q|].
      rewrite U. destruct (validate w _); split; reflexivity.
Qed.

Lemma update_skipEvents (l : DockerLoader) (w : cycle) (reload : bool) :
  skipEvents (loaderAfter (update l w reload)) = false.
Proof.
  unfold update.
  destruct (GenerateCaddyFile w) as [[caddyfile logs] [e|]]; [reflexivity|].
  cbn [previousCaddyfile previousLogs processCaddyfile input].
  destruct (negb (bytesEqual (previousCaddyfile l) caddyfile)); cbn [negb];
    [|reflexivity].
  destruct (validate w _); reflexivity.
Qed.

End UpdateFacts.

(** X16. [update] returns true exactly when the generation succeeded and
    its bytes differ from [previousCaddyfile], whether caddy then accepts
    the document or not.  When the generation fails, the active input,
    [previousCaddyfile] and [previousLogs] stay as they are and caddy is
    not asked anything. *)
Theorem update_return_value (l : DockerLoader) (w : cycle) (reload : bool) :
  (returned (update l w reload) = true
   <-> snd (GenerateCaddyFile w) = None
       /\ previousCaddyfile l <> fst (fst (GenerateCaddyFile w)))
  /\ (snd (GenerateCaddyFile w) <> None ->
      input (loaderAfter (update l w reload)) = input l
      /\ previousCaddyfile (loaderAfter (update l w reload))
         = previousCaddyfile l
      /\ previousLogs (loaderAfter (update l w reload)) = previousLogs l
      /\ quiet (trace (update l w reload))).
Proof.
  pose proof (update_cases l w reload) as H.
  destruct (GenerateCaddyFile w) as [[caddyfile logs] [e|]]; cbn [fst snd].
  - rewrite H. unfold returned, loaderAfter, trace, quiet. cbn.
    split; [split; [discriminate | intros [? _]; discriminate]|].
    intros _. repeat split.
  - cbn zeta in H. split; [|congruence].
    destruct H as [(E & R & _)|(Hne & R & _)]; rewrite R.
    + split; [discriminate | intros [_ N]; contradiction].
    + split; auto.
Qed.

(** X17. [update] reloads caddy only when it was called to reload on a
    change, and only after caddy has validated the document that is now
    the active input: the reload is the last thing [update] does, the
    validation of the active input and the line that logs it come right
    before, and nothing earlier in the call reaches caddy. *)
Theorem update_reloads_only_validated_input
        (l : DockerLoader) (w : cycle) (reload : bool) :
  In ReloadCaddy (trace (update l w reload)) ->
  reload = true
  /\ returned (update l w reload) = true
  /\ validate w (input (loaderAfter (update l w reload))) = None
  /\ In (ValidateAndExecuteDirectives (input (loaderAfter (update l w reload))))
        (trace (update l w reload))
  /\ exists before,
       quiet before
       /\ trace (update l w reload)
          = (before
               ++ [ValidateAndExecuteDirectives
                     (input (loaderAfter (update l w reload)));
                   Log (LogNewCaddyFile
                          (Contents (input (loaderAfter (update l w reload)))));
                   ReloadCaddy])%list.
Proof.
  intros I. pose proof (update_cases l w reload) as H.
  destruct (GenerateCaddyFile w) as [[caddyfile logs] [e|]].
  - rewrite H in I. unfold trace in I. simpl in I.
    destruct I as [I|[I|[]]]; discriminate.
  - cbn zeta in H. destruct H as [(_ & _ & _ & Q)|(_ & R & before & Q & H)].
    + exfalso. exact (quiet_no_reload _ Q I).
    + destruct (validate w _) eqn:V; destruct H as [Hin T].
      * exfalso. rewrite T, in_app_iff in I. destruct I as [I|I].
        -- exact (quiet_no_reload _ Q I).
        -- simpl in I. intuition discriminate.
      * rewrite T in I |- *. rewrite Hin, V.
        rewrite !in_app_iff in I. rewrite !in_app_iff.
        destruct I as [I|[I|I]].
        -- exfalso. exact (quiet_no_reload _ Q I).
        -- exfalso. simpl in I. intuition discriminate.
        -- destruct reload; [|contradiction].
           repeat split; auto.
           ++ right. left. now left.
           ++ exists before. split; [exact Q | reflexivity].
Qed.

Lemma update_reloads_only_validated_input_witness :
  validate emptyCycle
           (input (loaderAfter (update loaderEx emptyCycle true))) = None.
Proof.
  apply (update_reloads_only_validated_input loaderEx emptyCycle true).
  vm_compute. do 4 right. left. reflexivity.
Defined.

(** X18. When the bytes changed and caddy accepts the document, the
    active input becomes that document, whose contents are the overall
    output or, for an empty output, the placeholder;
    [previousCaddyfile] is the generated bytes, and caddy is reloaded
    exactly when [update] was called to reload. *)
Theorem update_applies_accepted_document
        (l : DockerLoader) (w : cycle) (reload : bool)
        (caddyfile : list Byte.byte) (logs : string) :
  GenerateCaddyFile w = (caddyfile, logs, None) ->
  previousCaddyfile l <> caddyfile ->
  validate w
    (mkInput "http"
       (if (List.length (overallOutput l w caddyfile) =? 0)%nat
        then emptyCaddyfile else overallOutput l w caddyfile)) = None ->
  input (loaderAfter (update l w reload))
  = mkInput "http"
      (if (List.length (overallOutput l w caddyfile) =? 0)%nat
       then emptyCaddyfile else overallOutput l w caddyfile)
  /\ previousCaddyfile (loaderAfter (update l w reload)) = caddyfile
  /\ (In ReloadCaddy (trace (update l w reload)) <-> reload = true).
Proof.
  intros G Hne V. pose proof (update_cases l w reload) as H.
  rewrite G in H. cbn zeta in H.
  destruct H as [(E & _)|(_ & _ & before & Q & H)]; [contradiction|].
  rewrite V in H. destruct H as [Hin T].
  split; [exact Hin|].
  split; [now apply (update_stores_output l w reload caddyfile logs)|].
  rewrite T, !in_app_iff. split.
  - intros [I|[I|I]].
    + exfalso. exact (quiet_no_reload _ Q I).
    + exfalso. simpl in I. intuition discriminate.
    + destruct reload; [reflexivity | contradiction].
  - intros ->. right. right. now left.
Qed.

Lemma update_applies_accepted_document_witness :
  input (loaderAfter (update loaderEx emptyCycle true)) = emptyCaddyfileInput
  /\ previousCaddyfile (loaderAfter (update loaderEx emptyCycle true)) = []
  /\ (In ReloadCaddy (trace (update loaderEx emptyCycle true)) <-> true = true).
Proof.
  apply (update_applies_accepted_document loaderEx emptyCycle true [] "").
  - reflexivity.
  - vm_compute. discriminate.
  - reflexivity.
Defined.

Section CycleFacts.

Lemma update_input_invariant (l : DockerLoader) (w : cycle) (reload : bool) :
  input (loaderAfter (update l w reload)) = input l
  \/ (ServerTypeName (input (loaderAfter (update l w reload))) = "http"
      /\ Contents (input (loaderAfter (update l w reload))) <> []).
Proof.
  pose proof (update_cases l w reload) as H.
  destruct (GenerateCaddyFile w) as [[caddyfile logs] [e|]].
  - left. rewrite H. reflexivity.
  - cbn zeta in H. destruct H as [(_ & _ & Hin & _)|(_ & _ & before & _ & H)];
      [now left|].
    destruct (validate w _); destruct H as [Hin _]; [now left|].
    right. rewrite Hin. cbn [ServerTypeName Contents]. split; [reflexivity|].
    destruct (overallOutput l w caddyfile) as [|b c]; cbn.
    + apply emptyCaddyfile_not_nil.
    + discriminate.
Qed.

End CycleFacts.

(** X19. Whatever cycles a loader made by [CreateDockerLoader] goes
    through, its active input is for the server type [http], and its
    contents are never empty once a document has been applied: the input
    is the initial one, or it has contents. *)
Theorem active_input_invariant (cycles : list (cycle * bool)) :
  input (afterCycles CreateDockerLoader cycles) = mkInput "http" []
  \/ (ServerTypeName (input (afterCycles CreateDockerLoader cycles)) = "http"
      /\ Contents (input (afterCycles CreateDockerLoader cycles)) <> []).
Proof.
  unfold afterCycles.
  assert (I : input CreateDockerLoader = mkInput "http" []
              \/ (ServerTypeName (input CreateDockerLoader) = "http"
                  /\ Contents (input CreateDockerLoader) <> []))
    by (now left).
  revert I. generalize CreateDockerLoader.
  induction cycles as [|[w r] cycles IH]; intros l I; [exact I|].
  cbn [fold_left fst snd]. apply IH.
  destruct (update_input_invariant l w r) as [E|N]; [now rewrite E | now right].
Qed.

(** ** Further properties: events and the probe *)

Section MonitorFacts.

Lemma monitorEvents_skipping (messages : list message) :
  forall l,
    skipEvents l = true ->
    fst (monitorEvents messages l) = l
    /\ countResets (snd (monitorEvents messages l)) = 0.
Proof.
  induction messages as [|[t a|[e|]] rest IH]; intros l S; cbn [monitorEvents].
  - auto.
  - rewrite S. now apply IH.
  - destruct (IH l S) as [E C].
    destruct (monitorEvents rest l) as [l' effects]. cbn in *. auto.
  - auto.
Qed.

Lemma monitorEvents_fields (messages : list message) :
  forall l,
    input (fst (monitorEvents messages l)) = input l
    /\ processCaddyfile (fst (monitorEvents messages l)) = processCaddyfile l
    /\ previousCaddyfile (fst (monitorEvents messages l)) = previousCaddyfile l
    /\ previousLogs (fst (monitorEvents messages l)) = previousLogs l.
Proof.
  induction messages as [|[t a|[e|]] rest IH]; intros l; cbn [monitorEvents].
  - auto.
  - destruct (skipEvents l); [apply IH|].
    destruct (triggersUpdate t a); [|apply IH].
    specialize (IH (mkLoader true (input l) (processCaddyfile l)
                             (previousCaddyfile l) (previousLogs l))).
    destruct (monitorEvents rest _) as [l' effects]. exact IH.
  - specialize (IH l). destruct (monitorEvents rest l) as [l' effects].
    exact IH.
  - auto.
Qed.

Lemma debounceResets_app (a b : list loaderEffect) :
  debounceResets (a ++ b)%list = debounceResets a + debounceResets b.
Proof.
  unfold debounceResets. now rewrite filter_app, length_app.
Qed.

Lemma debounceResets_ByUpdate (t : list event) :
  debounceResets (map ByUpdate t) = 0.
Proof.
  induction t as [|e t IH]; [reflexivity | exact IH].
Qed.

Lemma debounceResets_ByMonitorEvents (effects : list monitorEffect) :
  debounceResets (map ByMonitorEvents effects) = countResets effects.
Proof.
  unfold debounceResets, countResets.
  induction effects as [|[i| |e] effects IH]; cbn; auto.
Qed.

(** One message received while events are let through: the debounce
    timer is set exactly when the message is a cause for an update, and
    then [skipEvents] is set. *)
Lemma monitorEvents_one (m : message) (l : DockerLoader) :
  skipEvents l = false ->
  (countResets (snd (monitorEvents [m] l)) = 1
   /\ skipEvents (fst (monitorEvents [m] l)) = true
   /\ exists t a, m = DockerEvent t a /\ triggersUpdate t a = true)
  \/ (countResets (snd (monitorEvents [m] l)) = 0
      /\ fst (monitorEvents [m] l) = l
      /\ match m with
         | DockerEvent t a => triggersUpdate t a = false
         | DockerError _ => True
         end).
Proof.
  intros S. destruct m as [t a|[e|]]; cbn [monitorEvents]; rewrite ?S.
  - destruct (triggersUpdate t a) eqn:T.
    + left. cbn. repeat split. now exists t, a.
    + right. cbn. auto.
  - right. cbn. auto.
  - right. cbn. auto.
Qed.

Lemma runLoader_resets (steps : list loaderStep) :
  forall (subscribed : bool) (l : DockerLoader),
    debounceResets (snd (runLoader steps subscribed l))
    <= (if skipEvents l then 0 else 1) + updateCalls steps.
Proof.
  induction steps as [|[m|w] steps IH]; intros subscribed l;
    cbn [runLoader].
  - cbn. lia.
  - destruct subscribed.
    + change (updateCalls (Receive m :: steps)) with (updateCalls steps).
      destruct (monitorEvents [m] l) as [l1 e1] eqn:M.
      specialize (IH (negb (endsLoop m)) l1).
      destruct (runLoader steps (negb (endsLoop m)) l1) as [l2 effects].
      cbn [snd] in *.
      rewrite debounceResets_app, debounceResets_ByMonitorEvents.
      destruct (skipEvents l) eqn:S.
      * destruct (monitorEvents_skipping [m] l S) as [E C].
        rewrite M in E, C. cbn [fst snd] in E, C. subst l1.
        rewrite S in IH. lia.
      * destruct (monitorEvents_one m l S) as [(C & S1 & _)|(C & E & _)];
          rewrite M in *; cbn [fst snd] in *.
        -- rewrite S1 in IH. lia.
        -- subst l1. rewrite S in IH. lia.
    + change (updateCalls (Receive m :: steps)) with (updateCalls steps).
      apply IH.
  - change (updateCalls (TimerFires w :: steps)) with (S (updateCalls steps)).
    pose proof (update_skipEvents l w true) as S1. unfold loaderAfter in S1.
    destruct (update l w true) as [[r l1] t]. cbn [fst snd] in S1.
    specialize (IH subscribed l1).
    destruct (runLoader steps subscribed l1) as [l2 effects].
    cbn [snd] in *.
    rewrite debounceResets_app, debounceResets_ByUpdate.
    rewrite S1 in IH. destruct (skipEvents l); lia.
Qed.

Lemma runLoader_without_update (steps : list loaderStep) :
  forall (subscribed : bool) (l : DockerLoader),
    updateCalls steps = 0 ->
    input (fst (runLoader steps subscribed l)) = input l
    /\ previousCaddyfile (fst (runLoader steps subscribed l))
       = previousCaddyfile l
    /\ previousLogs (fst (runLoader steps subscribed l)) = previousLogs l.
Proof.
  induction steps as [|[m|w] steps IH]; intros subscribed l U;
    cbn [runLoader].
  - auto.
  - change (updateCalls (Receive m :: steps)) with (updateCalls steps) in U.
    destruct subscribed; [|now apply IH].
    destruct (monitorEvents_fields [m] l) as (F1 & _ & F3 & F4).
    destruct (monitorEvents [m] l) as [l1 e1]. cbn [fst] in *.
    specialize (IH (negb (endsLoop m)) l1 U).
    destruct (runLoader steps (negb (endsLoop m)) l1) as [l2 effects].
    cbn [fst] in *. rewrite <- F1, <- F3, <- F4. exact IH.
  - discriminate.
Qed.

(** Steps that pass by leave the loop running and set no timer, when
    events are let through. *)
Lemma runLoader_passing (before rest : list loaderStep) :
  forall l : DockerLoader,
    skipEvents l = false ->
    forallb passesBy before = true ->
    exists (l1 : DockerLoader) (effects : list loaderEffect),
      skipEvents l1 = false
      /\ debounceResets effects = 0
      /\ snd (runLoader (before ++ rest) true l)
         = (effects ++ snd (runLoader rest true l1))%list.
Proof.
  induction before as [|[m|w] before IH]; intros l S P.
  - exists l, []. auto.
  - cbn [forallb passesBy] in P. apply andb_true_iff in P as [Pm P].
    cbn [app runLoader].
    assert (M : monitorEvents [m] l
                = (l, match m with
                      | DockerError (Some e) => [LogEventError e]
                      | _ => []
                      end)
                /\ endsLoop m = false).
    { destruct m as [t a|[e|]]; cbn [monitorEvents endsLoop]; rewrite ?S.
      - apply negb_true_iff in Pm. rewrite Pm. auto.
      - auto.
      - discriminate. }
    destruct M as [M E]. rewrite M, E. cbn [negb].
    destruct (IH l S P) as (l1 & effects & S1 & C & R).
    destruct (runLoader (before ++ rest) true l) as [l2 effects2].
    cbn [snd] in *. subst effects2.
    exists l1. eexists. split; [exact S1|]. split; [|apply app_assoc].
    rewrite debounceResets_app, debounceResets_ByMonitorEvents, C.
    destruct m as [t a|[e|]]; reflexivity.
  - cbn [forallb passesBy] in P. cbn [andb] in P.
    cbn [app runLoader].
    pose proof (update_skipEvents l w true) as S1. unfold loaderAfter in S1.
    destruct (update l w true) as [[r l0] t]. cbn [fst snd] in S1.
    destruct (IH l0 S1 P) as (l1 & effects & S2 & C & R).
    destruct (runLoader (before ++ rest) true l0) as [l2 effects2].
    cbn [snd] in *. subst effects2.
    exists l1. eexists. split; [exact S2|]. split; [|apply app_assoc].
    now rewrite debounceResets_app, debounceResets_ByUpdate, C.
Qed.

End MonitorFacts.

(** X20. Events are coalesced between two calls of [update]: however the
    messages that [monitorEvents] receives and the calls of [update] by
    the timer follow each other, the debounce timer is set at most once
    before the first call of [update] (not at all when [skipEvents] is
    set at the start) and at most once after each call.  While [update]
    is not called, the active input, [previousCaddyfile] and
    [previousLogs] stay as they are. *)
Theorem runLoader_coalesces
        (steps : list loaderStep) (subscribed : bool) (l : DockerLoader) :
  debounceResets (snd (runLoader steps subscribed l))
  <= (if skipEvents l then 0 else 1) + updateCalls steps
  /\ (updateCalls steps = 0 ->
      input (fst (runLoader steps subscribed l)) = input l
      /\ previousCaddyfile (fst (runLoader steps subscribed l))
         = previousCaddyfile l
      /\ previousLogs (fst (runLoader steps subscribed l)) = previousLogs l).
Proof.
  split.
  - apply runLoader_resets.
  - apply runLoader_without_update.
Qed.

Lemma runLoader_coalesces_witness :
  input
    (fst (runLoader [Receive (DockerEvent "container" "start");
                     Receive (DockerEvent "container" "die")]
                    true loaderEx)) = input loaderEx.
Proof.
  apply (runLoader_coalesces
           [Receive (DockerEvent "container" "start");
            Receive (DockerEvent "container" "die")] true loaderEx).
  reflexivity.
Defined.

(** X21. [update] lets events through again: once the timer has called
    [update], the next event that is a cause for an update sets the
    debounce timer, whatever the state of the loader was, however many
    other events and errors are received and however often [update] is
    called in between, as long as the loop of [monitorEvents] runs.  Up
    to and with that event the timer is set exactly once, and the events
    that follow are skipped until [update] is called again. *)
Theorem update_rearms_events
        (l : DockerLoader) (w : cycle) (between : list loaderStep)
        (eventType action : string) (skipped : list message) :
  forallb passesBy between = true ->
  triggersUpdate eventType action = true ->
  debounceResets
    (snd (runLoader
            (TimerFires w :: between
               ++ Receive (DockerEvent eventType action)
               :: map Receive skipped) true l)) = 1.
Proof.
  intros P T. cbn [runLoader].
  pose proof (update_skipEvents l w true) as S. unfold loaderAfter in S.
  destruct (update l w true) as [[r l0] t]. cbn [fst snd] in S.
  destruct (runLoader_passing between
              (Receive (DockerEvent eventType action) :: map Receive skipped)
              l0 S P) as (l1 & effects & S1 & C & R).
  destruct (runLoader (between ++ _) true l0) as [l2 effects2].
  cbn [snd] in *. subst effects2.
  rewrite !debounceResets_app, debounceResets_ByUpdate, C.
  cbn [runLoader monitorEvents]. rewrite S1, T. cbn [endsLoop negb].
  pose proof (runLoader_resets (map Receive skipped) true
                (mkLoader true (input l1) (processCaddyfile l1)
                          (previousCaddyfile l1) (previousLogs l1))) as B.
  assert (U : updateCalls (map Receive skipped) = 0).
  { clear. induction skipped as [|m skipped IH]; [reflexivity | exact IH]. }
  rewrite U in B. cbn [skipEvents] in B.
  destruct (runLoader (map Receive skipped) true _) as [l3 effects3].
  cbn [snd] in *. rewrite debounceResets_app. cbn. lia.
Qed.

Lemma update_rearms_events_witness :
  debounceResets
    (snd (runLoader
            (TimerFires sameCycle
               :: [Receive (DockerEvent "network" "connect");
                   Receive (DockerError (Some "timeout"));
                   TimerFires emptyCycle]
               ++ Receive (DockerEvent "service" "update")
               :: map Receive [DockerEvent "service" "remove"])
            true (mkLoader true (mkInput "http" []) false [] ""))) = 1.
Proof.
  apply (update_rearms_events
           (mkLoader true (mkInput "http" []) false [] "") sameCycle
           [Receive (DockerEvent "network" "connect");
            Receive (DockerError (Some "timeout"));
            TimerFires emptyCycle]
           "service" "update" [DockerEvent "service" "remove"]).
  - reflexivity.
  - reflexivity.
Defined.

(** X22. A nil error ends [monitorEvents]: the subscription is cancelled
    and nothing that arrives afterwards has any effect. *)
Theorem monitorEvents_stops_at_nil_error
        (before after : list message) (l : DockerLoader) :
  monitorEvents (before ++ DockerError None :: after) l
  = monitorEvents (before ++ [DockerError None]) l
  /\ exists effects,
       snd (monitorEvents (before ++ DockerError None :: after) l)
       = (effects ++ [CancelSubscription])%list.
Proof.
  revert l. induction before as [|[t a|[e|]] before IH]; intros l;
    cbn [app monitorEvents].
  - split; [reflexivity | now exists []].
  - destruct (skipEvents l); [apply IH|].
    destruct (triggersUpdate t a); [|apply IH].
    destruct (IH (mkLoader true (input l) (processCaddyfile l)
                           (previousCaddyfile l) (previousLogs l)))
      as [E (effects & X)].
    rewrite E in *.
    destruct (monitorEvents (before ++ [DockerError None]) _) as [l' eff].
    cbn [snd] in *. split; [reflexivity|].
    exists (DebounceTimerReset debounceInterval :: effects). now rewrite X.
  - destruct (IH l) as [E (effects & X)]. rewrite E in *.
    destruct (monitorEvents (before ++ [DockerError None]) l) as [l' eff].
    cbn [snd] in *. split; [reflexivity|].
    exists (LogEventError e :: effects). now rewrite X.
  - split; [reflexivity | now exists []].
Qed.

(** X23. The availability of swarm is asked for at most once a minute:
    for a minute after a probe, [GenerateCaddyFile]'s availability step
    asks docker nothing, logs nothing and leaves the cache as the probe
    left it, whatever docker would answer. *)
Theorem probeIfStale_within_interval
        (g : swarmCache) (info info' : infoResult) (now now' : Z) :
  (now' - now <= swarmAvailabilityCacheInterval)%Z ->
  probeIfStale (fst (probe g info now)) info' now'
  = (fst (probe g info now), []).
Proof.
  intros H. unfold probeIfStale, cacheIsStale.
  rewrite probe_time.
  destruct (swarmAvailabilityCacheInterval <? now' - now)%Z eqn:L;
    [|reflexivity].
  apply Z.ltb_lt in L. lia.
Qed.

Lemma probeIfStale_within_interval_witness :
  probeIfStale (fst (probe newSwarmCache (InfoOk true) 1000)) (InfoErr "down")
               (1000 + 59 * 1000000000)
  = (fst (probe newSwarmCache (InfoOk true) 1000), []).
Proof.
  apply (probeIfStale_within_interval newSwarmCache (InfoOk true)
           (InfoErr "down") 1000 (1000 + 59 * 1000000000)).
  vm_compute. discriminate.
Defined.

Section NetworkFacts.

Lemma caddyNetworksLoop_spec (inspect : string -> bool + string)
      (attached : list string) :
  forall networks result,
    caddyNetworksLoop inspect attached networks = inl result
    <-> Forall (fun id => exists ingress, inspect id = inl ingress) attached
        /\ result
           = (networks
                ++ filter (fun id => match inspect id with
                                     | inl false => true
                                     | _ => false
                                     end) attached)%list.
Proof.
  induction attached as [|id rest IH]; intros networks result;
    cbn [caddyNetworksLoop filter].
  - rewrite app_nil_r. split.
    + intros [= <-]. split; [constructor | reflexivity].
    + intros [_ ->]. reflexivity.
  - destruct (inspect id) as [ingress|err] eqn:I.
    + rewrite IH. destruct ingress; cbn [negb].
      * split; intros [F E]; (split; [|exact E]).
        -- constructor; [eauto | exact F].
        -- now inversion F.
      * rewrite <- app_assoc. cbn [app].
        split; intros [F E]; (split; [|exact E]).
        -- constructor; [eauto | exact F].
        -- now inversion F.
    + split; [discriminate|].
      intros [F _]. inversion F as [|? ? [b Hb] _]; subst. congruence.
Qed.

End NetworkFacts.

(** X24. [getCaddyNetworks] succeeds exactly when the container of caddy
    is known and inspected and every network it is attached to can be
    inspected, ingress or not; its result is then the attached networks
    that are not ingress networks, in the order they were iterated. *)
Theorem getCaddyNetworks_result
        (a : networkAnswers) (containerID : string) (attached : list string)
        (result : list string) :
  currentContainerID a = inl containerID ->
  containerNetworks a containerID = inl attached ->
  (getCaddyNetworks a = inl result
   <-> Forall (fun id => exists ingress, networkIngress a id = inl ingress)
              attached
       /\ result
          = filter (fun id => match networkIngress a id with
                              | inl false => true
                              | _ => false
                              end) attached).
Proof.
  intros C N. unfold getCaddyNetworks. rewrite C, N.
  apply caddyNetworksLoop_spec.
Qed.

Lemma getCaddyNetworks_result_witness :
  getCaddyNetworks networksEx = inl ["n2"]
  <-> Forall (fun id => exists ingress,
                          networkIngress networksEx id = inl ingress)
             ["n1"; "n2"]
      /\ ["n2"]
         = filter (fun id => match networkIngress networksEx id with
                             | inl false => true
                             | _ => false
                             end) ["n1"; "n2"].
Proof.
  apply (getCaddyNetworks_result networksEx "c1" ["n1"; "n2"] ["n2"]).
  - reflexivity.
  - reflexivity.
Defined.

(** ** Further properties: the generation *)

Section GenerateFacts.
Variable entropy : nat -> draw.

Lemma sameOutput_refl (st : generation) : sameOutput st st.
Proof. repeat split. Qed.

Lemma sameOutput_writeLog_l (text : string) (st st' : generation) :
  sameOutput st st' -> sameOutput (writeLog text st) st'.
Proof. intros (A & B & C). repeat split; assumption. Qed.

Lemma sameOutput_writeLog (text text' : string) (st st' : generation) :
  sameOutput st st' -> sameOutput (writeLog text st) (writeLog text' st').
Proof. intros (A & B & C). repeat split; assumption. Qed.

Lemma sameOutput_writeCaddyfile (dat : list Byte.byte) (st st' : generation) :
  sameOutput st st' ->
  sameOutput (writeCaddyfile dat st) (writeCaddyfile dat st').
Proof.
  intros (A & B & C). unfold sameOutput, writeCaddyfile. cbn.
  rewrite A. auto.
Qed.

Lemma sameOutput_mergeInto (e : string * directiveData)
      (st st' : generation) :
  sameOutput st st' ->
  sameOutput (mergeInto entropy st e) (mergeInto entropy st' e).
Proof.
  intros (A & B & C). unfold mergeInto. destruct e as [k d].
  rewrite B, C.
  destruct (mergeDirectives entropy (mapGet k (directives st')) (Some d)
                            (suffixes st')) as [[m|] n].
  - unfold sameOutput. cbn. auto.
  - repeat split; assumption.
Qed.

Lemma sameOutput_mergeAll (l : directiveMap) :
  forall st st',
    sameOutput st st' ->
    sameOutput (fold_left (mergeInto entropy) l st)
               (fold_left (mergeInto entropy) l st').
Proof.
  induction l as [|e l IH]; intros st st' H; [exact H|].
  cbn [fold_left]. now apply IH, sameOutput_mergeInto.
Qed.

Lemma sameOutput_containersLoop (l : list (directiveMap + string)) :
  forall st st',
    sameOutput st st' ->
    sameOutput (containersLoop entropy l st) (containersLoop entropy l st').
Proof.
  unfold containersLoop.
  induction l as [|[dirs|err] l IH]; intros st st' H; [exact H| |];
    cbn [fold_left]; apply IH.
  - now apply sameOutput_mergeAll.
  - now apply sameOutput_writeLog.
Qed.

Lemma sameOutcome_servicesLoop (ignore : bool)
      (l : list (directiveMap + string)) :
  forall st st',
    sameOutput st st' ->
    sameOutcome (servicesLoop entropy ignore l st)
                (servicesLoop entropy ignore l st').
Proof.
  induction l as [|[dirs|err] l IH]; intros st st' H; cbn [servicesLoop].
  - exact H.
  - now apply IH, sameOutput_mergeAll.
  - destruct ignore.
    + split; [now apply sameOutput_writeLog | reflexivity].
    + now apply IH, sameOutput_writeLog.
Qed.

Lemma sameOutcome_configsLoop (ignore : bool)
      (l : list (bool * (list Byte.byte + string))) :
  forall st st',
    sameOutput st st' ->
    sameOutcome (configsLoop ignore l st) (configsLoop ignore l st').
Proof.
  induction l as [|[[|] [dat|err]] l IH]; intros st st' H; cbn [configsLoop];
    try (now apply IH).
  - exact H.
  - now apply IH, sameOutput_writeCaddyfile, sameOutput_writeCaddyfile.
  - destruct ignore.
    + split; [now apply sameOutput_writeLog | reflexivity].
    + now apply IH, sameOutput_writeLog.
Qed.

(** A container that cannot be read adds a line to the log and nothing
    else. *)
Lemma sameOutput_containersLoop_skip (l1 l2 : list (directiveMap + string))
      (err : string) (st : generation) :
  sameOutput (containersLoop entropy (l1 ++ inr err :: l2) st)
             (containersLoop entropy (l1 ++ l2) st).
Proof.
  unfold containersLoop. rewrite !fold_left_app. cbn [fold_left].
  apply (sameOutput_containersLoop l2).
  apply sameOutput_writeLog_l, sameOutput_refl.
Qed.

End GenerateFacts.

Section GenerationFacts.
Variable entropy : nat -> draw.

(** [prepare] changes the networks and the availability cache only. *)
Lemma prepare_generator (g : CaddyfileGenerator) (a : dockerAnswers) :
  let g1 := fst (fst (prepare g a)) in
  caddyFilePath g1 = caddyFilePath g
  /\ ignoreSwarmError g1 = ignoreSwarmError g
  /\ validateNetwork g1 = validateNetwork g
  /\ labelPrefix g1 = labelPrefix g
  /\ proxyServiceTasks g1 = proxyServiceTasks g
  /\ swarm g1 = fst (probeIfStale (swarm g) (infoAnswer a) (timeNow a)).
Proof.
  unfold prepare.
  destruct (if validateNetwork g && _ then _ else _) as [nets logs].
  destruct (probeIfStale (swarm g) (infoAnswer a) (timeNow a)) as [c pl].
  cbn. repeat split.
Qed.

Lemma sameOutcome_serviceSources (g g' : CaddyfileGenerator)
      (a : dockerAnswers) (st st' : generation) :
  swarmIsAvailable (swarm g) = swarmIsAvailable (swarm g') ->
  ignoreSwarmError g = ignoreSwarmError g' ->
  sameOutput st st' ->
  sameOutcome (serviceSources entropy g a st) (serviceSources entropy g' a st').
Proof.
  intros A I H. unfold serviceSources. rewrite A, I.
  destruct (swarmIsAvailable (swarm g')).
  - destruct (servicesAnswer a).
    + now apply sameOutcome_servicesLoop.
    + destruct (ignoreSwarmError g'); cbn.
      * split; [now apply sameOutput_writeLog | reflexivity].
      * now apply sameOutput_writeLog.
  - cbn. now apply sameOutput_writeLog.
Qed.

Lemma sameOutcome_configSources (g g' : CaddyfileGenerator)
      (a : dockerAnswers) (st st' : generation) :
  swarmIsAvailable (swarm g) = swarmIsAvailable (swarm g') ->
  ignoreSwarmError g = ignoreSwarmError g' ->
  sameOutput st st' ->
  sameOutcome (configSources g a st) (configSources g' a st').
Proof.
  intros A I H. unfold configSources. rewrite A, I.
  destruct (swarmIsAvailable (swarm g')).
  - destruct (configsAnswer a).
    + now apply sameOutcome_configsLoop.
    + destruct (ignoreSwarmError g'); cbn.
      * split; [now apply sameOutput_writeLog | reflexivity].
      * now apply sameOutput_writeLog.
  - cbn. now apply sameOutput_writeLog.
Qed.

(** What is generated after the containers does not depend on the log,
    and depends on the generator through the availability of swarm and
    the treatment of swarm errors only. *)
Lemma finishGeneration_sameOutput (g g' : CaddyfileGenerator)
      (a : dockerAnswers) (st st' : generation) :
  swarmIsAvailable (swarm g) = swarmIsAvailable (swarm g') ->
  ignoreSwarmError g = ignoreSwarmError g' ->
  sameOutput st st' ->
  finishGeneration entropy g a st = finishGeneration entropy g' a st'.
Proof.
  intros A I H. unfold finishGeneration.
  pose proof (sameOutcome_serviceSources g g' a st st' A I H) as S.
  destruct (serviceSources entropy g a st) as [s2|[s2 e2]],
           (serviceSources entropy g' a st') as [s2'|[s2' e2']];
    cbn in S; try contradiction.
  - pose proof (sameOutcome_configSources g g' a s2 s2' A I S) as C.
    destruct (configSources g a s2) as [s3|[s3 e3]],
             (configSources g' a s2') as [s3'|[s3' e3']];
      cbn in C; try contradiction.
    + destruct C as (C1 & C2 & C3). cbn. now rewrite C1, C2, C3.
    + destruct C as [(_ & _ & C3) ->]. now rewrite C3.
  - destruct S as [(_ & _ & S3) ->]. now rewrite S3.
Qed.

(** [GenerateCaddyFile] in two steps. *)
Lemma GenerateCaddyFile_finish (g : CaddyfileGenerator) (a : dockerAnswers)
      (calls : nat) :
  let g1 := fst (fst (prepare g a)) in
  let st0 := mkGeneration [] (snd (fst (prepare g a))) [] calls in
  generatorAfter (Generator.GenerateCaddyFile entropy g a calls) = g1
  /\ if ignoreSwarmError g1 && negb (swarmIsAvailable (swarm g1)) then
       generated (Generator.GenerateCaddyFile entropy g a calls)
       = ([], logsBuffer st0, Some "swarm is unavailable")
       /\ suffixesAfter (Generator.GenerateCaddyFile entropy g a calls) = calls
     else
       (fst (fst (generated (Generator.GenerateCaddyFile entropy g a calls))),
        snd (generated (Generator.GenerateCaddyFile entropy g a calls)),
        suffixesAfter (Generator.GenerateCaddyFile entropy g a calls))
       = (fst (fst (finishGeneration entropy g1 a
                      (localSources entropy g1 a st0))),
          snd (fst (finishGeneration entropy g1 a
                      (localSources entropy g1 a st0))),
          snd (finishGeneration entropy g1 a (localSources entropy g1 a st0))).
Proof.
  unfold Generator.GenerateCaddyFile, finishGeneration, generated, generatorAfter,
    suffixesAfter.
  destruct (prepare g a) as [[g1 logs0] pl]. cbn [fst snd].
  destruct (ignoreSwarmError g1 && negb (swarmIsAvailable (swarm g1))).
  - cbn. auto.
  - destruct (serviceSources entropy g1 a _) as [s2|[s2 e2]]; [|cbn; auto].
    destruct (configSources g1 a s2) as [s3|[s3 e3]]; cbn; auto.
Qed.

Lemma probeIfStale_available (c : swarmCache) (info : infoResult) (now : Z) :
  swarmIsAvailable (fst (probeIfStale c info now))
  = if cacheIsStale c now then answeredAvailability info
    else swarmIsAvailable c.
Proof.
  unfold probeIfStale. destruct (cacheIsStale c now); [|reflexivity].
  unfold probe. destruct info; reflexivity.
Qed.

End GenerationFacts.

(** X25. With swarm errors not passed over and swarm not available after
    the availability step, [GenerateCaddyFile] gives up at once: it
    returns no bytes and the error [swarm is unavailable], draws no
    suffix, and reads neither the default Caddyfile nor the containers,
    services and configs.  [update] then leaves the active input and
    [previousCaddyfile] as they are and asks caddy nothing. *)
Theorem GenerateCaddyFile_strict_abort
        (entropy : nat -> draw) (g : CaddyfileGenerator) (a : dockerAnswers)
        (calls : nat) :
  ignoreSwarmError g = true ->
  swarmIsAvailable (fst (probeIfStale (swarm g) (infoAnswer a) (timeNow a)))
  = false ->
  (exists logs,
      generated (Generator.GenerateCaddyFile entropy g a calls)
      = ([], logs, Some "swarm is unavailable"))
  /\ suffixesAfter (Generator.GenerateCaddyFile entropy g a calls) = calls
  /\ (forall f k s c,
         generated (Generator.GenerateCaddyFile entropy g
                      (withOtherSources a f k s c) calls)
         = generated (Generator.GenerateCaddyFile entropy g a calls))
  /\ (forall (l : DockerLoader) (w : cycle) (reload : bool),
         GenerateCaddyFile w
         = generated (Generator.GenerateCaddyFile entropy g a calls) ->
         input (loaderAfter (update l w reload)) = input l
         /\ previousCaddyfile (loaderAfter (update l w reload))
            = previousCaddyfile l
         /\ quiet (trace (update l w reload))).
Proof.
  intros I U.
  assert (Abort : forall a',
             timeNow a' = timeNow a -> networksAnswer a' = networksAnswer a ->
             infoAnswer a' = infoAnswer a ->
             generated (Generator.GenerateCaddyFile entropy g a' calls)
             = ([], snd (fst (prepare g a)), Some "swarm is unavailable")
             /\ suffixesAfter (Generator.GenerateCaddyFile entropy g a' calls)
                = calls).
  { intros a' T N F.
    assert (P : prepare g a' = prepare g a)
      by (unfold prepare; now rewrite T, N, F).
    pose proof (GenerateCaddyFile_finish entropy g a' calls) as [_ H].
    pose proof (prepare_generator g a) as (_ & I1 & _ & _ & _ & S1).
    cbn zeta in *. rewrite P in H. rewrite I1, S1, I, U in H. exact H. }
  destruct (Abort a eq_refl eq_refl eq_refl) as [G S].
  split; [eexists; exact G|]. split; [exact S|]. split.
  - intros f k s c.
    destruct (Abort (withOtherSources a f k s c) eq_refl eq_refl eq_refl)
      as [G' _].
    now rewrite G, G'.
  - intros l w reload W. rewrite G in W.
    pose proof (update_cases l w reload) as H. rewrite W in H.
    rewrite H. unfold loaderAfter, trace, quiet. cbn. auto.
Qed.

Lemma GenerateCaddyFile_strict_abort_witness :
  suffixesAfter (Generator.GenerateCaddyFile entropyEx strictGenerator
                   answersEx 0) = 0.
Proof.
  apply (GenerateCaddyFile_strict_abort entropyEx strictGenerator answersEx 0).
  - reflexivity.
  - reflexivity.
Defined.

(** X26. Without swarm, and with swarm errors passed over,
    [GenerateCaddyFile] does not read the services and the configs: what
    it returns is the same whatever docker would answer for them; it
    returns no error, and its log ends with the two lines that say that
    services and configs were skipped. *)
Theorem GenerateCaddyFile_without_swarm
        (entropy : nat -> draw) (g : CaddyfileGenerator) (a : dockerAnswers)
        (calls : nat) :
  ignoreSwarmError g = false ->
  swarmIsAvailable (fst (probeIfStale (swarm g) (infoAnswer a) (timeNow a)))
  = false ->
  snd (generated (Generator.GenerateCaddyFile entropy g a calls)) = None
  /\ (forall s c,
         Generator.GenerateCaddyFile entropy g (withSwarmSources a s c) calls
         = Generator.GenerateCaddyFile entropy g a calls)
  /\ exists logs,
       snd (fst (generated (Generator.GenerateCaddyFile entropy g a calls)))
       = logs
         ++ ("[INFO] Skipping services because swarm is not available" ++ nl)
         ++ ("[INFO] Skipping configs because swarm is not available" ++ nl).
Proof.
  intros I U.
  pose proof (prepare_generator g a) as (_ & I1 & _ & _ & _ & S1).
  cbn zeta in *.
  assert (E : forall a',
             prepare g a' = prepare g a ->
             fileAnswer a' = fileAnswer a ->
             containersAnswer a' = containersAnswer a ->
             Generator.GenerateCaddyFile entropy g a' calls
             = let g1 := fst (fst (prepare g a)) in
               let st1 :=
                 localSources entropy g1 a
                   (mkGeneration [] (snd (fst (prepare g a))) [] calls) in
               let st2 :=
                 writeLog ("[INFO] Skipping services because swarm is not available"
                             ++ nl) st1 in
               let st3 :=
                 writeLog ("[INFO] Skipping configs because swarm is not available"
                             ++ nl) st2 in
               let st4 :=
                 writeCaddyfile
                   (list_byte_of_string (writeDirectives (directives st3) 0))
                   st3 in
               ((caddyfileBuffer st4, logsBuffer st4, None), g1, suffixes st4,
                snd (prepare g a))).
  { intros a' P F C. unfold Generator.GenerateCaddyFile. rewrite P.
    destruct (prepare g a) as [[g1 logs0] pl]. cbn [fst snd] in *.
    rewrite I1, I. cbn [andb].
    unfold serviceSources, configSources, localSources.
    rewrite S1, U, F, C. reflexivity. }
  split; [|split].
  - rewrite (E a eq_refl eq_refl eq_refl). reflexivity.
  - intros s c.
    rewrite (E a eq_refl eq_refl eq_refl).
    now rewrite (E (withSwarmSources a s c) eq_refl eq_refl eq_refl).
  - rewrite (E a eq_refl eq_refl eq_refl).
    unfold generated. cbn [fst snd logsBuffer writeCaddyfile writeLog].
    eexists. rewrite append_assoc. reflexivity.
Qed.

Lemma GenerateCaddyFile_without_swarm_witness :
  snd (generated (Generator.GenerateCaddyFile entropyEx lenientGenerator
                    answersEx 0)) = None.
Proof.
  apply (GenerateCaddyFile_without_swarm entropyEx lenientGenerator answersEx 0).
  - reflexivity.
  - reflexivity.
Defined.

(** X27. A container whose directives cannot be read is passed over: the
    bytes, the error, the number of suffixes and the generator
    [GenerateCaddyFile] ends with are those of the generation without
    that container; only the log has a line more. *)
Theorem GenerateCaddyFile_isolates_failing_container
        (entropy : nat -> draw) (g : CaddyfileGenerator) (a : dockerAnswers)
        (calls : nat) (l1 l2 : list (directiveMap + string)) (err : string) :
  containersAnswer a = inl (l1 ++ inr err :: l2)%list ->
  fst (fst (generated (Generator.GenerateCaddyFile entropy g a calls)))
  = fst (fst (generated (Generator.GenerateCaddyFile entropy g
                           (withContainers a (inl (l1 ++ l2)%list)) calls)))
  /\ snd (generated (Generator.GenerateCaddyFile entropy g a calls))
     = snd (generated (Generator.GenerateCaddyFile entropy g
                         (withContainers a (inl (l1 ++ l2)%list)) calls))
  /\ suffixesAfter (Generator.GenerateCaddyFile entropy g a calls)
     = suffixesAfter (Generator.GenerateCaddyFile entropy g
                        (withContainers a (inl (l1 ++ l2)%list)) calls)
  /\ generatorAfter (Generator.GenerateCaddyFile entropy g a calls)
     = generatorAfter (Generator.GenerateCaddyFile entropy g
                         (withContainers a (inl (l1 ++ l2)%list)) calls).
Proof.
  intros C.
  pose proof (GenerateCaddyFile_finish entropy g a calls) as [G1 H1].
  pose proof (GenerateCaddyFile_finish entropy g
                (withContainers a (inl (l1 ++ l2)%list)) calls) as [G2 H2].
  cbn zeta in *.
  change (prepare g (withContainers a (inl (l1 ++ l2)%list)))
    with (prepare g a) in *.
  remember (fst (fst (prepare g a))) as g1 eqn:Eg.
  remember (mkGeneration [] (snd (fst (prepare g a))) [] calls) as st0 eqn:Es.
  destruct (ignoreSwarmError g1 && negb (swarmIsAvailable (swarm g1))).
  - destruct H1 as [H1 S1], H2 as [H2 S2]. rewrite H1, H2, S1, S2, G1, G2.
    auto.
  - assert (F : finishGeneration entropy g1 a (localSources entropy g1 a st0)
                = finishGeneration entropy g1
                    (withContainers a (inl (l1 ++ l2)%list))
                    (localSources entropy g1
                       (withContainers a (inl (l1 ++ l2)%list)) st0)).
    { change (finishGeneration entropy g1
                (withContainers a (inl (l1 ++ l2)%list)))
        with (finishGeneration entropy g1 a).
      apply finishGeneration_sameOutput; [reflexivity | reflexivity |].
      unfold localSources. cbn [containersAnswer fileAnswer withContainers].
      rewrite C. apply sameOutput_containersLoop_skip. }
    rewrite <- F in H2. rewrite <- H1 in H2.
    injection H2 as E1 E2 E3. rewrite E1, E2, E3, G1, G2. auto.
Qed.

Lemma GenerateCaddyFile_isolates_failing_container_witness :
  fst (fst (generated (Generator.GenerateCaddyFile entropyEx lenientGenerator
                         answersEx 0)))
  = fst (fst (generated
                (Generator.GenerateCaddyFile entropyEx lenientGenerator
                   (withContainers answersEx
                      (inl ([inl [("site.com", siteInternal)]] ++ [])%list))
                   0))).
Proof.
  apply (GenerateCaddyFile_isolates_failing_container entropyEx
           lenientGenerator answersEx 0 [inl [("site.com", siteInternal)]] []
           "container gone").
  reflexivity.
Defined.

(** X28. The networks of caddy are looked up until they are found and
    never again: with the networks known, [GenerateCaddyFile] does not
    ask for them, whatever the answer would be, and keeps them; with
    network validation on and the networks not known yet, a lookup that
    succeeds stores them. *)
Theorem GenerateCaddyFile_networks_once
        (entropy : nat -> draw) (g : CaddyfileGenerator) (a : dockerAnswers)
        (calls : nat) :
  (forall nets,
      caddyNetworks g = Some nets ->
      caddyNetworks
        (generatorAfter (Generator.GenerateCaddyFile entropy g a calls))
      = Some nets
      /\ forall n,
           Generator.GenerateCaddyFile entropy g
             (withNetworks a n (timeNow a)) calls
           = Generator.GenerateCaddyFile entropy g a calls)
  /\ (forall networks,
         validateNetwork g = true ->
         caddyNetworks g = None ->
         getCaddyNetworks (networksAnswer a) = inl networks ->
         caddyNetworks
           (generatorAfter (Generator.GenerateCaddyFile entropy g a calls))
         = Some (fold_left (fun m network => mapSet network true m)
                           networks [])).
Proof.
  split.
  - intros nets N.
    assert (P : forall n, prepare g (withNetworks a n (timeNow a))
                          = prepare g a).
    { intros n. unfold prepare. rewrite N, andb_false_r. reflexivity. }
    split.
    + pose proof (GenerateCaddyFile_finish entropy g a calls) as [G _].
      cbn zeta in G. rewrite G. unfold prepare.
      rewrite N, andb_false_r.
      destruct (probeIfStale _ _ _). reflexivity.
    + intros n. unfold Generator.GenerateCaddyFile. rewrite P. reflexivity.
  - intros networks V N L.
    pose proof (GenerateCaddyFile_finish entropy g a calls) as [G _].
    cbn zeta in G. rewrite G. unfold prepare. rewrite V, N, L. cbn [andb].
    destruct (probeIfStale _ _ _). reflexivity.
Qed.

Section OrderFacts.
Variable entropy : nat -> draw.

(** *** Maps *)

Lemma NoDup_getKeys_mapSet {V : Type} (k : string) (v : V)
      (m : list (string * V)) :
  NoDup (getKeys m) -> NoDup (getKeys (mapSet k v m)).
Proof.
  induction m as [|[k0 v0] m IH]; simpl; intros ND.
  - constructor; [tauto | constructor].
  - inversion ND as [|? ? Hnot ND']; subst.
    destruct (String.eqb_spec k k0) as [->|Hne]; simpl.
    + now constructor.
    + constructor; [|now apply IH].
      intros I. apply (In_getKeys_mapSet k k0 v m) in I.
      destruct I as [E|I]; [congruence | tauto].
Qed.

Lemma NoDup_getKeys_mapDelete {V : Type} (k : string)
      (m : list (string * V)) :
  NoDup (getKeys m) -> NoDup (getKeys (mapDelete k m)).
Proof.
  induction m as [|[k0 v0] m IH]; simpl; intros ND; [constructor|].
  inversion ND as [|? ? Hnot ND']; subst.
  destruct (String.eqb k k0); [now apply IH|].
  simpl. constructor; [|now apply IH].
  intros I. apply getKeys_mapDelete_incl in I. tauto.
Qed.

Lemma Permutation_mapDelete {V : Type} (k : string) (v : V)
      (m : list (string * V)) :
  NoDup (getKeys m) -> mapGet k m = Some v ->
  Permutation m ((k, v) :: mapDelete k m).
Proof.
  induction m as [|[k0 v0] m IH]; simpl; [discriminate|].
  intros ND. inversion ND as [|? ? Hnot ND']; subst.
  destruct (String.eqb_spec k k0) as [->|Hne]; intros H.
  - injection H as ->. rewrite mapDelete_absent by exact Hnot.
    apply Permutation_refl.
  - eapply perm_trans; [apply perm_skip, IH; assumption | apply perm_swap].
Qed.

Lemma Forall_mapSet {V : Type} (P : V -> Prop) (k : string) (v : V)
      (m : list (string * V)) :
  P v -> Forall (fun e => P (snd e)) m ->
  Forall (fun e => P (snd e)) (mapSet k v m).
Proof.
  intros Pv. induction m as [|[k0 v0] m IH]; simpl; intros F.
  - constructor; [exact Pv | constructor].
  - inversion F; subst. destruct (String.eqb k k0); constructor; auto.
Qed.

Lemma In_getKeys {V : Type} (k : string) (v : V) (m : list (string * V)) :
  In (k, v) m -> In k (getKeys m).
Proof.
  intros I. change (In (fst (k, v)) (map fst m)). now apply in_map.
Qed.

(** *** Trees and maps with the same bindings *)

Lemma sameTree_inv (d1 d2 : directiveData) :
  sameTree d1 d2 ->
  name d1 = name d2 /\ args d1 = args d2
  /\ sameMap (children d1) (children d2).
Proof.
  intros S. inversion S as [n a c1 c1' c2 P F]; subst. cbn.
  repeat split. exists c1'. split; [exact P | exact F].
Qed.

Lemma sameMap_bindings (m1 m2 : directiveMap) :
  NoDup (getKeys m1) -> sameMap m1 m2 ->
  NoDup (getKeys m2) /\ sameBindings m1 m2.
Proof.
  intros ND (m1' & P & F).
  assert (K : getKeys m1' = getKeys m2).
  { clear P. induction F as [|[k1 x] [k2 y] ? ? [Hk _] F IH]; simpl;
      [reflexivity|].
    simpl in Hk. now rewrite Hk, IH. }
  assert (ND' : NoDup (getKeys m1')).
  { eapply Permutation_NoDup; [apply Permutation_map; exact P | exact ND]. }
  split; [now rewrite <- K|].
  intros k. rewrite (mapGet_Permutation k m1 m1' ND P).
  clear P ND ND' K.
  induction F as [|[k1 x] [k2 y] ? ? [Hk Hs] F IH]; simpl; [exact I|].
  simpl in Hk, Hs. subst k2. destruct (String.eqb k k1); [exact Hs | exact IH].
Qed.

Lemma bindings_sameMap (m2 : directiveMap) :
  forall m1 : directiveMap,
    NoDup (getKeys m1) -> NoDup (getKeys m2) -> sameBindings m1 m2 ->
    sameMap m1 m2.
Proof.
  induction m2 as [|[k y] m2 IH]; intros m1 ND1 ND2 B.
  - destruct m1 as [|[k x] m1]; [exists []; split; constructor|].
    specialize (B k). simpl in B. rewrite String.eqb_refl in B.
    contradiction.
  - inversion ND2 as [|? ? Hnot ND2']; subst.
    pose proof (B k) as Bk. simpl in Bk. rewrite String.eqb_refl in Bk.
    destruct (mapGet k m1) as [x|] eqn:G; [|contradiction].
    destruct (IH (mapDelete k m1)) as (m' & P & F).
    + now apply NoDup_getKeys_mapDelete.
    + exact ND2'.
    + intros j. rewrite mapGet_mapDelete. specialize (B j). simpl in B.
      destruct (String.eqb_spec j k) as [E|Hne].
      * subst j. apply mapGet_None in Hnot. rewrite Hnot. exact I.
      * exact B.
    + exists ((k, x) :: m'). split.
      * eapply perm_trans;
          [apply Permutation_mapDelete; eassumption | now apply perm_skip].
      * constructor; [split; [reflexivity | exact Bk] | exact F].
Qed.

Lemma uniqueKeys_inv (d : directiveData) :
  uniqueKeys d ->
  NoDup (getKeys (children d))
  /\ Forall (fun e => uniqueKeys (snd e)) (children d).
Proof. intros U. inversion U; subst. cbn. auto. Qed.

Lemma uniqueKeys_addArgs (a : directiveData) (more : list string) :
  uniqueKeys a -> uniqueKeys (addArgs a more).
Proof.
  intros U. apply uniqueKeys_inv in U as [ND F]. now constructor.
Qed.

Lemma uniqueKeys_mapGet (k : string) (d : directiveData) (m : directiveMap) :
  Forall (fun e => uniqueKeys (snd e)) m -> mapGet k m = Some d ->
  uniqueKeys d.
Proof.
  intros F G. apply mapGet_In in G. rewrite Forall_forall in F.
  exact (F _ G).
Qed.

(** Maps with the same bindings are written alike. *)
Lemma writeDirectives_sameBindings (m1 m2 : directiveMap) (level : nat) :
  uniqueKeysMap m1 -> NoDup (getKeys m2) -> sameBindings m1 m2 ->
  writeDirectives m1 level = writeDirectives m2 level.
Proof.
  intros [ND U] ND2 B. apply writeDirectives_sameMap.
  - exact ND.
  - rewrite Forall_forall in *. intros e He d2 S.
    apply writeDirective_sameTree; [now apply U | exact S].
  - now apply bindings_sameMap.
Qed.

(** *** The loop of mergeDirectives when no suffix is made *)

Lemma mergeChild_unchanged (m : directiveMap) (n : nat) (k : string)
      (b : directiveData) :
  needsSuffix (mapGet k m) b = false ->
  mergeChild entropy (m, n) (k, b)
  = (mapSet k (mergedChild (mapGet k m) b) m, n).
Proof.
  unfold needsSuffix, mergedChild, mergeChild.
  destruct (mapGet k m) as [a|] eqn:G; [|reflexivity].
  destruct (sameProxy a b); [reflexivity|].
  destruct (directivesAreSimilar a b); [|discriminate].
  intros _. now rewrite (mapSet_same k a m G).
Qed.

Lemma mergeChild_suffix (m : directiveMap) (n : nat) (k : string)
      (b : directiveData) :
  snd (mergeChild entropy (m, n) (k, b)) = n ->
  needsSuffix (mapGet k m) b = false.
Proof.
  unfold needsSuffix, mergeChild. destruct (mapGet k m) as [a|]; [|reflexivity].
  destruct (sameProxy a b); [reflexivity|].
  destruct (directivesAreSimilar a b); [reflexivity|].
  cbn. lia.
Qed.

Lemma mergeLoop_unchanged (bs : directiveMap) :
  forall (m : directiveMap) (n : nat),
    NoDup (getKeys bs) ->
    (forall k b, In (k, b) bs -> needsSuffix (mapGet k m) b = false) ->
    snd (mergeLoop entropy bs (m, n)) = n
    /\ forall k,
         mapGet k (fst (mergeLoop entropy bs (m, n)))
         = match mapGet k bs with
           | Some b => Some (mergedChild (mapGet k m) b)
           | None => mapGet k m
           end.
Proof.
  induction bs as [|[k0 b0] bs IH]; intros m n ND H.
  - split; reflexivity.
  - inversion ND as [|? ? Hnot ND']; subst. rewrite mergeLoop_cons.
    rewrite (mergeChild_unchanged m n k0 b0 (H k0 b0 (or_introl eq_refl))).
    destruct (IH (mapSet k0 (mergedChild (mapGet k0 m) b0) m) n ND')
      as [S L].
    + intros k b I. rewrite mapGet_mapSet_other; [apply H; now right|].
      intros ->. apply Hnot. exact (In_getKeys _ _ _ I).
    + split; [exact S|]. intros k. rewrite L. simpl.
      destruct (String.eqb_spec k k0) as [->|Hne].
      * apply mapGet_None in Hnot. rewrite Hnot. apply mapGet_mapSet_same.
      * rewrite mapGet_mapSet_other by exact Hne. reflexivity.
Qed.

Lemma mergeLoop_suffix (bs : directiveMap) :
  forall (m : directiveMap) (n : nat),
    NoDup (getKeys bs) ->
    snd (mergeLoop entropy bs (m, n)) = n ->
    forall k b, In (k, b) bs -> needsSuffix (mapGet k m) b = false.
Proof.
  induction bs as [|[k0 b0] bs IH]; intros m n ND S k b I; [contradiction|].
  inversion ND as [|? ? Hnot ND']; subst. rewrite mergeLoop_cons in S.
  pose proof (mergeChild_keys entropy m n k0 b0) as (_ & _ & K3).
  cbn zeta in K3.
  destruct (mergeChild entropy (m, n) (k0, b0)) as [m1 n1] eqn:M.
  cbn [snd] in K3.
  pose proof (mergeLoop_keys entropy bs m1 n1) as (_ & _ & K). cbn zeta in K.
  assert (n1 = n) by lia. subst n1.
  assert (N0 : needsSuffix (mapGet k0 m) b0 = false).
  { apply mergeChild_suffix with (n := n). now rewrite M. }
  destruct I as [[= -> ->]|I]; [exact N0|].
  rewrite (mergeChild_unchanged m n k0 b0 N0) in M. injection M as <-.
  assert (Hne : k <> k0).
  { intros ->. apply Hnot. exact (In_getKeys _ _ _ I). }
  rewrite <- (mapGet_mapSet_other k k0 (mergedChild (mapGet k0 m) b0) m)
    by exact Hne.
  now apply (IH _ n ND' S).
Qed.

Lemma mergeLoop_NoDup (bs : directiveMap) :
  forall (m : directiveMap) (n : nat),
    NoDup (getKeys m) ->
    NoDup (getKeys (fst (mergeLoop entropy bs (m, n)))).
Proof.
  induction bs as [|[k b] bs IH]; intros m n ND; [exact ND|].
  rewrite mergeLoop_cons.
  assert (ND1 : NoDup (getKeys (fst (mergeChild entropy (m, n) (k, b))))).
  { unfold mergeChild. destruct (mapGet k m) as [a|];
      [destruct (sameProxy a b); [|destruct (directivesAreSimilar a b)]|];
      cbn [fst]; auto using NoDup_getKeys_mapSet. }
  destruct (mergeChild entropy (m, n) (k, b)) as [m1 n1]. now apply IH.
Qed.

Lemma mergeLoop_uniqueKeys (bs : directiveMap) :
  forall (m : directiveMap) (n : nat),
    Forall (fun e => uniqueKeys (snd e)) m ->
    Forall (fun e => uniqueKeys (snd e)) bs ->
    Forall (fun e => uniqueKeys (snd e)) (fst (mergeLoop entropy bs (m, n))).
Proof.
  induction bs as [|[k b] bs IH]; intros m n Fm Fb; [exact Fm|].
  inversion Fb as [|? ? Ub Fb']; subst. cbn [snd] in Ub.
  rewrite mergeLoop_cons.
  assert (F1 : Forall (fun e => uniqueKeys (snd e))
                      (fst (mergeChild entropy (m, n) (k, b)))).
  { unfold mergeChild. destruct (mapGet k m) as [a|] eqn:G.
    - pose proof (uniqueKeys_mapGet k a m Fm G) as Ua.
      destruct (sameProxy a b); [|destruct (directivesAreSimilar a b)];
        cbn [fst]; auto using Forall_mapSet, uniqueKeys_addArgs.
    - cbn [fst]. now apply Forall_mapSet. }
  destruct (mergeChild entropy (m, n) (k, b)) as [m1 n1]. now apply IH.
Qed.

(** *** The merge of trees with the same bindings *)

Lemma needsSuffix_sameTree (a1 a2 : option directiveData)
      (b1 b2 : directiveData) :
  optionRel sameTree a1 a2 -> sameTree b1 b2 ->
  needsSuffix a1 b1 = needsSuffix a2 b2.
Proof.
  intros A B. apply sameTree_inv in B as (Bn & Ba & _).
  destruct a1 as [a1|], a2 as [a2|]; cbn in A; try contradiction;
    [|reflexivity].
  apply sameTree_inv in A as (An & Aa & _).
  unfold needsSuffix, sameProxy, directivesAreSimilar.
  now rewrite An, Aa, Bn, Ba.
Qed.

Lemma mergedChild_sameTree (a1 a2 : option directiveData)
      (b1 b2 : directiveData) :
  optionRel sameTree a1 a2 -> sameTree b1 b2 ->
  sameTree (mergedChild a1 b1) (mergedChild a2 b2).
Proof.
  intros A B. destruct a1 as [a1|], a2 as [a2|]; cbn in A; try contradiction;
    [|exact B].
  pose proof (sameTree_inv _ _ B) as (Bn & Ba & _).
  pose proof (sameTree_inv _ _ A) as (An & Aa & _).
  unfold mergedChild.
  replace (sameProxy a2 b2) with (sameProxy a1 b1)
    by (unfold sameProxy; now rewrite An, Aa, Bn, Ba).
  destruct (sameProxy a1 b1); [|exact A].
  rewrite Ba. inversion A as [n a c1 c1' c2 P F]; subst.
  unfold addArgs. cbn [name args children].
  econstructor; eassumption.
Qed.

Lemma mergeDirectives_Some (A : option directiveData) (b : directiveData)
      (n : nat) :
  exists c, fst (mergeDirectives entropy A (Some b) n) = Some c
            /\ n <= snd (mergeDirectives entropy A (Some b) n).
Proof.
  unfold mergeDirectives. destruct A as [a|].
  - pose proof (mergeLoop_keys entropy (children b) (children a) n)
      as (_ & _ & K).
    cbn zeta in K.
    destruct (mergeLoop entropy (children b) (children a, n)) as [c n'].
    cbn [fst snd] in *. eexists. split; [reflexivity | lia].
  - exists b. cbn. split; [reflexivity | lia].
Qed.

Lemma mergeDirectives_uniqueKeys (A : option directiveData)
      (b c : directiveData) (n : nat) :
  (forall a, A = Some a -> uniqueKeys a) -> uniqueKeys b ->
  fst (mergeDirectives entropy A (Some b) n) = Some c ->
  uniqueKeys c.
Proof.
  intros UA Ub. unfold mergeDirectives. destruct A as [a|].
  - destruct (uniqueKeys_inv a (UA a eq_refl)) as [NDa Fa].
    destruct (uniqueKeys_inv b Ub) as [NDb Fb].
    pose proof (mergeLoop_NoDup (children b) (children a) n NDa) as ND.
    pose proof (mergeLoop_uniqueKeys (children b) (children a) n Fa Fb) as F.
    destruct (mergeLoop entropy (children b) (children a, n)) as [c' n'].
    cbn [fst] in *. intros [= <-]. now constructor.
  - cbn. now intros [= <-].
Qed.

Lemma mergeDirectives_sameTree (A1 A2 : option directiveData)
      (b1 b2 : directiveData) (n : nat) :
  optionRel sameTree A1 A2 -> sameTree b1 b2 ->
  (forall a, A1 = Some a -> uniqueKeys a) -> uniqueKeys b1 ->
  snd (mergeDirectives entropy A1 (Some b1) n) = n ->
  exists c1 c2,
    mergeDirectives entropy A1 (Some b1) n = (Some c1, n)
    /\ mergeDirectives entropy A2 (Some b2) n = (Some c2, n)
    /\ sameTree c1 c2.
Proof.
  intros A B UA Ub S.
  destruct A1 as [a1|], A2 as [a2|]; cbn in A; try contradiction.
  2:{ exists b1, b2. cbn. auto. }
  destruct (sameTree_inv _ _ A) as (An & Aa & Ac).
  destruct (sameTree_inv _ _ B) as (_ & _ & Bc).
  destruct (uniqueKeys_inv a1 (UA a1 eq_refl)) as [NDa1 _].
  destruct (uniqueKeys_inv b1 Ub) as [NDb1 _].
  destruct (sameMap_bindings _ _ NDa1 Ac) as [NDa2 AB].
  destruct (sameMap_bindings _ _ NDb1 Bc) as [NDb2 BB].
  unfold mergeDirectives in *.
  pose proof (mergeLoop_NoDup (children b1) (children a1) n NDa1) as ND1.
  pose proof (mergeLoop_NoDup (children b2) (children a2) n NDa2) as ND2.
  destruct (mergeLoop entropy (children b1) (children a1, n)) as [c1 n1] eqn:M1.
  cbn [fst snd] in S, ND1. subst n1.
  assert (C1 : forall k b, In (k, b) (children b1) ->
                           needsSuffix (mapGet k (children a1)) b = false).
  { apply (mergeLoop_suffix (children b1) (children a1) n NDb1).
    now rewrite M1. }
  assert (C2 : forall k b, In (k, b) (children b2) ->
                           needsSuffix (mapGet k (children a2)) b = false).
  { intros k y I. apply (In_mapGet _ _ _ NDb2) in I.
    pose proof (BB k) as Bk. rewrite I in Bk.
    destruct (mapGet k (children b1)) as [x|] eqn:G; [|contradiction].
    cbn in Bk.
    rewrite <- (needsSuffix_sameTree _ _ x y (AB k) Bk).
    apply C1. now apply mapGet_In. }
  destruct (mergeLoop_unchanged (children b1) (children a1) n NDb1 C1)
    as [_ L1].
  destruct (mergeLoop_unchanged (children b2) (children a2) n NDb2 C2)
    as [S2 L2].
  rewrite M1 in L1. cbn [fst] in L1.
  destruct (mergeLoop entropy (children b2) (children a2, n)) as [c2 n2].
  cbn [fst snd] in S2, L2, ND2. subst n2.
  exists (Directive (name a1) (args a1) c1),
         (Directive (name a2) (args a2) c2).
  split; [reflexivity|]. split; [reflexivity|].
  assert (SM : sameMap c1 c2).
  { apply bindings_sameMap; [exact ND1 | exact ND2 |].
    intros k. rewrite L1, L2. pose proof (BB k) as Bk.
    destruct (mapGet k (children b1)) as [x|],
             (mapGet k (children b2)) as [y|];
      cbn in Bk; try contradiction.
    - cbn. apply mergedChild_sameTree; [apply AB | exact Bk].
    - apply AB. }
  destruct SM as (c1' & P & F). rewrite <- An, <- Aa.
  econstructor; eassumption.
Qed.

(** *** The directives of one container or service *)

Lemma mergeInto_eq (st : generation) (k : string) (d c : directiveData)
      (n : nat) :
  mergeDirectives entropy (mapGet k (directives st)) (Some d) (suffixes st)
  = (Some c, n) ->
  mergeInto entropy st (k, d)
  = mkGeneration (caddyfileBuffer st) (logsBuffer st)
                 (mapSet k c (directives st)) n.
Proof. intros E. unfold mergeInto. now rewrite E. Qed.

Lemma mergeInto_suffixes (st : generation) (e : string * directiveData) :
  suffixes st <= suffixes (mergeInto entropy st e).
Proof.
  destruct e as [k d].
  destruct (mergeDirectives_Some (mapGet k (directives st)) d (suffixes st))
    as (c & E & L).
  destruct (mergeDirectives entropy _ _ _) as [r n] eqn:M.
  cbn [fst snd] in *. subst r. rewrite (mergeInto_eq st k d c n M). exact L.
Qed.

Lemma mergeAll_suffixes (es : directiveMap) :
  forall st, suffixes st <= suffixes (fold_left (mergeInto entropy) es st).
Proof.
  induction es as [|e es IH]; intros st; [cbn; lia|].
  cbn [fold_left]. specialize (IH (mergeInto entropy st e)).
  pose proof (mergeInto_suffixes st e). lia.
Qed.

Lemma mergeAll_wellFormed (es : directiveMap) :
  forall st,
    uniqueKeysMap (directives st) ->
    Forall (fun e => uniqueKeys (snd e)) es ->
    uniqueKeysMap (directives (fold_left (mergeInto entropy) es st)).
Proof.
  induction es as [|[k d] es IH]; intros st U F; [exact U|].
  inversion F as [|? ? Ud F']; subst. cbn [snd] in Ud.
  cbn [fold_left]. apply IH; [|exact F'].
  destruct U as [ND Fs].
  destruct (mergeDirectives_Some (mapGet k (directives st)) d (suffixes st))
    as (c & E & _).
  assert (Uc : uniqueKeys c).
  { apply (mergeDirectives_uniqueKeys (mapGet k (directives st)) d c
             (suffixes st)); [|exact Ud | exact E].
    intros a G. exact (uniqueKeys_mapGet k a _ Fs G). }
  destruct (mergeDirectives entropy _ _ _) as [r n] eqn:M.
  cbn [fst] in E. subst r. rewrite (mergeInto_eq st k d c n M).
  cbn [directives]. split.
  - now apply NoDup_getKeys_mapSet.
  - now apply Forall_mapSet.
Qed.

Lemma mergeAll_NoDup (es : directiveMap) :
  forall st,
    NoDup (getKeys (directives st)) ->
    NoDup (getKeys (directives (fold_left (mergeInto entropy) es st))).
Proof.
  induction es as [|[k d] es IH]; intros st ND; [exact ND|].
  cbn [fold_left]. apply IH.
  destruct (mergeDirectives_Some (mapGet k (directives st)) d (suffixes st))
    as (c & E & _).
  destruct (mergeDirectives entropy _ _ _) as [r n] eqn:M.
  cbn [fst] in E. subst r. rewrite (mergeInto_eq st k d c n M).
  cbn [directives]. now apply NoDup_getKeys_mapSet.
Qed.

Lemma mergeAll_unchanged (es : directiveMap) :
  forall st,
    NoDup (getKeys es) ->
    (forall k d,
        In (k, d) es ->
        snd (mergeDirectives entropy (mapGet k (directives st)) (Some d)
                             (suffixes st)) = suffixes st) ->
    suffixes (fold_left (mergeInto entropy) es st) = suffixes st
    /\ caddyfileBuffer (fold_left (mergeInto entropy) es st)
       = caddyfileBuffer st
    /\ forall k,
         mapGet k (directives (fold_left (mergeInto entropy) es st))
         = match mapGet k es with
           | Some d =>
               fst (mergeDirectives entropy (mapGet k (directives st))
                                    (Some d) (suffixes st))
           | None => mapGet k (directives st)
           end.
Proof.
  induction es as [|[k0 d0] es IH]; intros st ND H.
  - repeat split.
  - inversion ND as [|? ? Hnot ND']; subst. cbn [fold_left].
    pose proof (H k0 d0 (or_introl eq_refl)) as S0.
    destruct (mergeDirectives_Some (mapGet k0 (directives st)) d0
                                   (suffixes st)) as (c & E & _).
    destruct (mergeDirectives entropy (mapGet k0 (directives st)) (Some d0)
                              (suffixes st)) as [r n] eqn:M.
    cbn [fst snd] in E, S0. subst r n.
    rewrite (mergeInto_eq st k0 d0 c (suffixes st) M).
    destruct (IH (mkGeneration (caddyfileBuffer st) (logsBuffer st)
                               (mapSet k0 c (directives st)) (suffixes st))
                 ND') as (S & Bf & L).
    + intros k d I. cbn [directives suffixes].
      rewrite mapGet_mapSet_other; [apply H; now right|].
      intros ->. apply Hnot. exact (In_getKeys _ _ _ I).
    + split; [exact S|]. split; [exact Bf|].
      intros k. rewrite L. cbn [directives suffixes]. simpl.
      destruct (String.eqb_spec k k0) as [->|Hne].
      * apply mapGet_None in Hnot. rewrite Hnot.
        rewrite mapGet_mapSet_same, M. reflexivity.
      * rewrite mapGet_mapSet_other by exact Hne. reflexivity.
Qed.

Lemma mergeAll_suffix (es : directiveMap) :
  forall st,
    NoDup (getKeys es) ->
    suffixes (fold_left (mergeInto entropy) es st) = suffixes st ->
    forall k d,
      In (k, d) es ->
      snd (mergeDirectives entropy (mapGet k (directives st)) (Some d)
                           (suffixes st)) = suffixes st.
Proof.
  induction es as [|[k0 d0] es IH]; intros st ND S k d I; [contradiction|].
  inversion ND as [|? ? Hnot ND']; subst. cbn [fold_left] in S.
  pose proof (mergeAll_suffixes es (mergeInto entropy st (k0, d0))) as L1.
  destruct (mergeDirectives_Some (mapGet k0 (directives st)) d0
                                 (suffixes st)) as (c & E & L0).
  destruct (mergeDirectives entropy (mapGet k0 (directives st)) (Some d0)
                            (suffixes st)) as [r n] eqn:M.
  cbn [fst snd] in E, L0. subst r.
  rewrite (mergeInto_eq st k0 d0 c n M) in S, L1. cbn [suffixes] in L1.
  assert (n = suffixes st) by lia. subst n.
  destruct I as [[= -> ->]|I]; [now rewrite M|].
  assert (Hne : k <> k0).
  { intros ->. apply Hnot. exact (In_getKeys _ _ _ I). }
  pose proof (IH _ ND' S k d I) as R. cbn [directives suffixes] in R.
  now rewrite mapGet_mapSet_other in R by exact Hne.
Qed.

Lemma sameDirectives_mergeAll (es1 es2 : directiveMap)
      (st1 st2 : generation) :
  sameDirectives st1 st2 ->
  uniqueKeysMap es1 -> sameMap es1 es2 ->
  suffixes (fold_left (mergeInto entropy) es1 st1) = suffixes st1 ->
  sameDirectives (fold_left (mergeInto entropy) es1 st1)
                 (fold_left (mergeInto entropy) es2 st2).
Proof.
  intros (Hb & Hs & U1 & ND2 & B) [NDe1 Ue1] SM S.
  destruct (sameMap_bindings _ _ NDe1 SM) as [NDe2 Be].
  pose proof (mergeAll_suffix es1 st1 NDe1 S) as C1.
  assert (R : forall k d1 d2,
             mapGet k es1 = Some d1 -> mapGet k es2 = Some d2 ->
             exists c1 c2,
               mergeDirectives entropy (mapGet k (directives st1)) (Some d1)
                               (suffixes st1) = (Some c1, suffixes st1)
               /\ mergeDirectives entropy (mapGet k (directives st2)) (Some d2)
                                  (suffixes st2) = (Some c2, suffixes st2)
               /\ sameTree c1 c2).
  { intros k d1 d2 G1 G2. pose proof (Be k) as Bk. rewrite G1, G2 in Bk.
    cbn in Bk. rewrite <- Hs.
    apply mergeDirectives_sameTree; [apply B | exact Bk | | |].
    - intros a G. exact (uniqueKeys_mapGet k a _ (proj2 U1) G).
    - exact (uniqueKeys_mapGet k d1 _ Ue1 G1).
    - apply C1. now apply mapGet_In. }
  assert (C2 : forall k d,
             In (k, d) es2 ->
             snd (mergeDirectives entropy (mapGet k (directives st2)) (Some d)
                                  (suffixes st2)) = suffixes st2).
  { intros k d2 I. apply (In_mapGet _ _ _ NDe2) in I.
    pose proof (Be k) as Bk. rewrite I in Bk.
    destruct (mapGet k es1) as [d1|] eqn:G1; [|contradiction].
    destruct (R k d1 d2 G1 I) as (c1 & c2 & _ & E2 & _). now rewrite E2. }
  destruct (mergeAll_unchanged es1 st1 NDe1 C1) as (S1 & B1 & L1).
  destruct (mergeAll_unchanged es2 st2 NDe2 C2) as (S2 & B2 & L2).
  split; [congruence|]. split; [congruence|].
  split; [apply mergeAll_wellFormed; assumption|].
  split; [now apply mergeAll_NoDup|].
  intros k. rewrite L1, L2. pose proof (Be k) as Bk.
  destruct (mapGet k es1) as [d1|] eqn:G1,
           (mapGet k es2) as [d2|] eqn:G2;
    cbn in Bk; try contradiction.
  - destruct (R k d1 d2 G1 G2) as (c1 & c2 & E1 & E2 & T).
    rewrite E1, E2. exact T.
  - apply B.
Qed.

(** *** The loops over the containers and the services *)

Lemma sameDirectives_writeLog (text text' : string) (st st' : generation) :
  sameDirectives st st' ->
  sameDirectives (writeLog text st) (writeLog text' st').
Proof. intros H. exact H. Qed.

Lemma sameDirectives_writeCaddyfile (dat : list Byte.byte)
      (st st' : generation) :
  sameDirectives st st' ->
  sameDirectives (writeCaddyfile dat st) (writeCaddyfile dat st').
Proof.
  intros (Hb & H). split; [|exact H]. cbn. now rewrite Hb.
Qed.

Lemma containersLoop_suffixes (l : list (directiveMap + string)) :
  forall st, suffixes st <= suffixes (containersLoop entropy l st).
Proof.
  unfold containersLoop.
  induction l as [|[es|err] l IH]; intros st; cbn [fold_left]; [lia| |].
  - specialize (IH (fold_left (mergeInto entropy) es st)).
    pose proof (mergeAll_suffixes es st). lia.
  - exact (IH (writeLog (errorLine err) st)).
Qed.

Lemma sameDirectives_containersLoop (l1 l2 : list (directiveMap + string)) :
  Forall2 sameSource l1 l2 ->
  forall st1 st2,
    sameDirectives st1 st2 ->
    suffixes (containersLoop entropy l1 st1) = suffixes st1 ->
    sameDirectives (containersLoop entropy l1 st1)
                   (containersLoop entropy l2 st2).
Proof.
  induction 1 as [|x y l1 l2 Hx F IH]; intros st1 st2 H S; [exact H|].
  destruct x as [es1|e1], y as [es2|e2]; cbn in Hx; try contradiction.
  - destruct Hx as [U SM].
    change (containersLoop entropy (inl es1 :: l1) st1)
      with (containersLoop entropy l1 (fold_left (mergeInto entropy) es1 st1))
      in *.
    change (containersLoop entropy (inl es2 :: l2) st2)
      with (containersLoop entropy l2 (fold_left (mergeInto entropy) es2 st2)).
    pose proof (mergeAll_suffixes es1 st1) as M1.
    pose proof (containersLoop_suffixes l1
                  (fold_left (mergeInto entropy) es1 st1)) as M2.
    apply IH; [apply sameDirectives_mergeAll; auto; lia | lia].
  - change (containersLoop entropy (inr e1 :: l1) st1)
      with (containersLoop entropy l1 (writeLog (errorLine e1) st1)) in *.
    change (containersLoop entropy (inr e2 :: l2) st2)
      with (containersLoop entropy l2 (writeLog (errorLine e2) st2)).
    apply IH; [now apply sameDirectives_writeLog | exact S].
Qed.

Lemma servicesLoop_suffixes (ignore : bool)
      (l : list (directiveMap + string)) :
  forall st r,
    servicesLoop entropy ignore l st = inl r -> suffixes st <= suffixes r.
Proof.
  induction l as [|[es|err] l IH]; intros st r E; cbn [servicesLoop] in E.
  - injection E as <-. lia.
  - apply IH in E. pose proof (mergeAll_suffixes es st). lia.
  - destruct ignore; [discriminate|]. now apply IH in E.
Qed.

Lemma sameDirectives_servicesLoop (ignore : bool)
      (l1 l2 : list (directiveMap + string)) :
  Forall2 sameSource l1 l2 ->
  forall st1 st2 r1,
    sameDirectives st1 st2 ->
    servicesLoop entropy ignore l1 st1 = inl r1 ->
    suffixes r1 = suffixes st1 ->
    exists r2,
      servicesLoop entropy ignore l2 st2 = inl r2 /\ sameDirectives r1 r2.
Proof.
  induction 1 as [|x y l1 l2 Hx F IH]; intros st1 st2 r1 H E S.
  { injection E as <-. now exists st2. }
  destruct x as [es1|e1], y as [es2|e2]; cbn in Hx; try contradiction;
    cbn [servicesLoop] in *.
  - destruct Hx as [U SM].
    pose proof (mergeAll_suffixes es1 st1) as M1.
    pose proof (servicesLoop_suffixes _ _ _ _ E) as M2.
    apply (IH _ (fold_left (mergeInto entropy) es2 st2) _) in E;
      [exact E | apply sameDirectives_mergeAll; auto; lia | lia].
  - destruct ignore; [discriminate|].
    apply (IH _ (writeLog (errorLine e2) st2) _) in E;
      [exact E | now apply sameDirectives_writeLog | exact S].
Qed.

Lemma configsLoop_suffixes (ignore : bool)
      (l : list (bool * (list Byte.byte + string))) :
  forall st r, configsLoop ignore l st = inl r -> suffixes r = suffixes st.
Proof.
  induction l as [|[[|] [dat|err]] l IH]; intros st r E;
    cbn [configsLoop] in E.
  - now injection E as <-.
  - now apply IH in E.
  - destruct ignore; [discriminate|]. now apply IH in E.
  - now apply IH in E.
  - now apply IH in E.
Qed.

Lemma sameDirectives_configsLoop (ignore : bool)
      (l : list (bool * (list Byte.byte + string))) :
  forall st1 st2 r1,
    sameDirectives st1 st2 ->
    configsLoop ignore l st1 = inl r1 ->
    exists r2, configsLoop ignore l st2 = inl r2 /\ sameDirectives r1 r2.
Proof.
  induction l as [|[[|] [dat|err]] l IH]; intros st1 st2 r1 H E;
    cbn [configsLoop] in *.
  - injection E as <-. now exists st2.
  - apply (IH _ (writeCaddyfile (list_byte_of_string nl)
                                (writeCaddyfile dat st2))) in E;
      [exact E | now do 2 apply sameDirectives_writeCaddyfile].
  - destruct ignore; [discriminate|].
    apply (IH _ (writeLog (errorLine err) st2)) in E;
      [exact E | now apply sameDirectives_writeLog].
  - now apply (IH _ st2) in E.
  - now apply (IH _ st2) in E.
Qed.

(** *** The whole generation *)

Lemma localSources_suffixes (g : CaddyfileGenerator) (a : dockerAnswers)
      (st : generation) :
  suffixes st <= suffixes (localSources entropy g a st).
Proof.
  unfold localSources.
  set (st1 := if negb (String.eqb (caddyFilePath g) "") then _ else _).
  assert (E : suffixes st1 = suffixes st).
  { unfold st1. destruct (negb _); [destruct (fileAnswer a)|]; reflexivity. }
  destruct (containersAnswer a) as [l|err].
  - pose proof (containersLoop_suffixes l st1). lia.
  - cbn. lia.
Qed.

Lemma sameDirectives_localSources (g g' : CaddyfileGenerator)
      (a a' : dockerAnswers) (st st' : generation) :
  caddyFilePath g' = caddyFilePath g ->
  sameAnswers a a' ->
  sameDirectives st st' ->
  suffixes (localSources entropy g a st) = suffixes st ->
  sameDirectives (localSources entropy g a st)
                 (localSources entropy g' a' st').
Proof.
  intros P (_ & Fa & _ & Ca & _) H. unfold localSources. rewrite P, Fa.
  set (st1 := if negb (String.eqb (caddyFilePath g) "") then _ else _).
  set (st1' := if negb (String.eqb (caddyFilePath g) "") then _ else _).
  assert (H1 : sameDirectives st1 st1').
  { unfold st1, st1'. destruct (negb _); [destruct (fileAnswer a)|].
    - now apply sameDirectives_writeCaddyfile.
    - now apply sameDirectives_writeLog.
    - now apply sameDirectives_writeLog. }
  assert (E : suffixes st1 = suffixes st).
  { unfold st1. destruct (negb _); [destruct (fileAnswer a)|]; reflexivity. }
  destruct (containersAnswer a) as [l|err],
           (containersAnswer a') as [l'|err']; cbn in Ca; try contradiction.
  - intros S. apply sameDirectives_containersLoop; [exact Ca | exact H1 |].
    now rewrite E.
  - intros _. now apply sameDirectives_writeLog.
Qed.

Lemma serviceSources_suffixes (g : CaddyfileGenerator) (a : dockerAnswers)
      (st r : generation) :
  serviceSources entropy g a st = inl r -> suffixes st <= suffixes r.
Proof.
  unfold serviceSources. destruct (swarmIsAvailable (swarm g)).
  - destruct (servicesAnswer a) as [l|err].
    + apply servicesLoop_suffixes.
    + destruct (ignoreSwarmError g); [discriminate|].
      intros [= <-]. cbn. lia.
  - intros [= <-]. cbn. lia.
Qed.

Lemma sameDirectives_serviceSources (g g' : CaddyfileGenerator)
      (a a' : dockerAnswers) (st st' r : generation) :
  swarmIsAvailable (swarm g') = swarmIsAvailable (swarm g) ->
  ignoreSwarmError g' = ignoreSwarmError g ->
  sameAnswers a a' ->
  sameDirectives st st' ->
  serviceSources entropy g a st = inl r ->
  suffixes r = suffixes st ->
  exists r',
    serviceSources entropy g' a' st' = inl r' /\ sameDirectives r r'.
Proof.
  intros A I (_ & _ & _ & _ & Sa) H. unfold serviceSources. rewrite A, I.
  destruct (swarmIsAvailable (swarm g)).
  - destruct (servicesAnswer a) as [l|err],
             (servicesAnswer a') as [l'|err']; cbn in Sa; try contradiction.
    + intros E S. now apply (sameDirectives_servicesLoop _ l l' Sa st st' r).
    + destruct (ignoreSwarmError g); [discriminate|].
      intros [= <-] _. eexists. split; [reflexivity|].
      now apply sameDirectives_writeLog.
  - intros [= <-] _. eexists. split; [reflexivity|].
    now apply sameDirectives_writeLog.
Qed.

Lemma configSources_suffixes (g : CaddyfileGenerator) (a : dockerAnswers)
      (st r : generation) :
  configSources g a st = inl r -> suffixes r = suffixes st.
Proof.
  unfold configSources. destruct (swarmIsAvailable (swarm g)).
  - destruct (configsAnswer a) as [l|err].
    + apply configsLoop_suffixes.
    + destruct (ignoreSwarmError g); [discriminate|]. now intros [= <-].
  - now intros [= <-].
Qed.

Lemma sameDirectives_configSources (g g' : CaddyfileGenerator)
      (a a' : dockerAnswers) (st st' r : generation) :
  swarmIsAvailable (swarm g') = swarmIsAvailable (swarm g) ->
  ignoreSwarmError g' = ignoreSwarmError g ->
  sameAnswers a a' ->
  sameDirectives st st' ->
  configSources g a st = inl r ->
  exists r', configSources g' a' st' = inl r' /\ sameDirectives r r'.
Proof.
  intros A I (_ & _ & Ca & _) H. unfold configSources. rewrite A, I, Ca.
  destruct (swarmIsAvailable (swarm g)).
  - destruct (configsAnswer a) as [l|err].
    + now apply sameDirectives_configsLoop.
    + destruct (ignoreSwarmError g); [discriminate|].
      intros [= <-]. eexists. split; [reflexivity|].
      now apply sameDirectives_writeLog.
  - intros [= <-]. eexists. split; [reflexivity|].
    now apply sameDirectives_writeLog.
Qed.

(** From the default Caddyfile to the end: when a generation succeeds
    and makes no suffix, a generation from the same answers gives the
    same bytes, without a suffix either. *)
Lemma finishGeneration_sameAnswers (g g' : CaddyfileGenerator)
      (a a' : dockerAnswers) (st st' : generation) (c : list Byte.byte) :
  caddyFilePath g' = caddyFilePath g ->
  swarmIsAvailable (swarm g') = swarmIsAvailable (swarm g) ->
  ignoreSwarmError g' = ignoreSwarmError g ->
  sameAnswers a a' ->
  sameDirectives st st' ->
  finishGeneration entropy g a (localSources entropy g a st)
  = ((c, None), suffixes st) ->
  finishGeneration entropy g' a' (localSources entropy g' a' st')
  = ((c, None), suffixes st).
Proof.
  intros P A I SA H. unfold finishGeneration.
  pose proof (localSources_suffixes g a st) as M1.
  destruct (serviceSources entropy g a (localSources entropy g a st))
    as [s2|[s2 e2]] eqn:E2; [|discriminate].
  pose proof (serviceSources_suffixes _ _ _ _ E2) as M2.
  destruct (configSources g a s2) as [s3|[s3 e3]] eqn:E3; [|discriminate].
  pose proof (configSources_suffixes _ _ _ _ E3) as M3.
  intros [= Hc Hn].
  assert (H1 : sameDirectives (localSources entropy g a st)
                              (localSources entropy g' a' st')).
  { apply sameDirectives_localSources; auto. lia. }
  destruct (sameDirectives_serviceSources g g' a a' _ _ s2 A I SA H1 E2)
    as (s2' & E2' & H2); [lia|].
  destruct (sameDirectives_configSources g g' a a' _ _ s3 A I SA H2 E3)
    as (s3' & E3' & H3).
  rewrite E2', E3'.
  destruct H3 as (Hb & Hs & U & ND & B).
  cbn [caddyfileBuffer writeCaddyfile] in *.
  rewrite <- Hb, <- Hs, Hn.
  rewrite <- (writeDirectives_sameBindings (directives s3) (directives s3') 0
                U ND B).
  now rewrite Hc.
Qed.

End OrderFacts.

(** X29. Generating again changes nothing when nothing changed, in
    whatever order the maps are iterated.  A first generation renews the
    availability of swarm, succeeds and makes no suffix.  A second
    generation, at any later time, is given the same answers by docker:
    the same containers and services in the order docker lists them,
    each with the same directives, whose maps may be iterated in another
    order at every level.  Then the second generation returns the same
    bytes, without error and without a suffix, and the second [update] of
    a loader fed with the two generations returns false and asks caddy
    nothing. *)
Theorem regeneration_is_idempotent
        (entropy : nat -> draw) (g : CaddyfileGenerator)
        (a a' : dockerAnswers) (calls : nat) :
  cacheIsStale (swarm g) (timeNow a) = true ->
  sameAnswers a a' ->
  snd (generated (Generator.GenerateCaddyFile entropy g a calls)) = None ->
  suffixesAfter (Generator.GenerateCaddyFile entropy g a calls) = calls ->
  fst (fst (generated
              (Generator.GenerateCaddyFile entropy
                 (generatorAfter (Generator.GenerateCaddyFile entropy g a calls))
                 a' calls)))
  = fst (fst (generated (Generator.GenerateCaddyFile entropy g a calls)))
  /\ snd (generated
            (Generator.GenerateCaddyFile entropy
               (generatorAfter (Generator.GenerateCaddyFile entropy g a calls))
               a' calls)) = None
  /\ suffixesAfter
       (Generator.GenerateCaddyFile entropy
          (generatorAfter (Generator.GenerateCaddyFile entropy g a calls))
          a' calls) = calls
  /\ (forall (l : DockerLoader) (w1 w2 : cycle) (reload1 reload2 : bool),
         GenerateCaddyFile w1
         = generated (Generator.GenerateCaddyFile entropy g a calls) ->
         GenerateCaddyFile w2
         = generated
             (Generator.GenerateCaddyFile entropy
                (generatorAfter (Generator.GenerateCaddyFile entropy g a calls))
                a' calls) ->
         returned (update (loaderAfter (update l w1 reload1)) w2 reload2)
         = false
         /\ quiet (trace (update (loaderAfter (update l w1 reload1))
                                 w2 reload2))).
Proof.
  intros Stale SA G1 S1.
  pose proof (GenerateCaddyFile_finish entropy g a calls) as [A1 H1].
  pose proof (prepare_generator g a) as (P1 & I1 & _ & _ & _ & W1).
  cbn zeta in *.
  remember (fst (fst (prepare g a))) as g1 eqn:Eg1.
  remember (Generator.GenerateCaddyFile entropy g a calls) as r1 eqn:Er1.
  rewrite A1 in *.
  pose proof (GenerateCaddyFile_finish entropy g1 a' calls) as [A2 H2].
  pose proof (prepare_generator g1 a') as (P2 & I2 & _ & _ & _ & W2).
  cbn zeta in *.
  remember (fst (fst (prepare g1 a'))) as g2 eqn:Eg2.
  remember (Generator.GenerateCaddyFile entropy g1 a' calls) as r2 eqn:Er2.
  assert (Av1 : swarmIsAvailable (swarm g1)
                = answeredAvailability (infoAnswer a)).
  { rewrite W1, probeIfStale_available, Stale. reflexivity. }
  assert (Av2 : swarmIsAvailable (swarm g2) = swarmIsAvailable (swarm g1)).
  { rewrite W2, probeIfStale_available.
    destruct SA as (In & _). rewrite In.
    destruct (cacheIsStale (swarm g1) (timeNow a'));
      [now rewrite Av1 | reflexivity]. }
  rewrite I2, Av2 in H2.
  destruct (ignoreSwarmError g1 && negb (swarmIsAvailable (swarm g1))).
  { destruct H1 as [H1 _]. rewrite H1 in G1. discriminate. }
  assert (F1 : finishGeneration entropy g1 a
                 (localSources entropy g1 a
                    (mkGeneration [] (snd (fst (prepare g a))) [] calls))
               = ((fst (fst (generated r1)), None), calls)).
  { rewrite G1, S1 in H1.
    destruct (finishGeneration entropy g1 a _) as [[c e] n].
    cbn [fst snd] in H1. now injection H1 as -> -> ->. }
  assert (F2 : finishGeneration entropy g2 a'
                 (localSources entropy g2 a'
                    (mkGeneration [] (snd (fst (prepare g1 a'))) [] calls))
               = ((fst (fst (generated r1)), None), calls)).
  { apply (finishGeneration_sameAnswers entropy g1 g2 a a'
             (mkGeneration [] (snd (fst (prepare g a))) [] calls)
             (mkGeneration [] (snd (fst (prepare g1 a'))) [] calls));
      [exact P2 | exact Av2 | exact I2 | exact SA | | exact F1].
    repeat split; constructor. }
  rewrite F2 in H2. injection H2 as E1 E2 E3.
  split; [exact E1|]. split; [exact E2|]. split; [exact E3|].
  intros l w1 w2 reload1 reload2 X1 X2.
  destruct (generated r1) as [[c1 logs1] e1] eqn:Q1.
  destruct (generated r2) as [[c2 logs2] e2] eqn:Q2.
  cbn [fst snd] in *. subst c2 e2 e1.
  pose proof (update_stores_output l w1 reload1 c1 logs1 X1) as Prev.
  rewrite (update_unchanged _ w2 reload2 c1 logs2 X2 Prev).
  unfold returned, quiet, trace. cbn [fst snd].
  split; [reflexivity|].
  destruct (negb (String.eqb _ logs2)); reflexivity.
Qed.

Lemma regeneration_is_idempotent_witness :
  fst (fst (generated
              (Generator.GenerateCaddyFile entropyEx
                 (generatorAfter
                    (Generator.GenerateCaddyFile entropyEx lenientGenerator
                       answersOrder1 0))
                 answersOrder2 0)))
  = fst (fst (generated
                (Generator.GenerateCaddyFile entropyEx lenientGenerator
                   answersOrder1 0))).
Proof.
  apply (regeneration_is_idempotent entropyEx lenientGenerator answersOrder1
           answersOrder2 0).
  - reflexivity.
  - unfold sameAnswers. cbn.
    split; [reflexivity|]. split; [reflexivity|]. split; [reflexivity|].
    split; [|constructor].
    constructor; [|constructor; [exact I | constructor]].
    split; [exact uniqueKeysMap_siteOrder1 | exact sameMap_siteOrder].
  - vm_compute. reflexivity.
  - vm_compute. reflexivity.
Defined.

(** ** Further properties: Load *)

(** X30. [Load] sets the loader up once.  After a first call for the
    server type [http], whether docker could be reached or not, a further
    call has no effect on the outside and on the loader: it returns the
    active input for [http] and nil for another server type.  No call of
    [Load] reloads caddy. *)
Theorem Load_initializes_once
        (p : loaderProcess) (a a' : loadAnswers) (serverType : string) :
  initialized (processAfter (Load p "http" a)) = true
  /\ processAfter (Load (processAfter (Load p "http" a)) serverType a')
     = processAfter (Load p "http" a)
  /\ loadEffects (Load (processAfter (Load p "http" a)) serverType a') = []
  /\ loaded (Load (processAfter (Load p "http" a)) serverType a')
     = (if String.eqb serverType "http"
        then Some (input (loader (processAfter (Load p "http" a))))
        else None)
  /\ ~ In (DuringUpdate ReloadCaddy) (loadEffects (Load p serverType a)).
Proof.
  assert (I : initialized (processAfter (Load p "http" a)) = true).
  { unfold Load. cbn [String.eqb Ascii.eqb Bool.eqb negb].
    destruct (initialized p) eqn:Ip; cbn [negb]; [exact Ip|].
    destruct (newEnvClient a); [reflexivity|].
    destruct (ping a); [reflexivity|].
    destruct (if negb (String.eqb (pollingIntervalEnv a) "") then _ else _)
      as [interval intervalLog].
    destruct (update _ _ false) as [[b l2] effects]. reflexivity. }
  split; [exact I|].
  remember (processAfter (Load p "http" a)) as p1 eqn:E.
  assert (Again : Load p1 serverType a'
                  = (if String.eqb serverType "http"
                     then Some (input (loader p1)) else None, p1, [])).
  { unfold Load. rewrite I. destruct (String.eqb serverType "http");
      reflexivity. }
  rewrite Again. unfold processAfter, loadEffects, loaded. cbn [fst snd].
  repeat split.
  clear. unfold Load.
  destruct (negb (String.eqb serverType "http")); [intros []|].
  destruct (negb (initialized p)); [|intros []].
  destruct (newEnvClient a); [cbn; intuition discriminate|].
  destruct (ping a); [cbn; intuition discriminate|].
  match goal with
  | |- context [let (_, _) := ?x in _] => set (il := x)
  end.
  assert (Hil : forall e, In e (snd il) -> e <> DuringUpdate ReloadCaddy).
  { subst il. destruct (negb (String.eqb (pollingIntervalEnv a) ""));
      [destruct (parseDuration a _)|]; intros e H E; subst e; cbn in H;
      intuition discriminate. }
  destruct il as [interval intervalLog]. cbn [snd] in Hil.
  match goal with
  | |- context [update ?l ?w false] =>
      pose proof (update_cases l w false) as H;
      destruct (update l w false) as [[b l2] effects] eqn:U
  end.
  cbn [snd]. rewrite !in_app_iff. intros [X|[X|[X|[X|X]]]].
  - cbn in X. intuition discriminate.
  - exact (Hil _ X eq_refl).
  - cbn in X. intuition discriminate.
  - apply in_map_iff in X as (e & Ee & Ie). injection Ee as ->.
    cbn [GenerateCaddyFile] in H.
    destruct (firstGenerate a) as [[c lg] [er|]].
    + injection H as _ _ ->. cbn in Ie. intuition discriminate.
    + cbn zeta in H. unfold returned, loaderAfter, trace in H.
      cbn [fst snd] in H.
      destruct H as [(_ & _ & _ & Q)|(_ & _ & before & Q & H)].
      * exact (quiet_no_reload _ Q Ie).
      * destruct (validate _ _); destruct H as [_ T]; rewrite T in Ie;
          rewrite !in_app_iff in Ie; destruct Ie as [Ie|Ie];
          try exact (quiet_no_reload _ Q Ie);
          cbn in Ie; intuition discriminate.
  - cbn in X. intuition discriminate.
Qed.
